(** * CBAM assistant: request classification, cost calculation and the
      completion pipeline of [streamlit_Chatapp.py] / [streamlit_Chatapp.v2.py]

    The development embeds the decision logic of the two Streamlit scripts:
    the regular-expression classifier [extract_cbam_request], the calculator
    [calculate_cbam_cost], the retriever [cortex_search], the throttled and
    retried completion client [llm_complete], one turn of [main] and the
    carbon-price controls of [render_config_ui].  Where the two scripts
    differ, the modules [V2], [Calc2], [Retr2], [Cfg2] hold the second
    script and [V1], [Calc1], [Retr1], [Cfg1] the first; everything outside
    these modules follows the second script.

    Modelling conventions.
    - A Python [str] is a list of Unicode code points ([pystr]).  The
      character classes [\d], [\w], [\s] and case folding follow CPython on
      the ASCII range; code points above 127 are never classified as digits,
      word characters or white space and have no case.
    - A Python [float] is an IEEE-754 binary64 number ([f64]), computed with
      the Standard Library's [SpecFloat]; [float(s)] rounds correctly.
    - A Python [int] is an unbounded natural number ([N]) where the source
      parses digits; the interpreter's optional limit on the length of a
      digit string is not modelled.
    - Wall-clock time is an exact rational; [time.sleep d] advances the clock
      by [d], a hosted call by its own duration, and nothing else takes
      time.
    - Hosted services (document search, completion) are oracles of the
      environment; Streamlit output calls are recorded in an event log.
    - The text of an f-string template is not modelled: a prompt and a
      calculation message are the records of the values substituted. *)

From Stdlib Require Import List String Ascii Bool Arith NArith ZArith Lia.
From Stdlib Require Import QArith Lqa.
From Stdlib Require Import SpecFloat.
From Stdlib Require DecimalPos DecimalN.
Import ListNotations.

Set Implicit Arguments.
Local Open Scope N_scope.

(* ===================================================================== *)
(** * Python strings                                                      *)
(* ===================================================================== *)

Definition pystr := list N.

Module Utf8.

Definition bytes_of (s : string) : list N :=
  map N_of_ascii (list_ascii_of_string s).

(** Decoder for well-formed UTF-8, as the Python parser applies to the
    source file's string literals. *)
Fixpoint decode (bs : list N) : pystr :=
  match bs with
  | [] => []
  | b0 :: r0 =>
    if b0 <? 128 then b0 :: decode r0
    else match r0 with
    | [] => [b0]
    | b1 :: r1 =>
      if b0 <? 224 then ((b0 - 192) * 64 + (b1 - 128)) :: decode r1
      else match r1 with
      | [] => [b0; b1]
      | b2 :: r2 =>
        if b0 <? 240
        then ((b0 - 224) * 4096 + (b1 - 128) * 64 + (b2 - 128)) :: decode r2
        else match r2 with
        | [] => [b0; b1; b2]
        | b3 :: r3 =>
          ((b0 - 240) * 262144 + (b1 - 128) * 4096
           + (b2 - 128) * 64 + (b3 - 128)) :: decode r3
        end
      end
    end
  end.

End Utf8.

(** [u "..."] is the Python string written as that literal. *)
Definition u (s : string) : pystr := Utf8.decode (Utf8.bytes_of s).

Definition chr (a : ascii) : N := N_of_ascii a.

Definition is_digit (c : N) : bool := (48 <=? c) && (c <=? 57).
Definition is_upper (c : N) : bool := (65 <=? c) && (c <=? 90).
Definition is_lower (c : N) : bool := (97 <=? c) && (c <=? 122).
Definition is_word (c : N) : bool :=
  is_digit c || is_upper c || is_lower c || (c =? 95).
(** [\s] on the ASCII range: TAB..CR, FS..US and SPACE. *)
Definition is_space (c : N) : bool :=
  ((9 <=? c) && (c <=? 13)) || ((28 <=? c) && (c <=? 31)) || (c =? 32).
Definition newline : N := 10.
Definition apostrophe : N := 39.
Definition comma : N := 44.

Definition lower_char (c : N) : N := if is_upper c then c + 32 else c.

(** [s.lower()] *)
Definition lower (s : pystr) : pystr := map lower_char s.

(** [s.replace(c, "")] for a one-character [c] *)
Definition remove_char (c : N) (s : pystr) : pystr :=
  filter (fun x => negb (x =? c)) s.

(** [sep.join(parts)] *)
Fixpoint join (sep : pystr) (parts : list pystr) : pystr :=
  match parts with
  | [] => []
  | [p] => p
  | p :: rest => p ++ sep ++ join sep rest
  end.

Definition pystr_eqb (a b : pystr) : bool :=
  if list_eq_dec N.eq_dec a b then true else false.

(** [int(s)] on a string of decimal digits *)
Definition digit_val (c : N) : N := c - 48.
Definition int_of_digits (s : pystr) : N :=
  fold_left (fun acc c => acc * 10 + digit_val c) s 0.

(* ===================================================================== *)
(** * Python floats                                                       *)
(* ===================================================================== *)

Definition f64 := spec_float.

Module F64.

Definition prec : Z := 53.
Definition emax : Z := 1024.

Definition zero : f64 := S754_zero false.
Definition mul : f64 -> f64 -> f64 := SFmul prec emax.
Definition sub : f64 -> f64 -> f64 := SFsub prec emax.
Definition ltb : f64 -> f64 -> bool := SFltb.
Definition leb : f64 -> f64 -> bool := SFleb.
Definition eqb : f64 -> f64 -> bool := SFeqb.
Definition valid : f64 -> bool := valid_binary prec emax.

(** The quotient [n / d] of two positive integers, rounded to nearest
    even. *)
Definition of_ratio (n d : positive) : f64 :=
  let '(q, e, l) := SFdiv_core_binary prec emax (Zpos n) 0 (Zpos d) 0 in
  binary_round_aux prec emax false q e l.

(** [float(s)] for [s] of the form [digits] or [digits.digits], given
    as the integer and the fraction digits. *)
Fixpoint pow10 (k : nat) : positive :=
  match k with O => 1 | S k' => 10 * pow10 k' end%positive.

(** The decimal numeral [ip.fp] (integer digits, fraction digits). *)
Definition of_decimal (ip fp : pystr) : f64 :=
  match int_of_digits (ip ++ fp) with
  | N0 => zero
  | Npos n => of_ratio n (pow10 (List.length fp))
  end.

(** [float(s)] for [s] of the form [digits] or [digits.digits]. *)
Fixpoint split_dot (s : pystr) : pystr * pystr :=
  match s with
  | [] => ([], [])
  | c :: r => if c =? 46 then ([], r)
              else let '(ip, fp) := split_dot r in (c :: ip, fp)
  end.

Definition of_str (s : pystr) : f64 :=
  let '(ip, fp) := split_dot s in of_decimal ip fp.

(** Truth value of a float in a boolean context: zero is false. *)
Definition truthy (x : f64) : bool :=
  match x with S754_zero _ => false | _ => true end.

(** [max(a, b)] on two floats: [b] replaces [a] only when [b > a]. *)
Definition max (a b : f64) : f64 := if ltb a b then b else a.

End F64.

(* ===================================================================== *)
(** * Backtracking regular expressions (Python's [re])                    *)
(* ===================================================================== *)

(** The fragment of [re] syntax that the classifier's patterns use.
    [Star true r] is the greedy [r*], [Star false r] the lazy [r*?];
    [Alt] tries its left branch first; [Grp n r] is capture group [n]. *)
Inductive regex : Type :=
| Eps : regex
| Cls : (N -> bool) -> regex
| Cat : regex -> regex -> regex
| Alt : regex -> regex -> regex
| Star : bool -> regex -> regex
| Grp : nat -> regex -> regex.

(** Captured groups, most recent binding first. *)
Definition caps := list (nat * pystr).

Fixpoint group (n : nat) (c : caps) : option pystr :=
  match c with
  | [] => None
  | (m, s) :: c' => if Nat.eqb m n then Some s else group n c'
  end.

Section Matcher.

Variable A : Type.

Definition cont := pystr -> caps -> option A.

Definition orelse (x : option A) (y : unit -> option A) : option A :=
  match x with Some a => Some a | None => y tt end.

(** Iterations of a starred body.  An iteration has to consume input,
    so [length s] iterations suffice. *)
Fixpoint star_loop (body : pystr -> caps -> cont -> option A)
         (greedy : bool) (fuel : nat) (s : pystr) (c : caps) (k : cont)
  : option A :=
  match fuel with
  | O => k s c
  | S fuel' =>
    let again (_ : unit) :=
      body s c (fun s' c' =>
        if (List.length s' <? List.length s)%nat
        then star_loop body greedy fuel' s' c' k
        else None) in
    if greedy then orelse (again tt) (fun _ => k s c)
    else orelse (k s c) again
  end.

(** [rmatch r s c k] matches [r] at the head of [s] and passes the rest
    of the input and the captures to [k]; a failing [k] makes the
    matcher backtrack into [r]. *)
Fixpoint rmatch (r : regex) (s : pystr) (c : caps) (k : cont) : option A :=
  match r with
  | Eps => k s c
  | Cls p =>
    match s with
    | x :: s' => if p x then k s' c else None
    | [] => None
    end
  | Cat r1 r2 => rmatch r1 s c (fun s' c' => rmatch r2 s' c' k)
  | Alt r1 r2 => orelse (rmatch r1 s c k) (fun _ => rmatch r2 s c k)
  | Star g r1 => star_loop (rmatch r1) g (List.length s) s c k
  | Grp n r1 =>
    rmatch r1 s c (fun s' c' =>
      k s' ((n, firstn (List.length s - List.length s') s) :: c'))
  end.

End Matcher.

(** A match object: where the match starts and ends, and its groups. *)
Record rmatch_obj := { m_start : nat; m_end : nat; m_groups : caps }.

(** [re.match]: anchored at the head of [s], which sits at offset [i]. *)
Definition match_at (r : regex) (i : nat) (s : pystr) : option rmatch_obj :=
  rmatch r s [] (fun s' c =>
    Some {| m_start := i;
            m_end := (i + (List.length s - List.length s'))%nat;
            m_groups := c |}).

(** [re.search]: the first position, left to right, with a match. *)
Fixpoint search_from (r : regex) (i : nat) (s : pystr) : option rmatch_obj :=
  match match_at r i s with
  | Some m => Some m
  | None =>
    match s with
    | [] => None
    | _ :: s' => search_from r (S i) s'
    end
  end.

Definition re_search (r : regex) (s : pystr) : option rmatch_obj :=
  search_from r 0 s.

(** ** Pattern syntax *)

Module Re.

Definition digit : regex := Cls is_digit.                  (* \d *)
Definition space : regex := Cls is_space.                  (* \s *)
Definition word : regex := Cls is_word.                    (* \w *)
Definition dot : regex := Cls (fun c => negb (c =? newline)). (* . *)
Definition lit (c : N) : regex := Cls (N.eqb c).
(** a literal character under [re.IGNORECASE] *)
Definition lit_i (c : N) : regex :=
  Cls (fun x => lower_char x =? lower_char c).
Definition plus (r : regex) : regex := Cat r (Star true r).       (* r+ *)
Definition opt (r : regex) : regex := Alt r Eps.                  (* r? *)
Fixpoint seq (rs : list regex) : regex :=
  match rs with
  | [] => Eps
  | [r] => r
  | r :: rs' => Cat r (seq rs')
  end.
(** a literal string under [re.IGNORECASE] *)
Definition str_i (s : pystr) : regex := seq (map lit_i s).
Definition str (s : pystr) : regex := seq (map lit s).

End Re.

(* ===================================================================== *)
(** * Request classifier: [extract_cbam_request]                          *)
(* ===================================================================== *)

(** [m.group(n)] of a group that took part in the match. *)
Definition mgroup (n : nat) (m : rmatch_obj) : pystr :=
  match group n (m_groups m) with Some s => s | None => [] end.

Module V2.

(** [\d+(?:\.\d+)?] *)
Definition number : regex :=
  Cat (Re.plus Re.digit)
      (Re.opt (Cat (Re.lit_i 46) (Re.plus Re.digit))).

(** [qty_pat]: group 1 is [\d+(?:,\d{3})*], followed by
    [\s+tons?\s+(?:of\s+)?(\w+)]; [re.IGNORECASE] *)
Definition qty_re : regex :=
  Re.seq
    [ Grp 1 (Cat (Re.plus Re.digit)
                 (Star true (Re.seq [Re.lit_i comma; Re.digit; Re.digit;
                                     Re.digit])));
      Re.plus Re.space;
      Re.str_i (u "ton"); Re.opt (Re.lit_i (chr "s"));
      Re.plus Re.space;
      Re.opt (Cat (Re.str_i (u "of")) (Re.plus Re.space));
      Grp 2 (Re.plus Re.word) ].

(** [(\d+(?:\.\d+)?)\s*tCO2e?(?:/ton)?], [re.IGNORECASE] *)
Definition em_re : regex :=
  Re.seq
    [ Grp 1 number;
      Star true Re.space;
      Re.str_i (u "tCO2"); Re.opt (Re.lit_i (chr "e"));
      Re.opt (Re.str_i (u "/ton")) ].

(** [(?:origin|paid|cost).*?€?(\d+(?:\.\d+)?)], [re.IGNORECASE] *)
Definition origin_re : regex :=
  Re.seq
    [ Alt (Re.str_i (u "origin"))
          (Alt (Re.str_i (u "paid")) (Re.str_i (u "cost")));
      Star false Re.dot;
      Re.opt (Re.str_i (u "€"));
      Grp 1 number ].

Definition extract_cbam_request (text : pystr)
  : option pystr * option N * option f64 * f64 :=
  let qty_pat := re_search qty_re text in
  let em_pat := re_search em_re text in
  let origin_pat := re_search origin_re text in
  let quantity :=
    match qty_pat with
    | Some m => Some (int_of_digits (remove_char comma (mgroup 1 m)))
    | None => None
    end in
  let product :=
    match qty_pat with
    | Some m => Some (lower (mgroup 2 m))
    | None => None
    end in
  let emissions :=
    match em_pat with
    | Some m => Some (F64.of_str (mgroup 1 m))
    | None => None
    end in
  let origin_price :=
    match origin_pat with
    | Some m => F64.of_str (mgroup 1 m)
    | None => F64.zero
    end in
  (product, quantity, emissions, origin_price).

End V2.

Module V1.

(** [(\d+)\s+tons?\s+of\s+(\w+)], [re.IGNORECASE] *)
Definition qty_re : regex :=
  Re.seq
    [ Grp 1 (Re.plus Re.digit);
      Re.plus Re.space;
      Re.str_i (u "ton"); Re.opt (Re.lit_i (chr "s"));
      Re.plus Re.space;
      Re.str_i (u "of");
      Re.plus Re.space;
      Grp 2 (Re.plus Re.word) ].

(** [(\d+(\.\d+)?)], the number with its inner group numbered [g] *)
Definition number (g : nat) : regex :=
  Cat (Re.plus Re.digit)
      (Re.opt (Grp g (Cat (Re.lit_i 46) (Re.plus Re.digit)))).

(** [(\d+(\.\d+)?)\s*tCO2e], [re.IGNORECASE] *)
Definition em_re : regex :=
  Re.seq [ Grp 1 (number 2); Star true Re.space; Re.str_i (u "tCO2e") ].

(** [(?:origin|paid).*?€?(\d+(\.\d+)?)], [re.IGNORECASE] *)
Definition origin_re : regex :=
  Re.seq
    [ Alt (Re.str_i (u "origin")) (Re.str_i (u "paid"));
      Star false Re.dot;
      Re.opt (Re.str_i (u "€"));
      Grp 1 (number 2) ].

Definition extract_cbam_request (question : pystr)
  : option pystr * option N * option f64 * f64 :=
  let match_ := re_search qty_re question in
  let emissions_match := re_search em_re question in
  let origin_price_match := re_search origin_re question in
  let '(quantity, product) :=
    match match_ with
    | Some m => (Some (int_of_digits (mgroup 1 m)), Some (lower (mgroup 2 m)))
    | None => (None, None)
    end in
  let emissions :=
    match emissions_match with
    | Some m => Some (F64.of_str (mgroup 1 m))
    | None => None
    end in
  let origin_price :=
    match origin_price_match with
    | Some m => F64.of_str (mgroup 1 m)
    | None => F64.zero
    end in
  (product, quantity, emissions, origin_price).

End V1.

(* ===================================================================== *)
(** * Configuration constants                                             *)
(* ===================================================================== *)

Definition f (s : string) : f64 := F64.of_str (u s).   (* a float literal *)

Definition NUM_RESULTS : N := 3.
Definition HISTORY_LENGTH : nat := 5.
Definition MIN_REQUEST_INTERVAL : Q := 2.
Definition RETRY_DELAY : Z := 5.
Definition MODEL_NAME : pystr := u "claude-haiku-4-5".

(** A [dict] with string keys, in insertion order. *)
Definition dict (V : Type) := list (pystr * V).

Fixpoint dict_get (V : Type) (d : dict V) (key : pystr) : option V :=
  match d with
  | [] => None
  | (k, v) :: d' => if pystr_eqb k key then Some v else dict_get d' key
  end.

Module Cfg2.

Definition DEFAULT_CARBON_PRICE : f64 := f "78.54".

Definition RECENT_PRICES : dict f64 :=
  [ (u "2025-10-31", f "78.54");
    (u "2025-10-01", f "76.30");
    (u "2025-09-15", f "74.80");
    (u "2025-09-01", f "73.20") ].

Definition DEFAULT_EMISSIONS : dict f64 :=
  [ (u "steel", f "2.3");
    (u "aluminum", f "8.6");
    (u "cement", f "0.9");
    (u "fertilizer", f "1.5");
    (u "electricity", f "0.4");
    (u "glass", f "0.8");
    (u "ceramics", f "0.7");
    (u "hydrogen", f "10.0") ].

End Cfg2.

Module Cfg1.

Definition DEFAULT_CARBON_PRICE : f64 := f "80.0".

Definition DEFAULT_EMISSIONS : dict f64 :=
  [ (u "steel", f "2.3");
    (u "aluminum", f "8.6");
    (u "cement", f "0.9");
    (u "fertilizer", f "1.5");
    (u "electricity", f "0.4") ].

End Cfg1.

(* ===================================================================== *)
(** * Cost calculator: [calculate_cbam_cost]                              *)
(* ===================================================================== *)

(** Both variants read [st.session_state.carbon_price]; it is the argument
    [carbon_price] here.  An omitted [eu_price] is [None]. *)

Module Calc2.

(** [eu_price or st.session_state.carbon_price] *)
Definition eu_price_or (eu_price : option f64) (carbon_price : f64) : f64 :=
  match eu_price with
  | Some x => if F64.truthy x then x else carbon_price
  | None => carbon_price
  end.

Definition calculate_cbam_cost (carbon_price : f64)
           (embedded_emissions origin_price : f64) (eu_price : option f64)
  : f64 :=
  let eu_price := eu_price_or eu_price carbon_price in
  F64.max F64.zero (F64.mul embedded_emissions (F64.sub eu_price origin_price)).

End Calc2.

Module Calc1.

(** The integer [0] that [max(0, cbam_cost)] can return is the float
    zero here. *)
Definition calculate_cbam_cost (carbon_price : f64)
           (embedded_emissions origin_carbon_price : f64)
           (eu_carbon_price : option f64) : f64 :=
  let eu_carbon_price :=
    match eu_carbon_price with
    | None => carbon_price
    | Some x => x
    end in
  let cbam_cost :=
    F64.mul embedded_emissions (F64.sub eu_carbon_price origin_carbon_price) in
  F64.max F64.zero cbam_cost.

End Calc1.

(* ===================================================================== *)
(** * Session state, environment and effects                              *)
(* ===================================================================== *)

Inductive role := user | assistant.

(** The values substituted into the calculation f-string of [main]. *)
Record calc_report := {
  r_prod : pystr; r_qty : N; r_em : f64; r_total_em : f64;
  r_eu_p : f64; r_origin : f64; r_cost : f64 }.

(** Message text: a verbatim string, or the calculation template filled
    with a report. *)
Inductive content :=
| Text (s : pystr)
| Calculation (r : calc_report).

Record message := { msg_role : role; msg_content : content }.

(** The values substituted into the prompt f-string of [build_prompt]. *)
Record prompt := {
  p_ctx : pystr; p_price : f64; p_history : list message;
  p_question : pystr }.

(** [st.session_state] *)
Record session := {
  messages : list message;
  last_request_time : Q;
  carbon_price : f64;
  is_manual_price : bool;
  selected_historic_date : option pystr;
  manual_override_price : option f64;
  initialized : bool }.

(** A non-negative span of time. *)
Record duration := { dur_num : N; dur_den : positive }.
Definition Q_of_duration (d : duration) : Q := Z.of_N (dur_num d) # dur_den d.

(** One row of a search response. *)
Record doc := { text : pystr; file_name : pystr }.

(** What a hosted call does: how long it takes, and whether it returns a
    value or raises (the exception is its message). *)
Record reply (A : Type) := { took : duration; result : A + pystr }.

(** The hosted services.  [llm_svc n] is the behaviour of the [n]-th
    completion request of the session. *)
Record env := {
  search_svc : pystr -> N -> reply (list doc);
  llm_svc : nat -> pystr -> prompt -> reply pystr }.

Inductive event :=
| Slept (d : Q)                                   (* time.sleep(d) *)
| Requested (at_time : Q) (model : pystr) (p : prompt)   (* complete(..) *)
| Searched (query : pystr) (limit : N)            (* svc.search(..) *)
| StError (msg : pystr)
| StWarning (msg : pystr)
| StMarkdown (who : role) (c : content)
| StCaption (msg : pystr)
| PriceWritten (price : f64) (is_manual : bool).  (* write_price_to_stage *)

Record world := {
  st : session;
  clock : Q;
  requests : nat;          (* completion requests issued so far *)
  trace : list event }.

Definition emit (e : event) (w : world) : world :=
  {| st := st w; clock := clock w; requests := requests w;
     trace := trace w ++ [e] |}.

Definition tick (d : Q) (w : world) : world :=
  {| st := st w; clock := clock w + d; requests := requests w;
     trace := trace w |}.

Definition with_st (s : session) (w : world) : world :=
  {| st := s; clock := clock w; requests := requests w; trace := trace w |}.

Definition set_messages (ms : list message) (s : session) : session :=
  {| messages := ms; last_request_time := last_request_time s;
     carbon_price := carbon_price s; is_manual_price := is_manual_price s;
     selected_historic_date := selected_historic_date s;
     manual_override_price := manual_override_price s;
     initialized := initialized s |}.

Definition set_last_request_time (t : Q) (s : session) : session :=
  {| messages := messages s; last_request_time := t;
     carbon_price := carbon_price s; is_manual_price := is_manual_price s;
     selected_historic_date := selected_historic_date s;
     manual_override_price := manual_override_price s;
     initialized := initialized s |}.

Definition set_price (price : f64) (manual : option f64)
           (historic : option pystr) (s : session) : session :=
  {| messages := messages s; last_request_time := last_request_time s;
     carbon_price := price; is_manual_price := is_manual_price s;
     selected_historic_date := historic;
     manual_override_price := manual;
     initialized := initialized s |}.

(** [time.sleep(d)] *)
Definition sleep (d : Q) (w : world) : world := emit (Slept d) (tick d w).

(** [st.session_state.messages.append(..)] *)
Definition append_message (r : role) (c : content) (w : world) : world :=
  with_st (set_messages (messages (st w) ++ [ {| msg_role := r; msg_content := c |} ])
                        (st w)) w.

(* ===================================================================== *)
(** * Context retriever: [cortex_search]                                  *)
(* ===================================================================== *)

Definition CONTEXT_LIMIT : nat := N.to_nat 8000.

Definition search_context (results : list doc) : pystr :=
  firstn CONTEXT_LIMIT
         (remove_char apostrophe (join [newline; newline] (map text results))).

Definition search_source (results : list doc) : pystr :=
  match results with
  | r :: _ => file_name r
  | [] => u "No source"
  end.

Module Retr2.

Definition cortex_search (E : env) (query : pystr) (w : world)
  : (pystr * pystr) * world :=
  let r := search_svc E query NUM_RESULTS in
  let w := tick (Q_of_duration (took r)) (emit (Searched query NUM_RESULTS) w) in
  match result r with
  | inl results => ((search_context results, search_source results), w)
  | inr e => (([], u "Error"), emit (StError (u "Cortex search error: " ++ e)) w)
  end.

End Retr2.

Module Retr1.

(** No handler: an exception of the search call leaves the function. *)
Definition cortex_search (E : env) (my_question : pystr) (w : world)
  : ((pystr * pystr) + pystr) * world :=
  let r := search_svc E my_question NUM_RESULTS in
  let w := tick (Q_of_duration (took r)) (emit (Searched my_question NUM_RESULTS) w) in
  match result r with
  | inl results => (inl (search_context results, search_source results), w)
  | inr e => (inr e, w)
  end.

End Retr1.

(* ===================================================================== *)
(** * Completion client: [llm_complete]                                   *)
(* ===================================================================== *)

(** [complete(model, prompt)]: the request is issued at the current clock
    reading and the clock has advanced when the call comes back. *)
Definition complete (E : env) (model : pystr) (p : prompt) (w : world)
  : (pystr + pystr) * world :=
  let r := llm_svc E (requests w) model p in
  let w := emit (Requested (clock w) model p) w in
  (result r,
   {| st := st w; clock := (clock w + Q_of_duration (took r))%Q;
      requests := S (requests w); trace := trace w |}).

(** [elapsed < MIN_REQUEST_INTERVAL] *)
Definition Qltb (a b : Q) : bool := negb (Qle_bool b a).

(** The throttle in front of the retry loop. *)
Definition throttle (w : world) : world :=
  let now := clock w in
  let elapsed := (now - last_request_time (st w))%Q in
  if Qltb elapsed MIN_REQUEST_INTERVAL
  then sleep (MIN_REQUEST_INTERVAL - elapsed)%Q w
  else w.

(** The loop [for attempt in range(retries)], entered at [attempt] with
    [todo] iterations left.  Running out of iterations is the implicit
    [return None] at the end of the function. *)
Fixpoint attempts (E : env) (model : pystr) (p : prompt) (retries : nat)
         (todo attempt : nat) (w : world) : option pystr * world :=
  match todo with
  | O => (None, w)
  | S todo' =>
    let '(r, w) := complete E model p w in
    match r with
    | inl resp =>
      (Some resp, with_st (set_last_request_time (clock w) (st w)) w)
    | inr e =>
      if (attempt <? retries - 1)%nat
      then attempts E model p retries todo' (S attempt)
             (sleep (inject_Z (RETRY_DELAY * Z.of_nat (attempt + 1))) w)
      else (None, emit (StError (u "LLM request failed: " ++ e)) w)
    end
  end.

Definition llm_complete (E : env) (model : pystr) (p : prompt)
           (retries : nat) (w : world) : option pystr * world :=
  attempts E model p retries retries 0 (throttle w).

(* ===================================================================== *)
(** * Prompt assembly: [get_recent_history], [build_prompt]               *)
(* ===================================================================== *)

(** [xs[a:-1]] *)
Definition slice_to_last (A : Type) (a : nat) (xs : list A) : list A :=
  skipn a (firstn (List.length xs - 1) xs).

(** [xs[-n:]] *)
Definition last_n (A : Type) (n : nat) (xs : list A) : list A :=
  skipn (List.length xs - n) xs.

Definition get_recent_history (s : session) : list message :=
  let start := (List.length (messages s) - HISTORY_LENGTH)%nat in
  slice_to_last start (messages s).

Definition build_prompt (E : env) (user_question : pystr) (w : world)
  : (prompt * pystr) * world :=
  let history := get_recent_history (st w) in
  let hist := last_n 3 history in
  let '((ctx, src), w) := Retr2.cortex_search E user_question w in
  let price := carbon_price (st w) in
  (({| p_ctx := ctx; p_price := price; p_history := hist;
       p_question := user_question |}, src), w).

(* ===================================================================== *)
(** * Orchestrator: one run of [main] with a submitted question           *)
(* ===================================================================== *)

(** [float(n)] for an [int]; [None] is [OverflowError]. *)
Definition float_of_int (n : N) : option f64 :=
  match n with
  | N0 => Some F64.zero
  | Npos p =>
    match binary_round F64.prec F64.emax false p 0 with
    | S754_infinity _ => None
    | x => Some x
    end
  end.

(** How a run of the script ends. *)
Inductive ending := Finished | Raised (e : pystr).

Definition truthy_str (o : option pystr) : bool :=
  match o with Some (_ :: _) => true | _ => false end.

Definition truthy_int (o : option N) : bool :=
  match o with Some (Npos _) => true | _ => false end.

(** The branch [if prod and qty:] with the table lookup: the emission
    factor the fast path will use, if any. *)
Definition fast_path_factor (prod : option pystr) (qty : option N)
           (em : option f64) : option (pystr * N * f64) :=
  match prod, qty with
  | Some p, Some q =>
    if truthy_str prod && truthy_int qty then
      let em := match em with
                | None => dict_get Cfg2.DEFAULT_EMISSIONS p
                | Some x => Some x
                end in
      match em with
      | Some x => Some (p, q, x)
      | None => None
      end
    else None
  | _, _ => None
  end.

Definition slow_path (E : env) (question : pystr) (w : world)
  : ending * world :=
  let '((p, src), w) := build_prompt E question w in
  let '(answer, w) := llm_complete E MODEL_NAME p 2 w in
  match answer with
  | Some (c :: a) =>
    let answer := c :: a in
    let w := emit (StMarkdown assistant (Text answer)) w in
    let w := emit (StCaption (u "Source: " ++ src)) w in
    (Finished, append_message assistant (Text answer) w)
  | _ => (Finished, w)
  end.

Definition main_turn (E : env) (question : pystr) (w : world)
  : ending * world :=
  let w := append_message user (Text question) w in
  let w := emit (StMarkdown user (Text question)) w in
  let '(prod, qty, em, origin) := V2.extract_cbam_request question in
  match fast_path_factor prod qty em with
  | Some (prod, qty, em) =>
    match float_of_int qty with
    | None => (Raised (u "int too large to convert to float"), w)
    | Some fqty =>
      let total_em := F64.mul em fqty in
      let cost :=
        Calc2.calculate_cbam_cost (carbon_price (st w)) total_em origin None in
      let eu_p := carbon_price (st w) in
      let resp := Calculation
        {| r_prod := prod; r_qty := qty; r_em := em; r_total_em := total_em;
           r_eu_p := eu_p; r_origin := origin; r_cost := cost |} in
      let w := append_message assistant resp w in
      (Finished, emit (StMarkdown assistant resp) w)
    end
  | None => slow_path E question w
  end.

(** [main] from the chat input on: [if question := st.chat_input(..):]
    runs the turn for a non-empty submitted string.  ([init_session_state]
    and [render_config_ui], which [main] calls first, are modelled with the
    price controls.) *)
Definition main (E : env) (input : option pystr) (w : world)
  : ending * world :=
  match input with
  | Some (c :: q) => main_turn E (c :: q) w
  | _ => (Finished, w)
  end.

(* ===================================================================== *)
(** * Carbon-price controls: [init_session_state], [render_config_ui]     *)
(* ===================================================================== *)

(** The defaults of [init_session_state], after its first-load block. *)
Definition init_session_state : session :=
  {| messages := [];
     last_request_time := 0;
     carbon_price := Cfg2.DEFAULT_CARBON_PRICE;
     is_manual_price := false;
     selected_historic_date := None;
     manual_override_price := None;
     initialized := true |}.

Definition is_some (A : Type) (o : option A) : bool :=
  match o with Some _ => true | None => false end.

(** The Reset button is rendered only while an override is active. *)
Definition reset_shown (s : session) : bool :=
  is_some (manual_override_price s) || is_some (selected_historic_date s).

(** [disabled = st.session_state.selected_historic_date is not None] *)
Definition manual_disabled (s : session) : bool :=
  is_some (selected_historic_date s).

(** What the user can do in one run of the controls. *)
Inductive click :=
| ClickReset
| ClickClearChat
| ClickHistoric (date : pystr)
| ClickUpdatePrice (new_price : f64).

(** One run of [render_config_ui] in which the user clicked [c].  A control
    that is not rendered or is disabled cannot fire. *)
Definition render_config_ui (c : click) (w : world) : world :=
  let s := st w in
  match c with
  | ClickReset =>
    if reset_shown s then
      emit (PriceWritten Cfg2.DEFAULT_CARBON_PRICE false)
           (with_st (set_price Cfg2.DEFAULT_CARBON_PRICE None None s) w)
    else w
  | ClickClearChat => with_st (set_messages [] s) w
  | ClickHistoric date =>
    match dict_get Cfg2.RECENT_PRICES date with
    | Some price =>
      emit (PriceWritten price false)
           (with_st (set_price price None (Some date) s) w)
    | None => w
    end
  | ClickUpdatePrice new_price =>
    if manual_disabled s then w
    else if F64.ltb F64.zero new_price then
      emit (PriceWritten new_price true)
           (with_st (set_price new_price (Some new_price) None s) w)
    else emit (StWarning (u "Price must be > 0")) w
  end.

(** The session states a session can be in: the initial one, and those
    that a click or a chat turn leads to. *)
Inductive reachable : session -> Prop :=
| reach_init : reachable init_session_state
| reach_click (c : click) (w : world) :
    reachable (st w) -> reachable (st (render_config_ui c w))
| reach_turn (E : env) (input : option pystr) (w : world) :
    reachable (st w) -> reachable (st (snd (main E input w))).

(** The mutual exclusion of the two overrides. *)
Definition exclusive (s : session) : Prop :=
  ~ (manual_override_price s <> None /\ selected_historic_date s <> None).

(* ===================================================================== *)
(** * What a pattern matches                                              *)
(* ===================================================================== *)

(** [matchc r s c c']: the string [s] belongs to the language of [r], and
    matching it turns the captures [c] into [c'].  A starred body matches
    non-empty pieces. *)
Inductive matchc : regex -> pystr -> caps -> caps -> Prop :=
| mc_eps c : matchc Eps [] c c
| mc_cls p x c : p x = true -> matchc (Cls p) [x] c c
| mc_cat r1 r2 s1 s2 c c1 c2 :
    matchc r1 s1 c c1 -> matchc r2 s2 c1 c2 ->
    matchc (Cat r1 r2) (s1 ++ s2) c c2
| mc_alt_l r1 r2 s c c' : matchc r1 s c c' -> matchc (Alt r1 r2) s c c'
| mc_alt_r r1 r2 s c c' : matchc r2 s c c' -> matchc (Alt r1 r2) s c c'
| mc_star_nil g r c : matchc (Star g r) [] c c
| mc_star_cons g r s1 s2 c c1 c2 :
    s1 <> [] -> matchc r s1 c c1 -> matchc (Star g r) s2 c1 c2 ->
    matchc (Star g r) (s1 ++ s2) c c2
| mc_grp n r s c c' : matchc r s c c' -> matchc (Grp n r) s c ((n, s) :: c').

(** [matches r s]: [s] belongs to the language of [r]. *)
Definition matches (r : regex) (s : pystr) : Prop :=
  exists c c', matchc r s c c'.

(** [occurs_at r text i]: some substring of [text] that starts at offset
    [i] belongs to the language of [r]. *)
Definition occurs_at (r : regex) (text : pystr) (i : nat) : Prop :=
  exists pre mid post,
    text = pre ++ mid ++ post /\ List.length pre = i /\ matches r mid.

(** [first_match r text pre mid post gs]: [mid] is a match of [r] in
    [text] with groups [gs], and no match starts further left. *)
Definition first_match (r : regex) (text pre mid post : pystr) (gs : caps)
  : Prop :=
  text = pre ++ mid ++ post /\
  matchc r mid [] gs /\
  forall j, occurs_at r text j -> (List.length pre <= j)%nat.

Definition no_match (r : regex) (text : pystr) : Prop :=
  forall j, ~ occurs_at r text j.

(** A successful run of the matcher consumed a string of the language. *)
Definition sound_at (A : Type) (r : regex) : Prop :=
  forall s c (k : cont A) a,
    rmatch r s c k = Some a ->
    exists s1 s2 c', s = s1 ++ s2 /\ matchc r s1 c c' /\ k s2 c' = Some a.

(** The matcher finds a match whenever one exists. *)
Definition complete_at (A : Type) (r : regex) : Prop :=
  forall s1 c0 c0', matchc r s1 c0 c0' ->
  forall s2 (k : cont A) c,
    (forall c', k s2 c' <> None) ->
    rmatch r (s1 ++ s2) c k <> None.

(* ===================================================================== *)
(** * Vocabulary of the properties                                        *)
(* ===================================================================== *)

(** Strings made of characters of one class. *)
Definition all_of (p : N -> bool) (s : pystr) : Prop := forallb p s = true.
Definition some_of (p : N -> bool) (s : pystr) : Prop := s <> [] /\ all_of p s.

(** Equality up to letter case, as [re.IGNORECASE] compares literals. *)
Definition ci_eq (a b : pystr) : Prop := lower a = lower b.

(** Groups of a comma and three digits: [(?:,\d{3})*] *)
Inductive thousands : pystr -> Prop :=
| th_nil : thousands []
| th_cons a b c rest :
    is_digit a = true -> is_digit b = true -> is_digit c = true ->
    thousands rest -> thousands (comma :: a :: b :: c :: rest).

(** An integer with optional thousands separators: [\d+(?:,\d{3})*] *)
Definition sep_integer (s : pystr) : Prop :=
  exists d t, s = d ++ t /\ some_of is_digit d /\ thousands t.

(** A number: [\d+(?:\.\d+)?] *)
Definition numeral (s : pystr) : Prop :=
  exists ip, some_of is_digit ip /\
    (s = ip \/ exists fp, some_of is_digit fp /\ s = ip ++ 46 :: fp).

(** [tons?] *)
Definition ton_word (s : pystr) : Prop :=
  ci_eq s (u "ton") \/ ci_eq s (u "tons").

(** [(?:of\s+)?] *)
Definition of_word (s : pystr) : Prop :=
  s = [] \/ exists o ws, s = o ++ ws /\ ci_eq o (u "of") /\ some_of is_space ws.

(** "<integer with optional thousands separators> ton(s) [of] <word>",
    with the integer [g1] and the word [g2]. *)
Definition qty_shape (g1 g2 mid : pystr) : Prop :=
  exists ws1 t ws2 o,
    mid = g1 ++ ws1 ++ t ++ ws2 ++ o ++ g2 /\
    sep_integer g1 /\ some_of is_space ws1 /\ ton_word t /\
    some_of is_space ws2 /\ of_word o /\ some_of is_word g2.

(** [tCO2e?(?:/ton)?] *)
Definition em_unit (s : pystr) : Prop :=
  exists t e p,
    s = t ++ e ++ p /\ ci_eq t (u "tCO2") /\
    (e = [] \/ ci_eq e (u "e")) /\ (p = [] \/ ci_eq p (u "/ton")).

(** "<number> tCO2[e][/ton]", with the number [g1]. *)
Definition em_shape (g1 mid : pystr) : Prop :=
  exists ws unit,
    mid = g1 ++ ws ++ unit /\
    numeral g1 /\ all_of is_space ws /\ em_unit unit.

(** [origin|paid|cost] *)
Definition keyword (s : pystr) : Prop :=
  ci_eq s (u "origin") \/ ci_eq s (u "paid") \/ ci_eq s (u "cost").

Definition not_newline (c : N) : bool := negb (c =? newline).

(** "origin|paid|cost", text of the same line, an optional euro sign and
    the number [g1]. *)
Definition origin_shape (g1 mid : pystr) : Prop :=
  exists kw gap eur,
    mid = kw ++ gap ++ eur ++ g1 /\
    keyword kw /\ all_of not_newline gap /\
    (eur = [] \/ eur = u "€") /\ numeral g1.

Definition first_occurrence (L : pystr -> Prop) (text pre mid post : pystr)
  : Prop :=
  text = pre ++ mid ++ post /\ L mid /\
  forall pre' mid' post',
    text = pre' ++ mid' ++ post' -> L mid' ->
    (List.length pre <= List.length pre')%nat.

Definition nowhere (L : pystr -> Prop) (text : pystr) : Prop :=
  forall pre mid post, text = pre ++ mid ++ post -> ~ L mid.

Definition qty_like (mid : pystr) : Prop := exists g1 g2, qty_shape g1 g2 mid.
Definition em_like (mid : pystr) : Prop := exists g1, em_shape g1 mid.
Definition origin_like (mid : pystr) : Prop := exists g1, origin_shape g1 mid.

(** The classifier as the claim words its patterns: the unit of the
    declared emissions is "tCO2e" with an optional "/ton", and the text
    between the keyword and the origin price is arbitrary. *)
Module Claimed.

Definition em_re : regex :=
  Re.seq
    [ Grp 1 V2.number;
      Star true Re.space;
      Re.str_i (u "tCO2e");
      Re.opt (Re.str_i (u "/ton")) ].

Definition origin_re : regex :=
  Re.seq
    [ Alt (Re.str_i (u "origin"))
          (Alt (Re.str_i (u "paid")) (Re.str_i (u "cost")));
      Star false (Cls (fun _ => true));
      Re.opt (Re.str_i (u "€"));
      Grp 1 V2.number ].

Definition classify (text : pystr)
  : option pystr * option N * option f64 * f64 :=
  let q := re_search V2.qty_re text in
  (match q with Some m => Some (lower (mgroup 2 m)) | None => None end,
   match q with
   | Some m => Some (int_of_digits (remove_char comma (mgroup 1 m)))
   | None => None
   end,
   match re_search em_re text with
   | Some m => Some (F64.of_str (mgroup 1 m))
   | None => None
   end,
   match re_search origin_re text with
   | Some m => F64.of_str (mgroup 1 m)
   | None => F64.zero
   end).

End Claimed.

Definition is_request (e : event) : bool :=
  match e with Requested _ _ _ => true | _ => false end.

(** How many completion requests a trace holds. *)
Definition requests_in (evs : list event) : nat :=
  List.length (filter is_request evs).

(** The waits of a trace, in order. *)
Fixpoint sleeps (evs : list event) : list Q :=
  match evs with
  | [] => []
  | Slept d :: evs' => d :: sleeps evs'
  | _ :: evs' => sleeps evs'
  end.

(** The error messages shown to the user, in order. *)
Fixpoint errors (evs : list event) : list pystr :=
  match evs with
  | [] => []
  | StError msg :: evs' => msg :: errors evs'
  | _ :: evs' => errors evs'
  end.

(** The wait after the failed attempt number [k] (counted from 1). *)
Definition backoff (k : nat) : Q := inject_Z (RETRY_DELAY * Z.of_nat k).

(** Search and completion requests: the calls that leave the process. *)
Definition calls_out (e : event) : bool :=
  match e with
  | Searched _ _ | Requested _ _ _ => true
  | _ => false
  end.

Definition quiet (evs : list event) : Prop :=
  forallb (fun e => negb (calls_out e)) evs = true.

(** The price fields of two session states agree. *)
Definition same_prices (s s' : session) : Prop :=
  carbon_price s' = carbon_price s /\
  manual_override_price s' = manual_override_price s /\
  selected_historic_date s' = selected_historic_date s.

(** Two session states differ at most in the throttle marker. *)
Definition same_but_marker (s s' : session) : Prop :=
  set_last_request_time (last_request_time s) s' = s.

(** A test double for the hosted services: the search finds nothing, every
    completion request gets [answer]; neither takes any time. *)
Definition no_time : duration := {| dur_num := 0; dur_den := 1 |}.

Definition stub_env (answer : pystr + pystr) : env :=
  {| search_svc := fun _ _ => {| took := no_time; result := inl [] |};
     llm_svc := fun _ _ _ => {| took := no_time; result := answer |} |}.

(** A session that has just been initialised, at clock reading 1000. *)
Definition fresh_world : world :=
  {| st := init_session_state; clock := 1000; requests := 0; trace := [] |}.

Definition user_message (question : pystr) : message :=
  {| msg_role := user; msg_content := Text question |}.

(** [stops p rest]: [rest] does not begin with a character of class [p]. *)
Definition stops (p : N -> bool) (rest : pystr) : Prop :=
  match rest with
  | [] => True
  | x :: _ => p x = false
  end.

(** [fails_at r s]: no run of the matcher on [s] gets through [r]. *)
Definition fails_at (r : regex) (s : pystr) : Prop :=
  forall (A : Type) (k : cont A) c, rmatch r s c k = None.

(** [s] begins with [lit], up to letter case. *)
Fixpoint starts_with_ci (lit s : pystr) : bool :=
  match lit, s with
  | [], _ => true
  | l :: lit', x :: s' =>
    (lower_char x =? lower_char l) && starts_with_ci lit' s'
  | _ :: _, [] => false
  end.

(** The suffixes of a string. *)
Fixpoint tails (s : pystr) : list pystr :=
  match s with
  | [] => [[]]
  | _ :: s' => s :: tails s'
  end.

(** [lit] occurs somewhere in [s], up to letter case. *)
Definition contains_ci (lit s : pystr) : bool :=
  existsb (starts_with_ci lit) (tails s).

(** The characters of a decimal numeral. *)
Fixpoint chars_of_uint (d : Decimal.uint) : pystr :=
  match d with
  | Decimal.Nil => []
  | Decimal.D0 d => 48 :: chars_of_uint d
  | Decimal.D1 d => 49 :: chars_of_uint d
  | Decimal.D2 d => 50 :: chars_of_uint d
  | Decimal.D3 d => 51 :: chars_of_uint d
  | Decimal.D4 d => 52 :: chars_of_uint d
  | Decimal.D5 d => 53 :: chars_of_uint d
  | Decimal.D6 d => 54 :: chars_of_uint d
  | Decimal.D7 d => 55 :: chars_of_uint d
  | Decimal.D8 d => 56 :: chars_of_uint d
  | Decimal.D9 d => 57 :: chars_of_uint d
  end.

(** [str(n)] for a non-negative [int] *)
Definition str_of_int (n : N) : pystr := chars_of_uint (N.to_uint n).

(** A decimal literal: the integer part and the digits after the point
    (none: no point is written). *)
Record decimal_lit := { lit_int : N; lit_frac : Decimal.uint }.

Definition render_lit (x : decimal_lit) : pystr :=
  str_of_int (lit_int x) ++
  match lit_frac x with
  | Decimal.Nil => []
  | fr => 46 :: chars_of_uint fr
  end.

(** The float a literal denotes: its value rounded to nearest. *)
Definition lit_value (x : decimal_lit) : f64 :=
  F64.of_decimal (str_of_int (lit_int x)) (chars_of_uint (lit_frac x)).

(** Modelled from the spec: the source has no function that renders a
    request back to text; the normalized text follows the specification's
    example "120 tons of steel, 2.3 tCO2e, origin €10", assembled from
    the four substrings it is made of. *)
Definition normalized_text (quantity product emissions origin : pystr)
  : pystr :=
  quantity ++ u " tons of " ++ product ++ u ", "
  ++ emissions ++ u " tCO2e, origin €" ++ origin.

(** Modelled from the spec: the normalized form of a fully populated
    request, the numbers written as decimal literals. *)
Definition render_request (product : pystr) (quantity : N)
           (emissions origin : decimal_lit) : pystr :=
  normalized_text (str_of_int quantity) product
                  (render_lit emissions) (render_lit origin).

(** A product name made of lower-case letters in which none of the
    origin-price keywords occurs. *)
Definition plain_product (p : pystr) : bool :=
  match p with [] => false | _ :: _ => true end
  && forallb is_lower p
  && negb (contains_ci (u "origin") p)
  && negb (contains_ci (u "paid") p)
  && negb (contains_ci (u "cost") p).

(** The end of a number: neither a digit nor a decimal point follows. *)
Definition ends_number (rest : pystr) : Prop :=
  stops (fun c => is_digit c || (c =? 46)) rest.

(** The digits and the optional fraction of a number. *)
Definition fraction (fr : pystr) : Prop :=
  fr = [] \/ exists fp, fr = 46 :: fp /\ some_of is_digit fp.

(** A character that is none of o, p, c (in either case) starts no
    keyword. *)
Definition starts_keyword (x : N) : bool :=
  (lower_char x =? 111) || (lower_char x =? 112) || (lower_char x =? 99).

(** [finds r s gs]: a search of [s] for [r], from any offset, succeeds
    with the groups [gs]. *)
Definition finds (r : regex) (s : pystr) (gs : caps) : Prop :=
  forall i, exists m, search_from r i s = Some m /\ m_groups m = gs.

(** Not greater than zero: a zero, a NaN, or a negative number. *)
Definition nonpos (x : f64) : Prop :=
  match x with
  | S754_zero _ | S754_nan => True
  | S754_infinity s | S754_finite s _ _ => s = true
  end.

(** Of sign [sx], unless a NaN. *)
Definition signed (sx : bool) (x : f64) : Prop :=
  match x with
  | S754_nan => True
  | S754_zero s | S754_infinity s | S754_finite s _ _ => s = sx
  end.

(* ===================================================================== *)
(** * The price controls, seen by the user                                *)
(* ===================================================================== *)

(** The status caption under the price metric of [render_config_ui]. *)
Inductive price_status :=
| ManualActive (price : f64)
| HistoricActive (date : pystr) (hp : f64)
| DefaultActive.

(** Which caption is written; [None] is the [KeyError] of
    [RECENT_PRICES[st.session_state.selected_historic_date]]. *)
Definition status_caption (s : session) : option price_status :=
  match manual_override_price s with
  | Some p => Some (ManualActive p)
  | None =>
    match selected_historic_date s with
    | Some date =>
      match dict_get Cfg2.RECENT_PRICES date with
      | Some hp => Some (HistoricActive date hp)
      | None => None
      end
    | None => Some DefaultActive
    end
  end.

(** The price a caption announces. *)
Definition announced_price (c : price_status) : f64 :=
  match c with
  | ManualActive p => p
  | HistoricActive _ hp => hp
  | DefaultActive => Cfg2.DEFAULT_CARBON_PRICE
  end.

(** The values [st.number_input(.., min_value=0.0, max_value=500.0, ..)]
    can return. *)
Definition MANUAL_PRICE_MAX : f64 := f "500.0".

Definition in_widget_range (x : f64) : bool :=
  F64.valid x && F64.leb F64.zero x && F64.leb x MANUAL_PRICE_MAX.

Definition click_in_range (c : click) : bool :=
  match c with
  | ClickUpdatePrice new_price => in_widget_range new_price
  | _ => true
  end.

(** The session states of the running application: every manual entry
    comes out of the number input. *)
Inductive app_state : session -> Prop :=
| app_init : app_state init_session_state
| app_click (c : click) (w : world) :
    app_state (st w) -> click_in_range c = true ->
    app_state (st (render_config_ui c w))
| app_turn (E : env) (input : option pystr) (w : world) :
    app_state (st w) -> app_state (st (snd (main E input w))).

(** What a session state owes to an earlier one when only the
    conversation and the throttle marker were written. *)
Definition conversation_grew (s s' : session) (tail : list message) : Prop :=
  exists t,
    s' = set_messages (messages s ++ tail) (set_last_request_time t s).

(* ===================================================================== *)
(** * Session-state initialisation on the dictionary                      *)
(* ===================================================================== *)

Module Startup.

(** [st.session_state] as the dictionary it is at the start of a run: a
    key may be absent. *)
Record state_dict := {
  k_messages : option (list message);
  k_last_request_time : option Q;
  k_carbon_price : option f64;
  k_is_manual_price : option bool;
  k_selected_historic_date : option (option pystr);
  k_manual_override_price : option (option f64);
  k_initialized : option bool }.

(** The calls of the first-load block. *)
Inductive call :=
| WritePriceToStage (carbon_price : f64) (is_manual : bool)
| ReindexDocuments.

(** [if k not in st.session_state: st.session_state[k] = v] *)
Definition setdefault (A : Type) (v : A) (o : option A) : option A :=
  match o with
  | Some x => Some x
  | None => Some v
  end.

Definition with_defaults (d : state_dict) : state_dict :=
  {| k_messages := setdefault [] (k_messages d);
     k_last_request_time := setdefault 0%Q (k_last_request_time d);
     k_carbon_price := setdefault Cfg2.DEFAULT_CARBON_PRICE (k_carbon_price d);
     k_is_manual_price := setdefault false (k_is_manual_price d);
     k_selected_historic_date := setdefault None (k_selected_historic_date d);
     k_manual_override_price := setdefault None (k_manual_override_price d);
     k_initialized := setdefault false (k_initialized d) |}.

Definition set_initialized (d : state_dict) : state_dict :=
  {| k_messages := k_messages d;
     k_last_request_time := k_last_request_time d;
     k_carbon_price := k_carbon_price d;
     k_is_manual_price := k_is_manual_price d;
     k_selected_historic_date := k_selected_historic_date d;
     k_manual_override_price := k_manual_override_price d;
     k_initialized := Some true |}.

(** [init_session_state()]: the state it leaves and the calls it made. *)
Definition init_session_state (d : state_dict) : state_dict * list call :=
  let d := with_defaults d in
  match k_initialized d with
  | Some true => (d, [])
  | _ =>
    (set_initialized d,
     [WritePriceToStage Cfg2.DEFAULT_CARBON_PRICE false; ReindexDocuments])
  end.

(** A new browser session: no key is set. *)
Definition empty : state_dict :=
  {| k_messages := None; k_last_request_time := None;
     k_carbon_price := None; k_is_manual_price := None;
     k_selected_historic_date := None; k_manual_override_price := None;
     k_initialized := None |}.

(** The dictionary that holds every key of a session state. *)
Definition of_session (s : session) : state_dict :=
  {| k_messages := Some (messages s);
     k_last_request_time := Some (last_request_time s);
     k_carbon_price := Some (carbon_price s);
     k_is_manual_price := Some (is_manual_price s);
     k_selected_historic_date := Some (selected_historic_date s);
     k_manual_override_price := Some (manual_override_price s);
     k_initialized := Some (initialized s) |}.

End Startup.

(** [o] keeps the value of a key that was set. *)
Definition kept (A : Type) (before after : option A) : Prop :=
  forall x, before = Some x -> after = Some x.

(* ===================================================================== *)
(** * Further vocabulary                                                  *)
(* ===================================================================== *)

(** A completion request of the trace, if [e] is one, is for [model] with
    the prompt [p]. *)
Definition carries (model : pystr) (p : prompt) (e : event) : Prop :=
  match e with
  | Requested _ model' p' => model' = model /\ p' = p
  | _ => True
  end.

(** The context [cortex_search] hands to the prompt. *)
Definition context_of (r : reply (list doc)) : pystr :=
  match result r with
  | inl results => search_context results
  | inr _ => []
  end.

(** Zero or greater, and not a NaN. *)
Definition nonneg (x : f64) : Prop := F64.leb F64.zero x = true.

(** Commas between groups of three digits, on the digits written from the
    right. *)
Fixpoint commas_rev (ds : pystr) : pystr :=
  match ds with
  | a :: b :: c :: ((_ :: _) as rest) =>
    a :: b :: c :: comma :: commas_rev rest
  | _ => ds
  end.

(** [f"{n:,}"] for a non-negative [int], as [main] prints a quantity. *)
Definition format_thousands (n : N) : pystr :=
  rev (commas_rev (rev (str_of_int n))).

(** A digit or a comma. *)
Definition is_digit_or_comma (c : N) : bool := is_digit c || (c =? comma).

(** [(?:,\d{3})] *)
Definition sep_group : regex :=
  Re.seq [Re.lit_i comma; Re.digit; Re.digit; Re.digit].

(** The time a trace spends asleep. *)
Definition time_asleep (evs : list event) : Q :=
  fold_right Qplus 0%Q (sleeps evs).

(** The throttle marker is not in the future. *)
Definition marker_in_past (w : world) : Prop :=
  (last_request_time (st w) <= clock w)%Q.

(** "<integer> ton(s) of <word>", with the integer [g1] and the word
    [g2]: the quantity shape of the first variant. *)
Definition qty1_shape (g1 g2 mid : pystr) : Prop :=
  exists ws1 t ws2 o ws3,
    mid = g1 ++ ws1 ++ t ++ ws2 ++ o ++ ws3 ++ g2 /\
    some_of is_digit g1 /\ some_of is_space ws1 /\ ton_word t /\
    some_of is_space ws2 /\ ci_eq o (u "of") /\ some_of is_space ws3 /\
    some_of is_word g2.

(** "<number> tCO2e", with the number [g1]. *)
Definition em1_shape (g1 mid : pystr) : Prop :=
  exists ws unit,
    mid = g1 ++ ws ++ unit /\
    numeral g1 /\ all_of is_space ws /\ ci_eq unit (u "tCO2e").

(** [origin|paid] *)
Definition keyword1 (s : pystr) : Prop :=
  ci_eq s (u "origin") \/ ci_eq s (u "paid").

(** "origin|paid", text of the same line, an optional euro sign and the
    number [g1]. *)
Definition origin1_shape (g1 mid : pystr) : Prop :=
  exists kw gap eur,
    mid = kw ++ gap ++ eur ++ g1 /\
    keyword1 kw /\ all_of not_newline gap /\
    (eur = [] \/ eur = u "€") /\ numeral g1.

Definition qty1_like (mid : pystr) : Prop := exists g1 g2, qty1_shape g1 g2 mid.
Definition em1_like (mid : pystr) : Prop := exists g1, em1_shape g1 mid.
Definition origin1_like (mid : pystr) : Prop := exists g1, origin1_shape g1 mid.

(** A product name made of lower-case letters in which neither of the
    first variant's origin-price keywords occurs. *)
Definition plain_product_v1 (p : pystr) : bool :=
  match p with [] => false | _ :: _ => true end
  && forallb is_lower p
  && negb (contains_ci (u "origin") p)
  && negb (contains_ci (u "paid") p).

(** The capture of the inner group of [(\d+(\.\d+)?)]: the fraction, when
    there is one. *)
Definition fraction_caps (g : nat) (fr : pystr) : caps :=
  match fr with
  | [] => []
  | _ :: _ => [(g, fr)]
  end.

Module Live.

(** [[^>]] *)
Definition not_gt (c : N) : bool := negb (c =? 62).

(** [\d+\.\d+] *)
Definition decimal : regex :=
  Re.seq [Re.plus Re.digit; Re.lit 46; Re.plus Re.digit].

(** The pattern of [fetch_live_carbon_price]: "<td", [[^>]*],
    ">EU Carbon Permits</td>", [\s*], "<td", [[^>]*], ">" and the group
    [(\d+\.\d+)]; no flag, so the literals are case-sensitive. *)
Definition price_re : regex :=
  Re.seq [ Re.str (u "<td"); Star true (Cls not_gt);
           Re.str (u ">EU Carbon Permits</td>");
           Star true Re.space;
           Re.str (u "<td"); Star true (Cls not_gt); Re.lit 62;
           Grp 1 decimal ].

(** [fetch_live_carbon_price()] of the first variant.  [page] is what
    [requests.get(url, timeout=5)] followed by [response.text] does:
    how long it takes, and the page or the exception. *)
Definition fetch_live_carbon_price (page : reply pystr) (w : world)
  : f64 * world :=
  let w := tick (Q_of_duration (took page)) w in
  match result page with
  | inl text =>
    match re_search price_re text with
    | Some m => (F64.of_str (mgroup 1 m), w)
    | None => (Cfg1.DEFAULT_CARBON_PRICE, w)
    end
  | inr e =>
    (Cfg1.DEFAULT_CARBON_PRICE,
     emit (StWarning (u "⚠️ Could not fetch live carbon price: " ++ e)) w)
  end.

End Live.

(** The table cell the live price is read from: the cell that holds
    "EU Carbon Permits", white space, and the opening of the next cell up
    to a number [ip.fp]. *)
Definition price_cell (ip fp cell : pystr) : Prop :=
  exists a1 ws a2,
    cell = u "<td" ++ a1 ++ u ">EU Carbon Permits</td>" ++ ws
           ++ u "<td" ++ a2 ++ [62] ++ ip ++ [46] ++ fp /\
    all_of Live.not_gt a1 /\ all_of is_space ws /\ all_of Live.not_gt a2 /\
    some_of is_digit ip /\ some_of is_digit fp.

Definition price_cell_like (cell : pystr) : Prop :=
  exists ip fp, price_cell ip fp cell.

(** The first variant's script from the chat input on: [main],
    [create_prompt], [get_chat_history], [cortex_search] and
    [complete_with_retry], with the state and the effects they touch. *)
Module App1.

(** The values substituted into the estimate f-string of [main]. *)
Record calc_report := {
  r_cbam_cost : f64; r_quantity : N; r_product : pystr;
  r_emissions : f64; r_origin_price : f64 }.

Inductive content :=
| Text (s : pystr)
| Estimate (r : calc_report).

Record message := { msg_role : role; msg_content : content }.

(** The values substituted into the prompt f-string of [create_prompt]. *)
Record prompt := {
  p_context : pystr; p_history : list message; p_question : pystr }.

(** [st.session_state]; [num_chat_messages] is assigned [history_length]
    by [init_config_options] on every run before it is read, and is that
    constant here. *)
Record session := {
  messages : list message;
  last_request_time : Q;
  carbon_price : f64 }.

Record env := {
  search_svc : pystr -> N -> reply (list doc);
  llm_svc : nat -> pystr -> prompt -> reply pystr }.

Inductive event :=
| Slept (d : Q)
| Requested (at_time : Q) (model : pystr) (p : prompt)
| Searched (query : pystr) (limit : N)
| StError (msg : pystr)
| StMarkdown (who : role) (c : content)
| StCaption (msg : pystr).

Record world := {
  st : session;
  clock : Q;
  requests : nat;
  trace : list event }.

Definition emit (e : event) (w : world) : world :=
  {| st := st w; clock := clock w; requests := requests w;
     trace := trace w ++ [e] |}.

Definition tick (d : Q) (w : world) : world :=
  {| st := st w; clock := clock w + d; requests := requests w;
     trace := trace w |}.

Definition with_st (s : session) (w : world) : world :=
  {| st := s; clock := clock w; requests := requests w; trace := trace w |}.

Definition sleep (d : Q) (w : world) : world := emit (Slept d) (tick d w).

Definition append_message (r : role) (c : content) (w : world) : world :=
  with_st {| messages := messages (st w)
                         ++ [ {| msg_role := r; msg_content := c |} ];
             last_request_time := last_request_time (st w);
             carbon_price := carbon_price (st w) |} w.

(** [cortex_search]: no handler, an exception of the search call leaves
    the function. *)
Definition cortex_search (E : env) (my_question : pystr) (w : world)
  : ((pystr * pystr) + pystr) * world :=
  let r := search_svc E my_question NUM_RESULTS in
  let w := tick (Q_of_duration (took r))
                (emit (Searched my_question NUM_RESULTS) w) in
  match result r with
  | inl results => (inl (search_context results, search_source results), w)
  | inr e => (inr e, w)
  end.

Definition get_chat_history (s : session) : list message :=
  let start_index := (List.length (messages s) - HISTORY_LENGTH)%nat in
  skipn start_index (firstn (List.length (messages s) - 1) (messages s)).

Definition create_prompt (E : env) (user_question : pystr) (w : world)
  : ((prompt * pystr) + pystr) * world :=
  let chat_history := get_chat_history (st w) in
  let history := last_n 3 chat_history in
  match cortex_search E user_question w with
  | (inl (prompt_context, file_name), w) =>
    (inl ({| p_context := prompt_context; p_history := history;
             p_question := user_question |}, file_name), w)
  | (inr e, w) => (inr e, w)
  end.

Definition complete (E : env) (model : pystr) (p : prompt) (w : world)
  : (pystr + pystr) * world :=
  let r := llm_svc E (requests w) model p in
  let w := emit (Requested (clock w) model p) w in
  (result r,
   {| st := st w; clock := (clock w + Q_of_duration (took r))%Q;
      requests := S (requests w); trace := trace w |}).

Definition throttle (w : world) : world :=
  let now := clock w in
  if Qltb (now - last_request_time (st w)) MIN_REQUEST_INTERVAL
  then sleep (MIN_REQUEST_INTERVAL - (now - last_request_time (st w)))%Q w
  else w.

Fixpoint attempts (E : env) (model : pystr) (p : prompt) (retries : nat)
         (todo attempt : nat) (w : world) : option pystr * world :=
  match todo with
  | O => (None, w)
  | S todo' =>
    let '(r, w) := complete E model p w in
    match r with
    | inl response =>
      (Some response,
       with_st {| messages := messages (st w);
                  last_request_time := clock w;
                  carbon_price := carbon_price (st w) |} w)
    | inr e =>
      if (attempt <? retries - 1)%nat
      then attempts E model p retries todo' (S attempt)
             (sleep (inject_Z (RETRY_DELAY * Z.of_nat (attempt + 1))) w)
      else (None, emit (StError (u "❌ Request failed: " ++ e)) w)
    end
  end.

Definition complete_with_retry (E : env) (model : pystr) (p : prompt)
           (retries : nat) (w : world) : option pystr * world :=
  attempts E model p retries retries 0 (throttle w).

(** The emission factor the estimate will use, if any: the branch
    [if product and quantity:] with the table lookup. *)
Definition estimate_factor (product : option pystr) (quantity : option N)
           (emissions : option f64) : option (pystr * N * f64) :=
  match product, quantity with
  | Some p, Some q =>
    if truthy_str product && truthy_int quantity then
      let emissions := match emissions with
                       | None => dict_get Cfg1.DEFAULT_EMISSIONS p
                       | Some x => Some x
                       end in
      match emissions with
      | Some x => Some (p, q, x)
      | None => None
      end
    else None
  | _, _ => None
  end.

Definition main_turn (E : env) (question : pystr) (w : world)
  : ending * world :=
  let w := append_message user (Text question) w in
  let w := emit (StMarkdown user (Text question)) w in
  let '(product, quantity, emissions, origin_price) :=
    V1.extract_cbam_request question in
  match estimate_factor product quantity emissions with
  | Some (product, quantity, emissions) =>
    match float_of_int quantity with
    | None => (Raised (u "int too large to convert to float"), w)
    | Some fq =>
      let total_emissions := F64.mul emissions fq in
      let cbam_cost :=
        Calc1.calculate_cbam_cost (carbon_price (st w)) total_emissions
                                  origin_price None in
      let response_text := Estimate
        {| r_cbam_cost := cbam_cost; r_quantity := quantity;
           r_product := product; r_emissions := emissions;
           r_origin_price := origin_price |} in
      let w := append_message assistant response_text w in
      (Finished, emit (StMarkdown assistant response_text) w)
    end
  | None =>
    match create_prompt E question w with
    | (inr e, w) => (Raised e, w)
    | (inl (p, file_name), w) =>
      let '(response, w) := complete_with_retry E MODEL_NAME p 2 w in
      match response with
      | Some (c :: r) =>
        let response := c :: r in
        let w := emit (StMarkdown assistant (Text response)) w in
        let w := emit (StCaption (u "📄 Source: " ++ file_name)) w in
        (Finished, append_message assistant (Text response) w)
      | _ => (Finished, w)
      end
    end
  end.

(** [main] from the chat input on. *)
Definition main (E : env) (input : option pystr) (w : world)
  : ending * world :=
  match input with
  | Some (c :: q) => main_turn E (c :: q) w
  | _ => (Finished, w)
  end.

Definition is_search (e : event) : bool :=
  match e with Searched _ _ => true | _ => false end.

Definition is_request (e : event) : bool :=
  match e with Requested _ _ _ => true | _ => false end.

End App1.

(** A test double for the first variant's services, and a session that
    has just been initialised. *)
Definition stub_env1 (found : (list doc) + pystr) (answer : pystr + pystr)
  : App1.env :=
  {| App1.search_svc := fun _ _ => {| took := no_time; result := found |};
     App1.llm_svc := fun _ _ _ => {| took := no_time; result := answer |} |}.

Definition fresh_world1 : App1.world :=
  {| App1.st := {| App1.messages := []; App1.last_request_time := 0;
                   App1.carbon_price := Cfg1.DEFAULT_CARBON_PRICE |};
     App1.clock := 1000; App1.requests := 0; App1.trace := [] |}.

Definition slash : N := 47.

(** [s] begins with [lit]. *)
Fixpoint starts_with (lit s : pystr) : bool :=
  match lit, s with
  | [], _ => true
  | l :: lit', x :: s' => (x =? l) && starts_with lit' s'
  | _ :: _, [] => false
  end.

(** [s.endswith(suffix)] *)
Definition ends_with (suffix s : pystr) : bool :=
  starts_with (rev suffix) (rev s).

(** The characters in front of the first "/". *)
Fixpoint before_slash (s : pystr) : pystr :=
  match s with
  | [] => []
  | c :: r => if c =? slash then [] else c :: before_slash r
  end.

(** [s.split("/")[-1]] *)
Definition last_component (s : pystr) : pystr :=
  rev (before_slash (rev s)).

(** The file types [reindex_documents] takes from the stage. *)
Definition DOCUMENT_SUFFIXES : list pystr :=
  [u ".pdf"; u ".png"; u ".jpg"; u ".jpeg"].

(** The comprehension of [reindex_documents] over the names the stage
    lists: [[f["name"].split("/")[-1] for f in files
    if f["name"].endswith((".pdf", ".png", ".jpg", ".jpeg"))]]. *)
Definition document_names (files : list pystr) : list pystr :=
  map last_component
      (filter (fun name => existsb (fun x => ends_with x name) DOCUMENT_SUFFIXES)
              files).

(** The completion requests, the waits and the error messages of a trace
    of the first variant. *)
Definition requests_in1 (evs : list App1.event) : nat :=
  List.length (filter App1.is_request evs).

Fixpoint sleeps1 (evs : list App1.event) : list Q :=
  match evs with
  | [] => []
  | App1.Slept d :: evs' => d :: sleeps1 evs'
  | _ :: evs' => sleeps1 evs'
  end.

Fixpoint errors1 (evs : list App1.event) : list pystr :=
  match evs with
  | [] => []
  | App1.StError msg :: evs' => msg :: errors1 evs'
  | _ :: evs' => errors1 evs'
  end.


(* ===================================================================== *)
(** * Facts about the matcher                                             *)
(* ===================================================================== *)

Section MatcherFacts.

Variable A : Type.
Implicit Types (k : cont A) (s : pystr) (c : caps).

Lemma firstn_consumed (s1 s2 : pystr) :
  firstn (List.length (s1 ++ s2) - List.length s2) (s1 ++ s2) = s1.
Proof.
  rewrite length_app, Nat.add_sub.
  rewrite firstn_app, Nat.sub_diag, firstn_all. simpl. apply app_nil_r.
Qed.

(** Captures play no part in what a pattern accepts. *)
Lemma matchc_any_caps r s c c' :
  matchc r s c c' -> forall d, exists d', matchc r s d d'.
Proof.
  induction 1; intros d.
  - eexists; constructor.
  - eexists; constructor; assumption.
  - destruct (IHmatchc1 d) as [d1 Ha]. destruct (IHmatchc2 d1) as [d2 Hb].
    eexists; econstructor; eassumption.
  - destruct (IHmatchc d) as [d' H']. eexists; apply mc_alt_l; eassumption.
  - destruct (IHmatchc d) as [d' H']. eexists; apply mc_alt_r; eassumption.
  - eexists; constructor.
  - destruct (IHmatchc1 d) as [d1 Ha]. destruct (IHmatchc2 d1) as [d2 Hb].
    eexists; eapply mc_star_cons; eassumption.
  - destruct (IHmatchc d) as [d' H']. eexists; constructor; eassumption.
Qed.

(** *** Soundness: a successful run consumed a string of the language *)

Lemma star_loop_sound g r :
  sound_at A r ->
  forall fuel s c k a,
    star_loop (rmatch (A:=A) r) g fuel s c k = Some a ->
    exists s1 s2 c', s = s1 ++ s2 /\ matchc (Star g r) s1 c c' /\
                     k s2 c' = Some a.
Proof.
  intros IH. induction fuel as [|fuel IHf]; intros s c k a H; simpl in H.
  - exists [], s, c. repeat split; [constructor | assumption].
  - assert (Hagain : forall x,
      rmatch r s c (fun s' c' =>
        if (List.length s' <? List.length s)%nat
        then star_loop (rmatch (A:=A) r) g fuel s' c' k else None) = Some x ->
      exists s1 s2 c', s = s1 ++ s2 /\ matchc (Star g r) s1 c c' /\
                       k s2 c' = Some x).
    { intros x Hx. apply IH in Hx. destruct Hx as (s1 & s2 & c1 & -> & Hm & Hk).
      destruct (List.length s2 <? List.length (s1 ++ s2))%nat eqn:Hlt;
        [|discriminate].
      apply IHf in Hk. destruct Hk as (t1 & t2 & c2 & -> & Hm2 & Hk).
      exists (s1 ++ t1), t2, c2. rewrite app_assoc. repeat split; trivial.
      eapply mc_star_cons; eauto.
      intros ->. apply Nat.ltb_lt in Hlt. simpl in Hlt. lia. }
    assert (Hnil : forall x, k s c = Some x ->
      exists s1 s2 c', s = s1 ++ s2 /\ matchc (Star g r) s1 c c' /\
                       k s2 c' = Some x).
    { intros x Hx. exists [], s, c. repeat split; [constructor | assumption]. }
    destruct g; unfold orelse in H.
    + destruct (rmatch r s c _) eqn:E in H.
      * inversion H; subst. apply Hagain. exact E.
      * apply Hnil. exact H.
    + clear Hnil. destruct (k s c) eqn:E.
      * inversion H; subst. exists [], s, c.
        repeat split; [constructor | assumption].
      * apply Hagain. exact H.
Qed.

Lemma rmatch_sound r : sound_at A r.
Proof.
  induction r as [| p | r1 IH1 r2 IH2 | r1 IH1 r2 IH2 | g r IH | n r IH];
    intros s c k a H; simpl in H.
  - exists [], s, c. repeat split; [constructor | assumption].
  - destruct s as [|x s]; [discriminate|].
    destruct (p x) eqn:Hp; [|discriminate].
    exists [x], s, c. repeat split; [constructor; assumption | assumption].
  - apply IH1 in H. destruct H as (s1 & s2 & c1 & -> & Hm1 & H).
    apply IH2 in H. destruct H as (t1 & t2 & c2 & -> & Hm2 & H).
    exists (s1 ++ t1), t2, c2. rewrite app_assoc. repeat split; trivial.
    econstructor; eassumption.
  - unfold orelse in H. destruct (rmatch r1 s c k) eqn:E.
    + inversion H; subst. apply IH1 in E.
      destruct E as (s1 & s2 & c1 & -> & Hm & Hk).
      exists s1, s2, c1. repeat split; trivial. apply mc_alt_l; assumption.
    + apply IH2 in H. destruct H as (s1 & s2 & c1 & -> & Hm & Hk).
      exists s1, s2, c1. repeat split; trivial. apply mc_alt_r; assumption.
  - eapply star_loop_sound; eassumption.
  - apply IH in H. destruct H as (s1 & s2 & c1 & -> & Hm & Hk).
    rewrite firstn_consumed in Hk.
    exists s1, s2, ((n, s1) :: c1). repeat split; trivial.
    constructor; assumption.
Qed.

(** *** Completeness: the matcher finds a match whenever one exists *)

Lemma orelse_left (x : option A) y : x <> None -> orelse x y <> None.
Proof. destruct x; simpl; congruence. Qed.

Lemma orelse_right (x : option A) y : y tt <> None -> orelse x y <> None.
Proof. destruct x; simpl; congruence. Qed.

Lemma star_loop_complete g r :
  complete_at A r ->
  forall s1 c0 c0', matchc (Star g r) s1 c0 c0' ->
  forall fuel s2 k c,
    (List.length (s1 ++ s2) <= fuel)%nat ->
    (forall c', k s2 c' <> None) ->
    star_loop (rmatch (A:=A) r) g fuel (s1 ++ s2) c k <> None.
Proof.
  intros IH s1 c0 c0' H. remember (Star g r) as r' eqn:Er.
  induction H; inversion Er; subst; intros fuel t2 k d Hfuel Hk.
  - destruct fuel; simpl; [apply Hk|].
    destruct g; [apply orelse_right | apply orelse_left]; apply Hk.
  - destruct fuel as [|fuel].
    { destruct s1; [congruence | simpl in Hfuel; lia]. }
    assert (Hagain :
      rmatch r ((s1 ++ s2) ++ t2) d (fun s' c' =>
        if (List.length s' <? List.length ((s1 ++ s2) ++ t2))%nat
        then star_loop (rmatch (A:=A) r) g fuel s' c' k else None) <> None).
    { rewrite <- app_assoc. eapply IH; [eassumption|]. intros e.
      assert (Hlt : (List.length (s2 ++ t2)
                     <? List.length (s1 ++ s2 ++ t2))%nat = true).
      { apply Nat.ltb_lt. rewrite (length_app s1).
        destruct s1; [congruence | simpl; lia]. }
      rewrite <- app_assoc in Hfuel. rewrite Hlt.
      apply IHmatchc2; trivial.
      rewrite (length_app s1) in Hfuel.
      destruct s1; [congruence | simpl in Hfuel; lia]. }
    simpl. destruct g; [apply orelse_left | apply orelse_right]; exact Hagain.
Qed.

Lemma rmatch_complete r : complete_at A r.
Proof.
  induction r as [| p | r1 IH1 r2 IH2 | r1 IH1 r2 IH2 | g r IH | n r IH];
    intros s1 c0 c0' H; inversion H; subst; intros t2 k d Hk; simpl.
  - apply Hk.
  - rewrite H1. apply Hk.
  - rewrite <- app_assoc. eapply IH1; [eassumption|].
    intros e. eapply IH2; eassumption.
  - apply orelse_left. eapply IH1; eassumption.
  - apply orelse_right. eapply IH2; eassumption.
  - destruct (List.length t2); simpl; [apply Hk|].
    destruct g; [apply orelse_right | apply orelse_left]; apply Hk.
  - eapply star_loop_complete; eauto.
  - eapply IH; [eassumption|]. intros e. apply Hk.
Qed.

End MatcherFacts.

(** ** [re.search] returns the leftmost match *)

Lemma match_at_sound r i s m :
  match_at r i s = Some m ->
  exists mid post,
    s = mid ++ post /\ matchc r mid [] (m_groups m) /\
    m_start m = i /\ m_end m = (i + List.length mid)%nat.
Proof.
  unfold match_at. intros H. apply rmatch_sound in H.
  destruct H as (s1 & s2 & c' & -> & Hm & Hk). inversion Hk; subst; simpl.
  exists s1, s2. repeat split; trivial.
  rewrite length_app. f_equal. lia.
Qed.

Lemma match_at_complete r i mid post :
  matches r mid -> match_at r i (mid ++ post) <> None.
Proof.
  intros (c & c' & H). unfold match_at.
  eapply rmatch_complete; [eassumption|]. discriminate.
Qed.

Lemma occurs_at_cons r x s j :
  occurs_at r (x :: s) (S j) -> occurs_at r s j.
Proof.
  intros (pre & mid & post & E & L & M).
  destruct pre as [|y pre]; [discriminate|].
  inversion E; subst. inversion L; subst.
  exists pre, mid, post. auto.
Qed.

Lemma search_from_some r s : forall i m,
  search_from r i s = Some m ->
  exists pre mid post,
    s = pre ++ mid ++ post /\
    matchc r mid [] (m_groups m) /\
    m_start m = (i + List.length pre)%nat /\
    m_end m = (m_start m + List.length mid)%nat /\
    forall j, occurs_at r s j -> (List.length pre <= j)%nat.
Proof.
  induction s as [|x s IH]; intros i m H; simpl in H.
  - destruct (match_at r i []) eqn:E; [|discriminate]. inversion H; subst.
    apply match_at_sound in E. destruct E as (mid & post & E & Hm & Hs & He).
    exists [], mid, post. simpl. repeat split; trivial; lia.
  - destruct (match_at r i (x :: s)) eqn:E.
    + inversion H; subst.
      apply match_at_sound in E. destruct E as (mid & post & E & Hm & Hs & He).
      exists [], mid, post. simpl. repeat split; trivial; lia.
    + apply IH in H. destruct H as (pre & mid & post & -> & Hm & Hs & He & Hl).
      exists (x :: pre), mid, post. simpl. repeat split; trivial; try lia.
      intros [|j] Ho.
      * exfalso. destruct Ho as (pre0 & mid0 & post0 & E0 & L0 & M0).
        destruct pre0; [|discriminate]. simpl in E0.
        rewrite E0 in E. revert E. apply match_at_complete. exact M0.
      * apply occurs_at_cons in Ho. apply Hl in Ho. lia.
Qed.

Lemma search_from_none r s : forall i,
  search_from r i s = None -> no_match r s.
Proof.
  induction s as [|x s IH]; intros i H; simpl in H.
  - destruct (match_at r i []) eqn:E; [discriminate|].
    intros j (pre & mid & post & E0 & L0 & M0).
    destruct pre; [|discriminate]. simpl in E0.
    rewrite E0 in E. revert E. apply match_at_complete. exact M0.
  - destruct (match_at r i (x :: s)) eqn:E; [discriminate|].
    intros [|j] Ho.
    + destruct Ho as (pre0 & mid0 & post0 & E0 & L0 & M0).
      destruct pre0; [|discriminate]. simpl in E0.
      rewrite E0 in E. revert E. apply match_at_complete. exact M0.
    + apply occurs_at_cons in Ho. exact (IH _ H _ Ho).
Qed.

(** The two outcomes of [re.search]. *)
Theorem re_search_spec r text :
  match re_search r text with
  | Some m =>
    exists pre mid post,
      first_match r text pre mid post (m_groups m) /\
      m_start m = List.length pre /\
      m_end m = (List.length pre + List.length mid)%nat
  | None => no_match r text
  end.
Proof.
  unfold re_search. destruct (search_from r 0 text) eqn:E.
  - apply search_from_some in E.
    destruct E as (pre & mid & post & E & Hm & Hs & He & Hl).
    exists pre, mid, post. unfold first_match. simpl in Hs.
    repeat split; trivial. lia.
  - eapply search_from_none; eassumption.
Qed.

(** ** The language of the pattern constructors *)

Ltac inv H := inversion H; subst; clear H.

Lemma all_of_app p a b : all_of p (a ++ b) <-> all_of p a /\ all_of p b.
Proof. unfold all_of. rewrite forallb_app, andb_true_iff. tauto. Qed.

Lemma all_of_cons p x s : all_of p (x :: s) <-> p x = true /\ all_of p s.
Proof. unfold all_of. simpl. rewrite andb_true_iff. tauto. Qed.

Lemma matchc_eps_inv s c c' : matchc Eps s c c' -> s = [] /\ c' = c.
Proof. intros H; inv H; auto. Qed.

Lemma matchc_cls_inv p s c c' :
  matchc (Cls p) s c c' -> exists x, s = [x] /\ p x = true /\ c' = c.
Proof. intros H; inv H; eauto. Qed.

Lemma matchc_cat_inv r1 r2 s c c' :
  matchc (Cat r1 r2) s c c' ->
  exists s1 s2 c1, s = s1 ++ s2 /\ matchc r1 s1 c c1 /\ matchc r2 s2 c1 c'.
Proof. intros H; inv H; eauto 7. Qed.

Lemma matchc_alt_inv r1 r2 s c c' :
  matchc (Alt r1 r2) s c c' -> matchc r1 s c c' \/ matchc r2 s c c'.
Proof. intros H; inv H; auto. Qed.

Lemma matchc_opt_inv r s c c' :
  matchc (Re.opt r) s c c' -> matchc r s c c' \/ (s = [] /\ c' = c).
Proof.
  intros H; apply matchc_alt_inv in H. destruct H as [H|H]; auto.
  apply matchc_eps_inv in H. auto.
Qed.

Lemma matchc_grp_inv n r s c c' :
  matchc (Grp n r) s c c' -> exists c1, matchc r s c c1 /\ c' = (n, s) :: c1.
Proof. intros H; inv H; eauto. Qed.

Lemma matchc_star_cls_inv g p s c c' :
  matchc (Star g (Cls p)) s c c' -> all_of p s /\ c' = c.
Proof.
  intros H. remember (Star g (Cls p)) as r eqn:E.
  induction H; inv E.
  - split; reflexivity.
  - destruct (IHmatchc2 eq_refl) as [Ha ->].
    apply matchc_cls_inv in H0. destruct H0 as (x & -> & Hx & ->).
    split; trivial. apply all_of_cons. auto.
Qed.

Lemma matchc_plus_cls_inv p s c c' :
  matchc (Re.plus (Cls p)) s c c' -> some_of p s /\ c' = c.
Proof.
  intros H. apply matchc_cat_inv in H.
  destruct H as (s1 & s2 & c1 & -> & H1 & H2).
  apply matchc_cls_inv in H1. destruct H1 as (x & -> & Hx & ->).
  apply matchc_star_cls_inv in H2. destruct H2 as [Ha ->].
  repeat split; [discriminate|]. apply all_of_cons. auto.
Qed.

Lemma matchc_lit_i_inv l s c c' :
  matchc (Re.lit_i l) s c c' -> List.length s = 1%nat /\ ci_eq s [l] /\ c' = c.
Proof.
  intros H. apply matchc_cls_inv in H. destruct H as (x & -> & Hx & ->).
  apply N.eqb_eq in Hx. unfold ci_eq. simpl. rewrite Hx. auto.
Qed.

Lemma matchc_str_i_inv lit : forall s c c',
  matchc (Re.str_i lit) s c c' ->
  List.length s = List.length lit /\ ci_eq s lit /\ c' = c.
Proof.
  unfold Re.str_i.
  induction lit as [|l lit IH]; intros s c c' H.
  - apply matchc_eps_inv in H. destruct H as [-> ->]. repeat split.
  - destruct lit as [|l' lit].
    + apply matchc_lit_i_inv in H. exact H.
    + change (matchc (Cat (Re.lit_i l) (Re.seq (map Re.lit_i (l' :: lit))))
                     s c c') in H.
      apply matchc_cat_inv in H. destruct H as (s1 & s2 & c1 & -> & H1 & H2).
      apply matchc_lit_i_inv in H1. destruct H1 as (L1 & E1 & ->).
      apply IH in H2. destruct H2 as (L2 & E2 & ->).
      destruct s1 as [|x [|? ?]]; try discriminate.
      unfold ci_eq in *. simpl in *. inv E1.
      repeat split; [lia|]. rewrite H0. f_equal. exact E2.
Qed.

(** The other direction: building a match from its pieces. *)

Lemma matches_eps : matches Eps [].
Proof. exists [], []. constructor. Qed.

Lemma matches_cls (p : N -> bool) x : p x = true -> matches (Cls p) [x].
Proof. exists [], []. constructor; assumption. Qed.

Lemma matches_cat r1 r2 s1 s2 :
  matches r1 s1 -> matches r2 s2 -> matches (Cat r1 r2) (s1 ++ s2).
Proof.
  intros (c & c1 & H1) (d & d' & H2).
  destruct (matchc_any_caps H2 c1) as [c2 H2'].
  exists c, c2. econstructor; eassumption.
Qed.

Lemma matches_alt_l r1 r2 s : matches r1 s -> matches (Alt r1 r2) s.
Proof. intros (c & c' & H). exists c, c'. apply mc_alt_l; assumption. Qed.

Lemma matches_alt_r r1 r2 s : matches r2 s -> matches (Alt r1 r2) s.
Proof. intros (c & c' & H). exists c, c'. apply mc_alt_r; assumption. Qed.

Lemma matches_opt_some r s : matches r s -> matches (Re.opt r) s.
Proof. apply matches_alt_l. Qed.

Lemma matches_opt_none r : matches (Re.opt r) [].
Proof. apply matches_alt_r, matches_eps. Qed.

Lemma matches_grp n r s : matches r s -> matches (Grp n r) s.
Proof. intros (c & c' & H). exists c, ((n, s) :: c'). constructor; assumption. Qed.

Lemma matches_star_cls g p s : all_of p s -> matches (Star g (Cls p)) s.
Proof.
  induction s as [|x s IH]; intros H.
  - exists [], []. constructor.
  - apply all_of_cons in H. destruct H as [Hx Hs].
    destruct (IH Hs) as (c & c' & Hm).
    destruct (matchc_any_caps Hm []) as [d Hd].
    exists [], d. change (x :: s) with ([x] ++ s).
    eapply mc_star_cons; [discriminate | constructor; exact Hx | exact Hd].
Qed.

Lemma matches_plus_cls p s : some_of p s -> matches (Re.plus (Cls p)) s.
Proof.
  intros [Hne H]. destruct s as [|x s]; [congruence|].
  apply all_of_cons in H. destruct H as [Hx Hs].
  change (x :: s) with ([x] ++ s).
  apply matches_cat; [apply matches_cls; exact Hx | apply matches_star_cls; exact Hs].
Qed.

Lemma matches_str_i lit : forall s,
  List.length s = List.length lit -> ci_eq s lit -> matches (Re.str_i lit) s.
Proof.
  unfold Re.str_i, ci_eq.
  induction lit as [|l lit IH]; intros s L E.
  - destruct s; [apply matches_eps | discriminate].
  - destruct s as [|x s]; [discriminate|]. simpl in L, E. inv E.
    assert (Hx : matches (Re.lit_i l) [x]).
    { apply matches_cls. apply N.eqb_eq. assumption. }
    destruct lit as [|l' lit].
    + destruct s; [exact Hx | discriminate].
    + change (matches (Cat (Re.lit_i l) (Re.seq (map Re.lit_i (l' :: lit))))
                      ([x] ++ s)).
      apply matches_cat; [exact Hx|]. apply IH; [lia | assumption].
Qed.

(* ===================================================================== *)
(** * The shapes the classifier looks for                                 *)
(* ===================================================================== *)

Lemma ci_eq_length a b : ci_eq a b -> List.length a = List.length b.
Proof.
  unfold ci_eq, lower. intros H.
  rewrite <- (length_map lower_char a), H. apply length_map.
Qed.

Lemma lower_char_symbol x c :
  is_upper c = false -> is_lower c = false ->
  lower_char x = lower_char c -> x = c.
Proof.
  unfold lower_char, is_upper, is_lower. intros Uc Lc.
  rewrite Uc.
  destruct ((65 <=? x) && (x <=? 90)) eqn:Ux; [|auto].
  intros <-. exfalso.
  apply andb_true_iff in Ux. destruct Ux as [U1 U2].
  apply N.leb_le in U1. apply N.leb_le in U2.
  apply andb_false_iff in Lc.
  destruct Lc as [Lc|Lc]; apply N.leb_gt in Lc; lia.
Qed.

Lemma matchc_thousands_inv s c c' :
  matchc (Star true (Re.seq [Re.lit_i comma; Re.digit; Re.digit; Re.digit]))
         s c c' ->
  thousands s /\ c' = c.
Proof.
  intros H.
  remember (Star true (Re.seq [Re.lit_i comma; Re.digit; Re.digit; Re.digit]))
    as r eqn:E.
  induction H; inv E.
  - split; constructor.
  - destruct (IHmatchc2 eq_refl) as [Ht ->]. clear IHmatchc1 IHmatchc2.
    cbn [Re.seq] in H0.
    apply matchc_cat_inv in H0. destruct H0 as (a & sa & ca & -> & Ha & H0).
    apply matchc_cat_inv in H0. destruct H0 as (b & sb & cb & -> & Hb & H0).
    apply matchc_cat_inv in H0. destruct H0 as (d & e & cd & -> & Hd & He).
    apply matchc_cls_inv in Ha, Hb, Hd, He.
    destruct Ha as (xa & -> & Pa & ->). destruct Hb as (xb & -> & Pb & ->).
    destruct Hd as (xd & -> & Pd & ->). destruct He as (xe & -> & Pe & ->).
    apply N.eqb_eq in Pa. apply lower_char_symbol in Pa; try reflexivity.
    subst xa. split; trivial. simpl. constructor; assumption.
Qed.

Lemma matches_thousands s :
  thousands s ->
  matches (Star true (Re.seq [Re.lit_i comma; Re.digit; Re.digit; Re.digit])) s.
Proof.
  induction 1 as [|a b c rest Ha Hb Hc Ht IH].
  - exists [], []. constructor.
  - destruct IH as (c0 & c1 & IH).
    destruct (matchc_any_caps IH []) as [d Hd].
    exists [], d. change (comma :: a :: b :: c :: rest)
                   with ([comma; a; b; c] ++ rest).
    eapply mc_star_cons; [discriminate | | exact Hd].
    cbn [Re.seq].
    change [comma; a; b; c] with ([comma] ++ [a] ++ [b] ++ [c]).
    repeat (econstructor; try eassumption).
Qed.

Lemma matchc_sep_integer_inv s c c' :
  matchc (Cat (Re.plus Re.digit)
              (Star true (Re.seq [Re.lit_i comma; Re.digit; Re.digit; Re.digit])))
         s c c' ->
  sep_integer s /\ c' = c.
Proof.
  intros H. apply matchc_cat_inv in H.
  destruct H as (d & t & c1 & -> & Hd & Ht).
  apply matchc_plus_cls_inv in Hd. destruct Hd as [Hd ->].
  apply matchc_thousands_inv in Ht. destruct Ht as [Ht ->].
  split; trivial. exists d, t. auto.
Qed.

Lemma matchc_number_inv s c c' :
  matchc V2.number s c c' -> numeral s /\ c' = c.
Proof.
  unfold V2.number. intros H. apply matchc_cat_inv in H.
  destruct H as (ip & r & c1 & -> & Hi & Hr).
  apply matchc_plus_cls_inv in Hi. destruct Hi as [Hi ->].
  apply matchc_opt_inv in Hr. destruct Hr as [Hr | [-> ->]].
  - apply matchc_cat_inv in Hr. destruct Hr as (dt & fp & c2 & -> & Hdot & Hf).
    apply matchc_cls_inv in Hdot. destruct Hdot as (x & -> & Hx & ->).
    apply N.eqb_eq in Hx. apply lower_char_symbol in Hx; try reflexivity.
    subst x.
    apply matchc_plus_cls_inv in Hf. destruct Hf as [Hf ->].
    split; trivial. exists ip. split; trivial. right. exists fp.
    split; trivial.
  - split; trivial. exists ip. rewrite app_nil_r. auto.
Qed.

Lemma matches_number s : numeral s -> matches V2.number s.
Proof.
  intros (ip & Hi & [-> | (fp & Hf & ->)]); unfold V2.number.
  - rewrite <- (app_nil_r ip). apply matches_cat.
    + apply matches_plus_cls. exact Hi.
    + apply matches_opt_none.
  - apply matches_cat; [apply matches_plus_cls; exact Hi|].
    apply matches_opt_some. change (46 :: fp) with ([46] ++ fp).
    apply matches_cat; [apply matches_cls; reflexivity|].
    apply matches_plus_cls. exact Hf.
Qed.

Lemma matchc_qty_inv mid c c' :
  matchc V2.qty_re mid c c' ->
  exists g1 g2, qty_shape g1 g2 mid /\ c' = (2%nat, g2) :: (1%nat, g1) :: c.
Proof.
  unfold V2.qty_re. cbn [Re.seq]. intros H.
  apply matchc_cat_inv in H. destruct H as (g1 & r1 & c1 & -> & Hg1 & H).
  apply matchc_cat_inv in H. destruct H as (ws1 & r2 & c2 & -> & Hw1 & H).
  apply matchc_cat_inv in H. destruct H as (tn & r3 & c3 & -> & Htn & H).
  apply matchc_cat_inv in H. destruct H as (sx & r4 & c4 & -> & Hsx & H).
  apply matchc_cat_inv in H. destruct H as (ws2 & r5 & c5 & -> & Hw2 & H).
  apply matchc_cat_inv in H. destruct H as (o & g2 & c6 & -> & Ho & Hg2).
  apply matchc_grp_inv in Hg1. destruct Hg1 as (d1 & Hg1 & ->).
  apply matchc_sep_integer_inv in Hg1. destruct Hg1 as [Hg1 ->].
  apply matchc_plus_cls_inv in Hw1. destruct Hw1 as [Hw1 ->].
  apply matchc_str_i_inv in Htn. destruct Htn as (Ltn & Htn & ->).
  apply matchc_plus_cls_inv in Hw2. destruct Hw2 as [Hw2 ->].
  apply matchc_grp_inv in Hg2. destruct Hg2 as (d2 & Hg2 & ->).
  apply matchc_plus_cls_inv in Hg2. destruct Hg2 as [Hg2 ->].
  assert (Hton : ton_word (tn ++ sx) /\ c4 = (1%nat, g1) :: c).
  { apply matchc_opt_inv in Hsx. destruct Hsx as [Hsx | [-> ->]].
    - apply matchc_lit_i_inv in Hsx. destruct Hsx as (Ls & Hs & ->).
      split; trivial. right. unfold ci_eq, lower in *.
      rewrite map_app, Htn, Hs. reflexivity.
    - split; trivial. left. rewrite app_nil_r. exact Htn. }
  destruct Hton as [Hton ->].
  assert (Hof : of_word o /\ c6 = (1%nat, g1) :: c).
  { apply matchc_opt_inv in Ho. destruct Ho as [Ho | [-> ->]].
    - apply matchc_cat_inv in Ho. destruct Ho as (o1 & o2 & c7 & -> & Ho1 & Ho2).
      apply matchc_str_i_inv in Ho1. destruct Ho1 as (Lo & Ho1 & ->).
      apply matchc_plus_cls_inv in Ho2. destruct Ho2 as [Ho2 ->].
      split; trivial. right. exists o1, o2. auto.
    - split; trivial. left. reflexivity. }
  destruct Hof as [Hof ->].
  exists g1, g2. split; trivial.
  exists ws1, (tn ++ sx), ws2, o. rewrite <- !app_assoc. repeat split; trivial;
    try apply Hw1; try apply Hw2; try apply Hg2.
Qed.

Lemma matches_ton t : ton_word t ->
  matches (Cat (Re.str_i (u "ton")) (Re.opt (Re.lit_i (chr "s")))) t.
Proof.
  intros [H|H]; pose proof (ci_eq_length H) as L.
  - rewrite <- (app_nil_r t). apply matches_cat.
    + apply matches_str_i; assumption.
    + apply matches_opt_none.
  - destruct t as [|a [|b [|c [|d [|? ?]]]]]; try discriminate.
    change [a; b; c; d] with ([a; b; c] ++ [d]).
    unfold ci_eq in H. simpl in H. inv H.
    apply matches_cat.
    + apply matches_str_i; [reflexivity|]. unfold ci_eq. simpl. congruence.
    + apply matches_opt_some. apply matches_cls. apply N.eqb_eq. assumption.
Qed.

Lemma matches_qty g1 g2 mid : qty_shape g1 g2 mid -> matches V2.qty_re mid.
Proof.
  intros (ws1 & t & ws2 & o & -> & (d & th & -> & Hd & Hth) & Hw1 & Ht & Hw2
          & Ho & Hg2).
  unfold V2.qty_re. cbn [Re.seq].
  apply matches_cat.
  { apply matches_grp. apply matches_cat.
    - apply matches_plus_cls. exact Hd.
    - apply matches_thousands. exact Hth. }
  apply matches_cat; [apply matches_plus_cls; exact Hw1|].
  apply matches_ton in Ht. destruct Ht as (c0 & c1 & Ht).
  apply matchc_cat_inv in Ht. destruct Ht as (t1 & t2 & c2 & -> & Ht1 & Ht2).
  rewrite <- app_assoc.
  apply matches_cat; [eexists; eexists; exact Ht1|].
  apply matches_cat; [eexists; eexists; exact Ht2|].
  apply matches_cat; [apply matches_plus_cls; exact Hw2|].
  apply matches_cat.
  - destruct Ho as [-> | (o1 & o2 & -> & Ho1 & Ho2)].
    + apply matches_opt_none.
    + apply matches_opt_some. apply matches_cat.
      * apply matches_str_i; [apply ci_eq_length|]; assumption.
      * apply matches_plus_cls. exact Ho2.
  - apply matches_grp. apply matches_plus_cls. exact Hg2.
Qed.

Lemma matchc_em_inv mid c c' :
  matchc V2.em_re mid c c' ->
  exists g1, em_shape g1 mid /\ c' = (1%nat, g1) :: c.
Proof.
  unfold V2.em_re. cbn [Re.seq]. intros H.
  apply matchc_cat_inv in H. destruct H as (g1 & r1 & c1 & -> & Hg1 & H).
  apply matchc_cat_inv in H. destruct H as (ws & r2 & c2 & -> & Hws & H).
  apply matchc_cat_inv in H. destruct H as (t & r3 & c3 & -> & Ht & H).
  apply matchc_cat_inv in H. destruct H as (e & p & c4 & -> & He & Hp).
  apply matchc_grp_inv in Hg1. destruct Hg1 as (d1 & Hg1 & ->).
  apply matchc_number_inv in Hg1. destruct Hg1 as [Hg1 ->].
  apply matchc_star_cls_inv in Hws. destruct Hws as [Hws ->].
  apply matchc_str_i_inv in Ht. destruct Ht as (Lt & Ht & ->).
  assert (He' : (e = [] \/ ci_eq e (u "e")) /\ c4 = (1%nat, g1) :: c).
  { apply matchc_opt_inv in He. destruct He as [He | [-> ->]]; [|auto].
    apply matchc_lit_i_inv in He. destruct He as (_ & He & ->). auto. }
  destruct He' as [He' ->].
  assert (Hp' : (p = [] \/ ci_eq p (u "/ton")) /\ c' = (1%nat, g1) :: c).
  { apply matchc_opt_inv in Hp. destruct Hp as [Hp | [-> ->]]; [|auto].
    apply matchc_str_i_inv in Hp. destruct Hp as (_ & Hp & ->). auto. }
  destruct Hp' as [Hp' ->].
  exists g1. split; trivial. exists ws, (t ++ e ++ p).
  repeat split; trivial. exists t, e, p. auto.
Qed.

Lemma matches_em g1 mid : em_shape g1 mid -> matches V2.em_re mid.
Proof.
  intros (ws & un & -> & Hg & Hws & (t & e & p & -> & Ht & He & Hp)).
  unfold V2.em_re. cbn [Re.seq].
  apply matches_cat; [apply matches_grp, matches_number; exact Hg|].
  apply matches_cat; [apply matches_star_cls; exact Hws|].
  apply matches_cat; [apply matches_str_i; [apply ci_eq_length|]; exact Ht|].
  apply matches_cat.
  - destruct He as [-> | He]; [apply matches_opt_none|].
    apply matches_opt_some.
    apply (@matches_str_i (u "e")); [apply ci_eq_length|]; exact He.
  - destruct Hp as [-> | Hp]; [apply matches_opt_none|].
    apply matches_opt_some. apply matches_str_i; [apply ci_eq_length|]; exact Hp.
Qed.

Lemma matchc_keyword_inv s c c' :
  matchc (Alt (Re.str_i (u "origin"))
              (Alt (Re.str_i (u "paid")) (Re.str_i (u "cost")))) s c c' ->
  keyword s /\ c' = c.
Proof.
  intros H. apply matchc_alt_inv in H. destruct H as [H|H].
  - apply matchc_str_i_inv in H. destruct H as (_ & H & ->). split; [left|]; auto.
  - apply matchc_alt_inv in H. destruct H as [H|H];
      apply matchc_str_i_inv in H; destruct H as (_ & H & ->);
      (split; [right|]; auto).
Qed.

Lemma matches_keyword s :
  keyword s ->
  matches (Alt (Re.str_i (u "origin"))
               (Alt (Re.str_i (u "paid")) (Re.str_i (u "cost")))) s.
Proof.
  intros [H|[H|H]].
  - apply matches_alt_l. apply matches_str_i; [apply ci_eq_length|]; exact H.
  - apply matches_alt_r, matches_alt_l.
    apply matches_str_i; [apply ci_eq_length|]; exact H.
  - apply matches_alt_r, matches_alt_r.
    apply matches_str_i; [apply ci_eq_length|]; exact H.
Qed.

Lemma matchc_origin_inv mid c c' :
  matchc V2.origin_re mid c c' ->
  exists g1, origin_shape g1 mid /\ c' = (1%nat, g1) :: c.
Proof.
  unfold V2.origin_re. cbn [Re.seq]. intros H.
  apply matchc_cat_inv in H. destruct H as (kw & r1 & c1 & -> & Hkw & H).
  apply matchc_cat_inv in H. destruct H as (gap & r2 & c2 & -> & Hgap & H).
  apply matchc_cat_inv in H. destruct H as (eur & g1 & c3 & -> & Heur & Hg1).
  apply matchc_keyword_inv in Hkw. destruct Hkw as [Hkw ->].
  apply matchc_star_cls_inv in Hgap. destruct Hgap as [Hgap ->].
  apply matchc_grp_inv in Hg1. destruct Hg1 as (d1 & Hg1 & ->).
  apply matchc_number_inv in Hg1. destruct Hg1 as [Hg1 ->].
  assert (He : (eur = [] \/ eur = u "€") /\ c3 = c).
  { apply matchc_opt_inv in Heur. destruct Heur as [He | [-> ->]]; [|auto].
    apply matchc_str_i_inv in He. destruct He as (L & He & ->).
    split; trivial. right.
    destruct eur as [|x [|? ?]]; try discriminate.
    unfold ci_eq in He. simpl in He. inv He.
    apply lower_char_symbol in H0; try reflexivity. subst x. reflexivity. }
  destruct He as [He ->].
  exists g1. split; trivial. exists kw, gap, eur. auto.
Qed.

Lemma matches_origin g1 mid : origin_shape g1 mid -> matches V2.origin_re mid.
Proof.
  intros (kw & gap & eur & -> & Hkw & Hgap & Heur & Hg).
  unfold V2.origin_re. cbn [Re.seq].
  apply matches_cat; [apply matches_keyword; exact Hkw|].
  apply matches_cat; [apply matches_star_cls; exact Hgap|].
  apply matches_cat.
  - destruct Heur as [-> | ->]; [apply matches_opt_none|].
    apply matches_opt_some. apply matches_str_i; reflexivity.
  - apply matches_grp, matches_number. exact Hg.
Qed.

(** ** The lazy gap of the origin-price pattern stops at the first digit *)

Lemma star_lazy_cls_min (A : Type) (p : N -> bool) (k : cont A) c a :
  forall fuel s,
    star_loop (rmatch (A:=A) (Cls p)) false fuel s c k = Some a ->
    exists gap rest,
      s = gap ++ rest /\ all_of p gap /\ k rest c = Some a /\
      forall g1 g2, gap = g1 ++ g2 -> g2 <> [] -> k (g2 ++ rest) c = None.
Proof.
  induction fuel as [|fuel IH]; intros s H; simpl in H.
  - exists [], s. repeat split; trivial.
    intros g1 g2 E Hne. symmetry in E. apply app_eq_nil in E. tauto.
  - unfold orelse in H. destruct (k s c) eqn:E.
    + inv H. exists [], s. repeat split; trivial.
      intros g1 g2 E' Hne. symmetry in E'. apply app_eq_nil in E'. tauto.
    + destruct s as [|x s]; [discriminate|].
      destruct (p x) eqn:Hp; [|discriminate].
      destruct (List.length s <? List.length (x :: s))%nat; [|discriminate].
      apply IH in H. destruct H as (gap & rest & -> & Hg & Hk & Hmin).
      exists (x :: gap), rest. repeat split; trivial.
      * apply all_of_cons. auto.
      * intros g1 g2 E' Hne. destruct g1 as [|y g1]; simpl in E'.
        -- subst g2. exact E.
        -- inv E'. apply (Hmin g1 g2); auto.
Qed.

Lemma rmatch_cat (A : Type) r1 r2 s c (k : cont A) :
  rmatch (Cat r1 r2) s c k = rmatch r1 s c (fun s' c' => rmatch r2 s' c' k).
Proof. reflexivity. Qed.

Lemma rmatch_star (A : Type) g r s c (k : cont A) :
  rmatch (Star g r) s c k = star_loop (rmatch r) g (List.length s) s c k.
Proof. reflexivity. Qed.

Lemma rmatch_grp (A : Type) n r s c (k : cont A) :
  rmatch (Grp n r) s c k =
  rmatch r s c (fun s' c' =>
    k s' ((n, firstn (List.length s - List.length s') s) :: c')).
Proof. reflexivity. Qed.

Lemma rmatch_alt (A : Type) r1 r2 s c (k : cont A) :
  rmatch (Alt r1 r2) s c k =
  orelse (rmatch r1 s c k) (fun _ => rmatch r2 s c k).
Proof. reflexivity. Qed.

(** What [re.match] with the origin-price pattern returns: the keyword,
    a gap without digits on the same line, and the number. *)
Lemma match_at_origin i s m :
  match_at V2.origin_re i s = Some m ->
  exists kw gap eur g1 post,
    s = (kw ++ gap ++ eur ++ g1) ++ post /\
    keyword kw /\ all_of not_newline gap /\
    all_of (fun c => negb (is_digit c)) gap /\
    (eur = [] \/ eur = u "€") /\ numeral g1 /\
    m_groups m = [(1%nat, g1)].
Proof.
  unfold match_at, V2.origin_re. cbn [Re.seq]. intros H.
  rewrite rmatch_cat in H.
  apply rmatch_sound in H. destruct H as (kw & s2 & c1 & -> & Hkw & H).
  apply matchc_keyword_inv in Hkw. destruct Hkw as [Hkw ->].
  rewrite rmatch_cat, rmatch_star in H. unfold Re.dot in H.
  apply star_lazy_cls_min in H.
  destruct H as (gap & rest & -> & Hgap & Hk & Hmin).
  pose proof Hk as Hk'. rewrite rmatch_cat in Hk'.
  apply rmatch_sound in Hk'. destruct Hk' as (eur & s3 & c2 & -> & Heur & Hk').
  apply rmatch_sound in Hk'. destruct Hk' as (g1 & post & c3 & -> & Hg1 & Hk').
  assert (He : (eur = [] \/ eur = u "€") /\ c2 = []).
  { apply matchc_opt_inv in Heur. destruct Heur as [He | [-> ->]]; [|auto].
    apply matchc_str_i_inv in He. destruct He as (L & He & ->).
    split; trivial. right.
    destruct eur as [|x [|? ?]]; try discriminate.
    unfold ci_eq in He. simpl in He. inv He.
    apply lower_char_symbol in H0; try reflexivity. subst x. reflexivity. }
  destruct He as [He ->].
  apply matchc_grp_inv in Hg1. destruct Hg1 as (d1 & Hg1 & ->).
  apply matchc_number_inv in Hg1. destruct Hg1 as [Hg1 ->].
  inv Hk'. simpl.
  exists kw, gap, eur, g1, post. rewrite <- !app_assoc.
  repeat split; trivial.
  (* a digit inside the gap would have ended the gap there *)
  unfold all_of. apply forallb_forall. intros x Hx.
  destruct (is_digit x) eqn:Hd; [|reflexivity]. exfalso.
  apply in_split in Hx. destruct Hx as (a & b & E).
  specialize (Hmin a (x :: b) E ltac:(discriminate)).
  revert Hmin. change ((x :: b) ++ eur ++ g1 ++ post)
    with ([x] ++ (b ++ eur ++ g1 ++ post)).
  assert (Hm : matches (Cat (Re.opt (Re.str_i (u "€"))) (Grp 1 V2.number)) [x]).
  { change [x] with ([] ++ [x]). apply matches_cat; [apply matches_opt_none|].
    apply matches_grp, matches_number. exists [x]. split; [|left; reflexivity].
    split; [discriminate|]. apply all_of_cons. split; [exact Hd | reflexivity]. }
  destruct Hm as (d0 & d1 & Hm).
  eapply rmatch_complete; [exact Hm|]. intros; discriminate.
Qed.

Lemma search_from_at r s : forall i m,
  search_from r i s = Some m ->
  exists pre rest,
    s = pre ++ rest /\
    match_at r (i + List.length pre) rest = Some m /\
    forall j, occurs_at r s j -> (List.length pre <= j)%nat.
Proof.
  induction s as [|x s IH]; intros i m H; simpl in H.
  - destruct (match_at r i []) eqn:E; [|discriminate]. inv H.
    exists [], []. simpl. rewrite Nat.add_0_r. repeat split; trivial; lia.
  - destruct (match_at r i (x :: s)) eqn:E.
    + inv H. exists [], (x :: s). simpl. rewrite Nat.add_0_r.
      repeat split; trivial; lia.
    + apply IH in H. destruct H as (pre & rest & -> & Hm & Hl).
      exists (x :: pre), rest. simpl.
      replace (i + S (List.length pre))%nat with (S i + List.length pre)%nat
        by lia.
      repeat split; trivial.
      intros [|j] Ho.
      * exfalso. destruct Ho as (pre0 & mid0 & post0 & E0 & L0 & M0).
        destruct pre0; [|discriminate]. simpl in E0.
        rewrite E0 in E. revert E. apply match_at_complete. exact M0.
      * apply occurs_at_cons in Ho. apply Hl in Ho. lia.
Qed.

(** ** Occurrences of a shape in a text *)

Lemma matches_qty_iff mid : matches V2.qty_re mid <-> qty_like mid.
Proof.
  split.
  - intros (c & c' & H). apply matchc_qty_inv in H.
    destruct H as (g1 & g2 & H & _). exists g1, g2. exact H.
  - intros (g1 & g2 & H). eapply matches_qty; eassumption.
Qed.

Lemma matches_em_iff mid : matches V2.em_re mid <-> em_like mid.
Proof.
  split.
  - intros (c & c' & H). apply matchc_em_inv in H.
    destruct H as (g1 & H & _). exists g1. exact H.
  - intros (g1 & H). eapply matches_em; eassumption.
Qed.

Lemma matches_origin_iff mid : matches V2.origin_re mid <-> origin_like mid.
Proof.
  split.
  - intros (c & c' & H). apply matchc_origin_inv in H.
    destruct H as (g1 & H & _). exists g1. exact H.
  - intros (g1 & H). eapply matches_origin; eassumption.
Qed.

Lemma leftmost_transfer r (L : pystr -> Prop) (text pre : pystr) :
  (forall mid, matches r mid <-> L mid) ->
  (forall j, occurs_at r text j -> (List.length pre <= j)%nat) ->
  forall pre' mid' post',
    text = pre' ++ mid' ++ post' -> L mid' ->
    (List.length pre <= List.length pre')%nat.
Proof.
  intros Hiff Hl pre' mid' post' E HL. apply Hl.
  exists pre', mid', post'. repeat split; trivial. apply Hiff. exact HL.
Qed.

Lemma nowhere_transfer r (L : pystr -> Prop) text :
  (forall mid, matches r mid <-> L mid) ->
  no_match r text -> nowhere L text.
Proof.
  intros Hiff Hn pre mid post E HL. apply (Hn (List.length pre)).
  exists pre, mid, post. repeat split; trivial. apply Hiff. exact HL.
Qed.

(** The search with each of the three patterns, in terms of shapes. *)

Lemma re_search_qty text :
  match re_search V2.qty_re text with
  | Some m =>
    exists pre mid post g1 g2,
      first_occurrence qty_like text pre mid post /\ qty_shape g1 g2 mid /\
      mgroup 1 m = g1 /\ mgroup 2 m = g2
  | None => nowhere qty_like text
  end.
Proof.
  pose proof (re_search_spec V2.qty_re text) as H.
  destruct (re_search V2.qty_re text) as [m|].
  - destruct H as (pre & mid & post & (E & Hm & Hl) & _).
    apply matchc_qty_inv in Hm. destruct Hm as (g1 & g2 & Hs & Hg).
    exists pre, mid, post, g1, g2. unfold mgroup. rewrite Hg. simpl.
    repeat split; trivial.
    + exists g1, g2. exact Hs.
    + eapply leftmost_transfer; [apply matches_qty_iff | exact Hl].
  - eapply nowhere_transfer; [apply matches_qty_iff | exact H].
Qed.

Lemma re_search_em text :
  match re_search V2.em_re text with
  | Some m =>
    exists pre mid post g1,
      first_occurrence em_like text pre mid post /\ em_shape g1 mid /\
      mgroup 1 m = g1
  | None => nowhere em_like text
  end.
Proof.
  pose proof (re_search_spec V2.em_re text) as H.
  destruct (re_search V2.em_re text) as [m|].
  - destruct H as (pre & mid & post & (E & Hm & Hl) & _).
    apply matchc_em_inv in Hm. destruct Hm as (g1 & Hs & Hg).
    exists pre, mid, post, g1. unfold mgroup. rewrite Hg. simpl.
    repeat split; trivial.
    + exists g1. exact Hs.
    + eapply leftmost_transfer; [apply matches_em_iff | exact Hl].
  - eapply nowhere_transfer; [apply matches_em_iff | exact H].
Qed.

Lemma re_search_origin text :
  match re_search V2.origin_re text with
  | Some m =>
    exists pre kw gap eur g1 post,
      first_occurrence origin_like text pre (kw ++ gap ++ eur ++ g1) post /\
      keyword kw /\ all_of not_newline gap /\
      all_of (fun c => negb (is_digit c)) gap /\
      (eur = [] \/ eur = u "€") /\ numeral g1 /\
      mgroup 1 m = g1
  | None => nowhere origin_like text
  end.
Proof.
  unfold re_search. destruct (search_from V2.origin_re 0 text) as [m|] eqn:E.
  - apply search_from_at in E. destruct E as (pre & rest & -> & Hm & Hl).
    apply match_at_origin in Hm.
    destruct Hm as (kw & gap & eur & g1 & post & -> & Hkw & Hnl & Hnd & He
                    & Hg & Hgs).
    exists pre, kw, gap, eur, g1, post. unfold mgroup. rewrite Hgs. simpl.
    repeat split; trivial.
    + exists g1, kw, gap, eur. auto.
    + eapply leftmost_transfer; [apply matches_origin_iff | exact Hl].
  - eapply nowhere_transfer; [apply matches_origin_iff|].
    eapply search_from_none; eassumption.
Qed.



(* ===================================================================== *)
(** * The cost calculator                                                 *)
(* ===================================================================== *)

(** C10: in the second variant an explicit [eu_price] of zero is replaced
    by the session's carbon price, exactly as an omitted one: the cost is
    [max(0, embedded_emissions * (session price - origin_price))], which
    can be strictly positive. *)
Theorem calculate_cbam_cost_zero_eu_price :
  (forall carbon_price embedded_emissions origin_price sign,
      Calc2.calculate_cbam_cost carbon_price embedded_emissions origin_price
                                (Some (S754_zero sign))
      = F64.max F64.zero
          (F64.mul embedded_emissions (F64.sub carbon_price origin_price))
      /\
      Calc2.calculate_cbam_cost carbon_price embedded_emissions origin_price
                                (Some (S754_zero sign))
      = Calc2.calculate_cbam_cost carbon_price embedded_emissions origin_price
                                  None) /\
  F64.ltb F64.zero
    (Calc2.calculate_cbam_cost (f "78.54") (f "230.0") (f "0.0")
                               (Some (f "0.0"))) = true.
Proof.
  split.
  - intros cp em o sg. split; reflexivity.
  - vm_compute. reflexivity.
Qed.

(** C1 at the failing input: total emissions 230.0, origin price 0.0 and
    an explicit EU price 0.0, in a session whose carbon price is 78.54.
    The EU price does not exceed the origin price, yet the second variant
    returns 230.0 * 78.54 > 0; the first variant returns 0. *)
Lemma calculate_cbam_cost_explicit_zero_price :
  let total := f "230.0" in
  let origin := f "0.0" in
  let eu := f "0.0" in
  let session_price := f "78.54" in
  F64.leb eu origin = true /\
  Calc2.calculate_cbam_cost session_price total origin (Some eu)
    = F64.mul total session_price /\
  F64.ltb F64.zero
    (Calc2.calculate_cbam_cost session_price total origin (Some eu)) = true /\
  Calc1.calculate_cbam_cost session_price total origin (Some eu) = F64.zero.
Proof. vm_compute. repeat split; reflexivity. Qed.

(* ===================================================================== *)
(** * The retriever                                                       *)
(* ===================================================================== *)

Lemma remove_char_not_in c s : ~ In c (remove_char c s).
Proof.
  unfold remove_char. intros H. apply filter_In in H. destruct H as [_ H].
  rewrite N.eqb_refl in H. discriminate.
Qed.

Lemma firstn_In (A : Type) n (x : A) l : In x (firstn n l) -> In x l.
Proof.
  revert l; induction n as [|n IH]; intros [|y l] H; simpl in *; try tauto.
  destruct H; auto.
Qed.


(* ===================================================================== *)
(** * The completion client                                               *)
(* ===================================================================== *)

Lemma Q_of_duration_nonneg d : (0 <= Q_of_duration d)%Q.
Proof. unfold Q_of_duration, Qle. cbn [Qnum Qden]. lia. Qed.

Lemma backoff_nonneg k : (0 <= backoff k)%Q.
Proof. unfold backoff, Qle, RETRY_DELAY, inject_Z. cbn [Qnum Qden]. lia. Qed.

Section Attempts.

Variables (E : env) (model : pystr) (p : prompt) (retries : nat).

Lemma attempts_step todo attempt w :
  attempts E model p retries (S todo) attempt w =
  let w1 := {| st := st w;
               clock := (clock w
                         + Q_of_duration (took (llm_svc E (requests w) model p)))%Q;
               requests := S (requests w);
               trace := trace w ++ [Requested (clock w) model p] |} in
  match result (llm_svc E (requests w) model p) with
  | inl resp =>
    (Some resp, with_st (set_last_request_time (clock w1) (st w1)) w1)
  | inr e =>
    if (attempt <? retries - 1)%nat
    then attempts E model p retries todo (S attempt)
           (sleep (backoff (S attempt)) w1)
    else (None, emit (StError (u "LLM request failed: " ++ e)) w1)
  end.
Proof.
  simpl. unfold complete, backoff. simpl. rewrite Nat.add_1_r.
  destruct (result (llm_svc E (requests w) model p)); reflexivity.
Qed.

(** The events of the retry loop: one request per attempt, the backoff
    after each failed attempt but the last, one error at the end of a
    failed run. *)
Lemma attempts_events : forall todo attempt w r w',
  (todo + attempt = retries)%nat ->
  attempts E model p retries todo attempt w = (r, w') ->
  exists evs,
    trace w' = trace w ++ evs /\
    (requests_in evs <= todo)%nat /\
    (todo <> 0%nat -> (1 <= requests_in evs)%nat) /\
    sleeps evs = map backoff (seq (S attempt) (requests_in evs - 1)) /\
    match r with
    | None =>
      todo <> 0%nat ->
      requests_in evs = todo /\
      exists e, errors evs = [u "LLM request failed: " ++ e]
    | Some _ => errors evs = []
    end.
Proof.
  induction todo as [|todo IH]; intros attempt w r w' Hinv H.
  - simpl in H. inv H. exists []. rewrite app_nil_r.
    repeat split; trivial; try lia.
  - rewrite attempts_step in H. cbv zeta in H.
    destruct (result (llm_svc E (requests w) model p)) as [resp|e].
    + inv H. exists [Requested (clock w) model p]. simpl.
      repeat split; trivial; unfold requests_in; simpl; lia.
    + destruct (attempt <? retries - 1)%nat eqn:Hlt.
      * apply Nat.ltb_lt in Hlt.
        apply IH in H; [|lia].
        destruct H as (evs & Ht & Hle & Hge & Hs & Hr).
        exists (Requested (clock w) model p :: Slept (backoff (S attempt)) :: evs).
        simpl in Ht. rewrite <- !app_assoc in Ht. simpl in Ht.
        assert (Hpos : (1 <= requests_in evs)%nat) by (apply Hge; lia).
        unfold requests_in in *. simpl.
        repeat split; trivial; try lia.
        -- rewrite Hs. rewrite Nat.sub_0_r.
           destruct (List.length (filter is_request evs)) as [|n]; [lia|].
           simpl. rewrite Nat.sub_0_r. reflexivity.
        -- destruct r as [resp|]; [exact Hr|].
           intros _. destruct Hr as [Hn He]; [lia|]. split; [lia | exact He].
      * apply Nat.ltb_ge in Hlt. inv H.
        exists [Requested (clock w) model p;
                StError (u "LLM request failed: " ++ e)].
        simpl. rewrite <- app_assoc. unfold requests_in. simpl.
        repeat split; trivial; try lia. eauto.
Qed.

(** The marker moves only on success, to the time the request came
    back. *)
Lemma attempts_marker : forall todo attempt w r w',
  attempts E model p retries todo attempt w = (r, w') ->
  match r with
  | None => st w' = st w
  | Some _ =>
    last_request_time (st w') = clock w' /\
    set_last_request_time (last_request_time (st w)) (st w') = st w
  end.
Proof.
  induction todo as [|todo IH]; intros attempt w r w' H.
  - simpl in H. inv H. reflexivity.
  - rewrite attempts_step in H. cbv zeta in H.
    destruct (result (llm_svc E (requests w) model p)) as [resp|e].
    + inv H. simpl. split; [reflexivity|]. destruct (st w); reflexivity.
    + destruct (attempt <? retries - 1)%nat.
      * apply IH in H. exact H.
      * inv H. reflexivity.
Qed.

Lemma attempts_clock : forall todo attempt w r w',
  attempts E model p retries todo attempt w = (r, w') ->
  (clock w <= clock w')%Q.
Proof.
  induction todo as [|todo IH]; intros attempt w r w' H.
  - simpl in H. inv H. apply Qle_refl.
  - rewrite attempts_step in H. cbv zeta in H.
    pose proof (Q_of_duration_nonneg (took (llm_svc E (requests w) model p))).
    destruct (result (llm_svc E (requests w) model p)) as [resp|e].
    + inv H. simpl. lra.
    + destruct (attempt <? retries - 1)%nat.
      * apply IH in H. simpl in H.
        pose proof (backoff_nonneg (S attempt)). lra.
      * inv H. simpl. lra.
Qed.

Lemma attempts_extends : forall todo attempt w r w',
  attempts E model p retries todo attempt w = (r, w') ->
  exists evs, trace w' = trace w ++ evs.
Proof.
  induction todo as [|todo IH]; intros attempt w r w' H.
  - simpl in H. inv H. exists []. rewrite app_nil_r. reflexivity.
  - rewrite attempts_step in H. cbv zeta in H.
    destruct (result (llm_svc E (requests w) model p)) as [resp|e].
    + inv H. simpl. eauto.
    + destruct (attempt <? retries - 1)%nat.
      * apply IH in H. destruct H as (evs & Ht). simpl in Ht.
        rewrite <- !app_assoc in Ht. eauto.
      * inv H. simpl. rewrite <- app_assoc. eauto.
Qed.

(** The first attempt is issued at once. *)
Lemma attempts_first_request todo attempt w r w' :
  attempts E model p retries (S todo) attempt w = (r, w') ->
  exists rest, trace w' = trace w ++ Requested (clock w) model p :: rest.
Proof.
  intros H. rewrite attempts_step in H. cbv zeta in H.
  destruct (result (llm_svc E (requests w) model p)) as [resp|e].
  - inv H. exists []. reflexivity.
  - destruct (attempt <? retries - 1)%nat.
    + apply attempts_extends in H. destruct H as (evs & Ht). simpl in Ht.
      rewrite <- !app_assoc in Ht. simpl in Ht. eauto.
    + inv H. simpl. rewrite <- app_assoc. simpl. eauto.
Qed.

(** A successful run ends with the request that succeeded. *)
Lemma attempts_last_request : forall todo attempt w resp w',
  attempts E model p retries todo attempt w = (Some resp, w') ->
  exists before t,
    trace w' = trace w ++ before ++ [Requested t model p] /\
    (clock w <= t)%Q /\ (t <= clock w')%Q.
Proof.
  induction todo as [|todo IH]; intros attempt w resp w' H.
  - simpl in H. discriminate.
  - rewrite attempts_step in H. cbv zeta in H.
    pose proof (Q_of_duration_nonneg (took (llm_svc E (requests w) model p))).
    destruct (result (llm_svc E (requests w) model p)) as [resp0|e].
    + inv H. exists [], (clock w). simpl. repeat split; trivial; lra.
    + destruct (attempt <? retries - 1)%nat; [|discriminate].
      apply IH in H. destruct H as (before & t & Ht & Hl & Hu).
      simpl in Ht, Hl. rewrite <- !app_assoc in Ht. simpl in Ht.
      exists (Requested (clock w) model p :: Slept (backoff (S attempt))
                :: before), t.
      pose proof (backoff_nonneg (S attempt)).
      repeat split; trivial; lra.
Qed.

End Attempts.

Lemma throttle_st w : st (throttle w) = st w.
Proof. unfold throttle. destruct (Qltb _ _); reflexivity. Qed.

Lemma Qltb_false a b : Qltb a b = false -> (b <= a)%Q.
Proof.
  unfold Qltb. intros H. apply negb_false_iff in H.
  apply Qle_bool_iff. exact H.
Qed.

(** The throttle leaves the clock no earlier than one interval after the
    marker, and waits exactly the remaining part of the interval. *)
Lemma throttle_clock w :
  let elapsed := (clock w - last_request_time (st w))%Q in
  (last_request_time (st w) + MIN_REQUEST_INTERVAL <= clock (throttle w))%Q /\
  trace (throttle w) =
    trace w ++ (if Qltb elapsed MIN_REQUEST_INTERVAL
                then [Slept (MIN_REQUEST_INTERVAL - elapsed)] else []).
Proof.
  unfold throttle. cbv zeta.
  destruct (Qltb (clock w - last_request_time (st w)) MIN_REQUEST_INTERVAL)
    eqn:Hlt.
  - simpl. split; [|reflexivity]. unfold MIN_REQUEST_INTERVAL. lra.
  - apply Qltb_false in Hlt. rewrite app_nil_r. split; [|reflexivity].
    unfold MIN_REQUEST_INTERVAL in *. lra.
Qed.

(** The three ways a call with two attempts can go. *)
Lemma llm_complete_two_attempts (E : env) (model : pystr) (p : prompt)
      (w : world) :
  let '(r, w') := llm_complete E model p 2 w in
  exists t1,
    (exists resp,
        r = Some resp /\
        trace w' = trace (throttle w) ++ [Requested t1 model p]) \/
    (exists t2 resp,
        r = Some resp /\
        trace w' = trace (throttle w)
                   ++ [Requested t1 model p; Slept 5; Requested t2 model p]) \/
    (exists t2 e,
        r = None /\
        trace w' = trace (throttle w)
                   ++ [Requested t1 model p; Slept 5; Requested t2 model p;
                       StError (u "LLM request failed: " ++ e)]).
Proof.
  unfold llm_complete. rewrite attempts_step. cbv zeta.
  set (w0 := throttle w).
  destruct (result (llm_svc E (requests w0) model p)) as [resp|e].
  - exists (clock w0). left. exists resp. split; reflexivity.
  - change (0 <? 2 - 1)%nat with true. cbv iota.
    rewrite attempts_step. cbv zeta. cbn [requests clock trace st sleep emit tick].
    match goal with
    | |- context [result ?x] => destruct (result x) as [resp|e2]
    end.
    + exists (clock w0). right. left. eexists. exists resp.
      split; [reflexivity|]. cbn [trace with_st]. rewrite <- !app_assoc.
      reflexivity.
    + change (1 <? 2 - 1)%nat with false. cbv iota.
      exists (clock w0). right. right. eexists. exists e2.
      split; [reflexivity|]. cbn [trace emit]. rewrite <- !app_assoc.
      reflexivity.
Qed.


(** C5: after a successful completion call, the next call issues its first
    request no earlier than MIN_REQUEST_INTERVAL after the marker, which
    holds the time at which the successful request came back: the client
    first sleeps for what is left of the interval.  A call that fails
    leaves the marker as it was. *)
Theorem llm_complete_throttle (E : env) (m1 m2 : pystr) (p1 p2 : prompt)
        (retries1 retries2 : nat) (idle : duration) (w : world) :
  let '(r1, w1) := llm_complete E m1 p1 retries1 w in
  let w1' := tick (Q_of_duration idle) w1 in
  let '(r2, w2) := llm_complete E m2 p2 (S retries2) w1' in
  (r1 = None -> last_request_time (st w1) = last_request_time (st w)) /\
  (r1 <> None ->
   let marker := last_request_time (st w1) in
   let elapsed := (clock w1' - marker)%Q in
   exists before t1 t2 rest,
     trace w1 = trace w ++ before ++ [Requested t1 m1 p1] /\
     (t1 <= marker)%Q /\
     trace w2 = trace w1
                ++ (if Qltb elapsed MIN_REQUEST_INTERVAL
                    then [Slept (MIN_REQUEST_INTERVAL - elapsed)] else [])
                ++ Requested t2 m2 p2 :: rest /\
     (marker + MIN_REQUEST_INTERVAL <= t2)%Q /\
     (t1 + MIN_REQUEST_INTERVAL <= t2)%Q).
Proof.
  unfold llm_complete.
  destruct (attempts E m1 p1 retries1 retries1 0 (throttle w)) as [r1 w1] eqn:H1.
  cbv zeta.
  destruct (attempts E m2 p2 (S retries2) (S retries2) 0
              (throttle (tick (Q_of_duration idle) w1))) as [r2 w2] eqn:H2.
  split.
  - intros ->. apply attempts_marker in H1. rewrite H1, throttle_st. reflexivity.
  - intros Hr. destruct r1 as [resp|]; [clear Hr | congruence].
    pose proof (attempts_marker _ _ _ _ _ _ _ H1) as [Hm _].
    apply attempts_last_request in H1.
    destruct H1 as (before & t1 & Ht1 & _ & Hu).
    destruct (throttle_clock w) as [_ Htw]. rewrite Htw in Ht1.
    apply attempts_first_request in H2. destruct H2 as (rest & Ht2).
    destruct (throttle_clock (tick (Q_of_duration idle) w1)) as [Hc Htw2].
    cbv zeta in Htw2. rewrite Htw2 in Ht2.
    exists ((if Qltb (clock w - last_request_time (st w)) MIN_REQUEST_INTERVAL
             then [Slept (MIN_REQUEST_INTERVAL
                          - (clock w - last_request_time (st w)))]
             else []) ++ before), t1,
           (clock (throttle (tick (Q_of_duration idle) w1))), rest.
    simpl in Hc, Ht2 |- *. rewrite <- !app_assoc in Ht1, Ht2.
    rewrite <- !app_assoc.
    rewrite Hm in Hc, Ht2 |- *.
    repeat split;
      first [ assumption | unfold MIN_REQUEST_INTERVAL in *; lra ].
Qed.

(* ===================================================================== *)
(** * The orchestrator                                                    *)
(* ===================================================================== *)

Lemma same_but_marker_refl s : same_but_marker s s.
Proof. unfold same_but_marker. destruct s; reflexivity. Qed.

Lemma lower_nonempty s : s <> [] -> lower s <> [].
Proof. destruct s; simpl; congruence. Qed.

(** A product that the classifier returns is never the empty string. *)
Lemma extract_product_nonempty text p :
  fst (fst (fst (V2.extract_cbam_request text))) = Some p -> p <> [].
Proof.
  unfold V2.extract_cbam_request. simpl.
  pose proof (re_search_qty text) as H.
  destruct (re_search V2.qty_re text) as [m|]; [|discriminate].
  destruct H as (pre & mid & post & g1 & g2 & _ & Hs & _ & Hg2).
  intros E. inv E. apply lower_nonempty.
  destruct Hs as (ws1 & t & ws2 & o & _ & _ & _ & _ & _ & _ & Hw).
  apply Hw.
Qed.

Lemma fast_path_factor_some prod qty em p n x :
  fast_path_factor prod qty em = Some (p, n, x) <->
  prod = Some p /\ p <> [] /\ qty = Some n /\ n <> 0 /\
  (em = Some x \/ (em = None /\ dict_get Cfg2.DEFAULT_EMISSIONS p = Some x)).
Proof.
  unfold fast_path_factor. split.
  - destruct prod as [[|c p0]|]; try discriminate;
      destruct qty as [[|q]|]; try discriminate;
      cbn [truthy_str truthy_int andb].
    destruct em as [e|].
    + intros H; inv H. repeat split; try discriminate. auto.
    + destruct (dict_get Cfg2.DEFAULT_EMISSIONS (c :: p0)) eqn:D; [|discriminate].
      intros H; inv H. repeat split; try discriminate. auto.
  - intros (-> & Hp & -> & Hn & H).
    destruct p as [|c p]; [congruence|]. destruct n as [|q]; [congruence|].
    cbn [truthy_str truthy_int andb].
    destruct H as [-> | [-> ->]]; reflexivity.
Qed.

Lemma cortex_search_effects E q w :
  st (snd (Retr2.cortex_search E q w)) = st w /\
  exists evs,
    trace (snd (Retr2.cortex_search E q w))
    = trace w ++ Searched q NUM_RESULTS :: evs.
Proof.
  unfold Retr2.cortex_search.
  destruct (result (search_svc E q NUM_RESULTS)); simpl.
  - split; [reflexivity|]. exists []. reflexivity.
  - split; [reflexivity|]. eexists. rewrite <- app_assoc. reflexivity.
Qed.

Lemma build_prompt_events E q w :
  let '((p, src), w') := build_prompt E q w in
  st w' = st w /\
  exists evs, trace w' = trace w ++ Searched q NUM_RESULTS :: evs /\
              errors evs = errors evs.
Proof.
  unfold build_prompt.
  pose proof (cortex_search_effects E q w) as H.
  destruct (Retr2.cortex_search E q w) as [[ctx src] w'].
  destruct H as (Hst & evs & Ht). split; [exact Hst|].
  exists evs. split; [exact Ht | reflexivity].
Qed.

(** The slow path always searches and always issues a completion
    request, whatever the search returned. *)
Lemma slow_path_events E q w :
  let '(ending, w') := slow_path E q w in
  ending = Finished /\
  same_prices (st w) (st w') /\
  exists evs,
    trace w' = trace w ++ evs /\
    In (Searched q NUM_RESULTS) evs /\
    exists t p, In (Requested t MODEL_NAME p) evs.
Proof.
  unfold slow_path.
  pose proof (build_prompt_events E q w) as Hb.
  destruct (build_prompt E q w) as [[p src] wp].
  destruct Hb as (Hst & evs1 & Ht1 & _).
  unfold llm_complete.
  destruct (attempts E MODEL_NAME p 2 2 0 (throttle wp)) as [answer wl] eqn:Ha.
  pose proof (attempts_first_request _ _ _ _ _ _ _ Ha) as (rest & Ht2).
  pose proof (throttle_clock wp) as [_ Htw]. cbv zeta in Htw.
  pose proof (attempts_marker _ _ _ _ _ _ _ Ha) as Hm.
  rewrite Htw, Ht1 in Ht2. rewrite <- !app_assoc in Ht2. simpl in Ht2.
  assert (Hp : same_prices (st w) (st wl)).
  { rewrite <- Hst, <- (throttle_st wp). destruct answer.
    - destruct Hm as [_ Hm]. rewrite <- Hm. unfold same_prices. simpl. auto.
    - rewrite Hm. unfold same_prices. auto. }
  set (evs0 := Searched q NUM_RESULTS
                 :: evs1
                    ++ (if Qltb (clock wp - last_request_time (st wp))
                                MIN_REQUEST_INTERVAL
                        then [Slept (MIN_REQUEST_INTERVAL
                                     - (clock wp - last_request_time (st wp)))]
                        else [])
                    ++ Requested (clock (throttle wp)) MODEL_NAME p :: rest)
    in Ht2.
  assert (Hs : In (Searched q NUM_RESULTS) evs0) by (left; reflexivity).
  assert (Hr : In (Requested (clock (throttle wp)) MODEL_NAME p) evs0).
  { right. apply in_or_app. right. apply in_or_app. right. left. reflexivity. }
  clearbody evs0.
  destruct answer as [[|c a]|].
  - split; [reflexivity|]. split; [exact Hp|]. exists evs0. eauto.
  - split; [reflexivity|]. split; [exact Hp|].
    exists (evs0 ++ [StMarkdown assistant (Text (c :: a));
                     StCaption (u "Source: " ++ src)]).
    cbn [append_message emit trace with_st]. rewrite Ht2, <- !app_assoc.
    split; [reflexivity|]. split; [apply in_or_app; auto|].
    eexists; eexists; apply in_or_app; left; exact Hr.
  - split; [reflexivity|]. split; [exact Hp|]. exists evs0. eauto.
Qed.


Lemma main_nonempty E (question : pystr) w :
  question <> [] -> main E (Some question) w = main_turn E question w.
Proof. destruct question; [congruence | reflexivity]. Qed.

Lemma quiet_not_in evs e : In e evs -> calls_out e = true -> ~ quiet evs.
Proof.
  unfold quiet. intros Hin Hc Hq.
  rewrite forallb_forall in Hq. apply Hq in Hin. rewrite Hc in Hin.
  discriminate.
Qed.






(* ===================================================================== *)
(** * The carbon-price controls                                           *)
(* ===================================================================== *)

Lemma main_same_prices E input w :
  same_prices (st w) (st (snd (main E input w))).
Proof.
  destruct input as [[|c q]|]; try (repeat split; reflexivity).
  cbn [main]. unfold main_turn.
  destruct (V2.extract_cbam_request (c :: q)) as [[[prod qty] em] origin].
  destruct (fast_path_factor prod qty em) as [[[p n] x]|].
  - destruct (float_of_int n); repeat split; reflexivity.
  - match goal with
    | |- context [slow_path E ?q0 ?w0] =>
      pose proof (slow_path_events E q0 w0) as H;
      destruct (slow_path E q0 w0) as [ending w']
    end.
    destruct H as (_ & H & _). exact H.
Qed.

Lemma render_config_ui_exclusive c w :
  exclusive (st w) -> exclusive (st (render_config_ui c w)).
Proof.
  unfold exclusive. intros H.
  destruct c as [| | date | v]; cbn [render_config_ui].
  - destruct (reset_shown (st w)); [|exact H]. simpl. intros [? ?]. congruence.
  - exact H.
  - destruct (dict_get Cfg2.RECENT_PRICES date); [|exact H].
    simpl. intros [? ?]. congruence.
  - destruct (manual_disabled (st w)); [exact H|].
    destruct (F64.ltb F64.zero v); [|exact H].
    simpl. intros [? ?]. congruence.
Qed.

Lemma reachable_exclusive s : reachable s -> exclusive s.
Proof.
  induction 1 as [| c w _ IH | E input w _ IH].
  - unfold exclusive. simpl. intros [? ?]. congruence.
  - apply render_config_ui_exclusive. exact IH.
  - destruct (main_same_prices E input w) as (_ & Hm & Hh).
    unfold exclusive in *. rewrite Hm, Hh. exact IH.
Qed.

(** C8: in every reachable session state the manual override and the
    historic-date selection are not both active.  Selecting a historic date
    clears the manual override; committing a manual price clears the
    historic selection; reset clears both and restores the default price; a
    rejected manual entry (not greater than zero) leaves the session state
    unchanged; and while a historic date is active the manual entry is
    disabled and cannot change anything. *)
Theorem price_overrides_exclusive :
  (forall s, reachable s -> exclusive s) /\
  (forall w date price,
      dict_get Cfg2.RECENT_PRICES date = Some price ->
      let s' := st (render_config_ui (ClickHistoric date) w) in
      selected_historic_date s' = Some date /\
      manual_override_price s' = None /\
      carbon_price s' = price) /\
  (forall w new_price,
      manual_disabled (st w) = false ->
      F64.ltb F64.zero new_price = true ->
      let s' := st (render_config_ui (ClickUpdatePrice new_price) w) in
      manual_override_price s' = Some new_price /\
      selected_historic_date s' = None /\
      carbon_price s' = new_price) /\
  (forall w,
      reset_shown (st w) = true ->
      let s' := st (render_config_ui ClickReset w) in
      manual_override_price s' = None /\
      selected_historic_date s' = None /\
      carbon_price s' = Cfg2.DEFAULT_CARBON_PRICE) /\
  (forall w new_price,
      F64.ltb F64.zero new_price = false ->
      st (render_config_ui (ClickUpdatePrice new_price) w) = st w) /\
  (forall w new_price,
      selected_historic_date (st w) <> None ->
      manual_disabled (st w) = true /\
      render_config_ui (ClickUpdatePrice new_price) w = w).
Proof.
  split; [exact reachable_exclusive|].
  split; [|split; [|split; [|split]]].
  - intros w date price H. cbn [render_config_ui]. rewrite H. simpl. auto.
  - intros w v Hd Hv. cbn [render_config_ui]. rewrite Hd, Hv. simpl. auto.
  - intros w Hr. cbn [render_config_ui]. rewrite Hr. simpl. auto.
  - intros w v Hv. cbn [render_config_ui]. rewrite Hv.
    destruct (manual_disabled (st w)); reflexivity.
  - intros w v Hh. unfold manual_disabled. cbn [render_config_ui].
    unfold manual_disabled.
    destruct (selected_historic_date (st w)); [|congruence].
    split; reflexivity.
Qed.

Lemma price_overrides_exclusive_witness :
  let w := render_config_ui (ClickUpdatePrice (f "90.5"))
             (render_config_ui (ClickHistoric (u "2025-09-15")) fresh_world) in
  reachable (st w) /\ exclusive (st w) /\
  selected_historic_date (st w) = Some (u "2025-09-15") /\
  carbon_price (st w) = f "74.80".
Proof.
  cbv zeta.
  assert (R : reachable
                (st (render_config_ui (ClickUpdatePrice (f "90.5"))
                       (render_config_ui (ClickHistoric (u "2025-09-15"))
                                         fresh_world)))).
  { apply reach_click. apply reach_click. exact reach_init. }
  split; [exact R|]. split.
  - exact (proj1 price_overrides_exclusive _ R).
  - vm_compute. split; reflexivity.
Defined.

Lemma llm_complete_throttle_witness :
  let E := stub_env (inl (u "ok")) in
  let p := {| p_ctx := []; p_price := Cfg2.DEFAULT_CARBON_PRICE;
              p_history := []; p_question := u "q" |} in
  let w1 := snd (llm_complete E MODEL_NAME p 2 fresh_world) in
  let w2 := snd (llm_complete E MODEL_NAME p 2
                   (tick (Q_of_duration no_time) w1)) in
  fst (llm_complete E MODEL_NAME p 2 fresh_world) <> None /\
  exists t1 t2,
    trace w2 = [Requested t1 MODEL_NAME p; Slept 2; Requested t2 MODEL_NAME p] /\
    (t1 + MIN_REQUEST_INTERVAL <= t2)%Q.
Proof.
  cbv zeta.
  pose proof (@llm_complete_throttle (stub_env (inl (u "ok")))
                MODEL_NAME MODEL_NAME
                {| p_ctx := []; p_price := Cfg2.DEFAULT_CARBON_PRICE;
                   p_history := []; p_question := u "q" |}
                {| p_ctx := []; p_price := Cfg2.DEFAULT_CARBON_PRICE;
                   p_history := []; p_question := u "q" |}
                2 1 no_time fresh_world) as H.
  destruct (llm_complete (stub_env (inl (u "ok"))) MODEL_NAME _ 2 fresh_world)
    as [r1 w1] eqn:L1.
  cbv zeta in H. cbn [fst snd].
  destruct (llm_complete (stub_env (inl (u "ok"))) MODEL_NAME _ 2
              (tick (Q_of_duration no_time) w1)) as [r2 w2] eqn:L2.
  cbn [snd].
  vm_compute in L1. inv L1.
  split; [discriminate|].
  destruct H as [_ H]. specialize (H ltac:(discriminate)).
  destruct H as (before & t1 & t2 & rest & _ & _ & _ & _ & Hle).
  vm_compute in L2. inv L2.
  exists 1000%Q, (1000 + 0 + (2 - (1000 + 0 + 0 - (1000 + 0))))%Q.
  split; [vm_compute; reflexivity|].
  unfold MIN_REQUEST_INTERVAL. lra.
Defined.

(* ===================================================================== *)
(** * Running the matcher forward                                         *)
(* ===================================================================== *)

Section Forward.

Variable A : Type.
Implicit Types (k : cont A) (s w rest : pystr) (c : caps).

Lemma rmatch_cls_hit (p : N -> bool) x s c k :
p x = true -> rmatch (Cls p) (x :: s) c k = k s c.
Proof. intros H. simpl. rewrite H. reflexivity. Qed.

Lemma rmatch_cls_stops (p : N -> bool) s c k :
stops p s -> rmatch (Cls p) s c k = None.
Proof. destruct s as [|x s]; simpl; [reflexivity|]. intros ->. reflexivity. Qed.

Lemma rmatch_opt r s c k :
rmatch (Re.opt r) s c k = orelse (rmatch r s c k) (fun _ => k s c).
Proof. reflexivity. Qed.

Lemma star_loop_cls_greedy (p : N -> bool) k c a rest :
stops p rest -> k rest c = Some a ->
forall w fuel,
  all_of p w -> (List.length (w ++ rest) <= fuel)%nat ->
  star_loop (rmatch (Cls p)) true fuel (w ++ rest) c k = Some a.
Proof.
intros Hstop Hk. induction w as [|x w IH]; intros fuel Hw Hf.
- destruct fuel; cbn [star_loop app]; [exact Hk|].
  rewrite rmatch_cls_stops by exact Hstop. exact Hk.
- apply all_of_cons in Hw. destruct Hw as [Hx Hw].
  destruct fuel as [|fuel]; [simpl in Hf; lia|].
  cbn [star_loop]. change ((x :: w) ++ rest) with (x :: w ++ rest).
  rewrite rmatch_cls_hit by exact Hx.
  replace (List.length (w ++ rest) <? List.length (x :: w ++ rest))%nat
    with true by (symmetry; apply Nat.ltb_lt; simpl; lia).
  rewrite IH; [reflexivity | exact Hw | simpl in Hf; lia].
Qed.

Lemma rmatch_star_cls_greedy (p : N -> bool) k c a w rest :
all_of p w -> stops p rest -> k rest c = Some a ->
rmatch (Star true (Cls p)) (w ++ rest) c k = Some a.
Proof.
intros Hw Hs Hk. rewrite rmatch_star.
apply star_loop_cls_greedy; auto.
Qed.

Lemma rmatch_plus_cls_greedy (p : N -> bool) k c a w rest :
some_of p w -> stops p rest -> k rest c = Some a ->
rmatch (Re.plus (Cls p)) (w ++ rest) c k = Some a.
Proof.
intros [Hne Hw] Hs Hk. destruct w as [|x w]; [congruence|].
apply all_of_cons in Hw. destruct Hw as [Hx Hw].
unfold Re.plus. rewrite rmatch_cat.
change ((x :: w) ++ rest) with (x :: w ++ rest).
rewrite rmatch_cls_hit by exact Hx.
apply rmatch_star_cls_greedy; assumption.
Qed.

Lemma star_loop_cls_none (p : N -> bool) g k c rest :
stops p rest ->
forall w fuel,
  all_of p w ->
  (forall w1 w2, w = w1 ++ w2 -> k (w2 ++ rest) c = None) ->
  star_loop (rmatch (Cls p)) g fuel (w ++ rest) c k = None.
Proof.
intros Hstop. induction w as [|x w IH]; intros fuel Hw Hk.
- pose proof (Hk [] [] eq_refl) as Hk0. simpl in Hk0.
  destruct fuel; cbn [star_loop app]; [exact Hk0|].
  rewrite rmatch_cls_stops by exact Hstop. rewrite Hk0.
  destruct g; reflexivity.
- apply all_of_cons in Hw. destruct Hw as [Hx Hw].
  pose proof (Hk [] (x :: w) eq_refl) as Hk0.
  destruct fuel as [|fuel]; [exact Hk0|].
  cbn [star_loop]. change ((x :: w) ++ rest) with (x :: w ++ rest) in *.
  rewrite rmatch_cls_hit by exact Hx. rewrite Hk0.
  assert (Hin : star_loop (rmatch (Cls p)) g fuel (w ++ rest) c k = None).
  { apply IH; [exact Hw|]. intros w1 w2 E. apply (Hk (x :: w1) w2).
    rewrite E. reflexivity. }
  rewrite Hin.
  destruct (List.length (w ++ rest) <? List.length (x :: w ++ rest))%nat;
    destruct g; reflexivity.
Qed.

Lemma rmatch_star_cls_none (p : N -> bool) g k c w rest :
all_of p w -> stops p rest ->
(forall w1 w2, w = w1 ++ w2 -> k (w2 ++ rest) c = None) ->
rmatch (Star g (Cls p)) (w ++ rest) c k = None.
Proof.
intros Hw Hs Hk. rewrite rmatch_star. apply star_loop_cls_none; auto.
Qed.

Lemma star_loop_cls_lazy (p : N -> bool) k c a rest :
k rest c = Some a ->
forall gap fuel,
  all_of p gap -> (List.length (gap ++ rest) <= fuel)%nat ->
  (forall g1 g2, gap = g1 ++ g2 -> g2 <> [] -> k (g2 ++ rest) c = None) ->
  star_loop (rmatch (Cls p)) false fuel (gap ++ rest) c k = Some a.
Proof.
intros Hk. induction gap as [|x gap IH]; intros fuel Hg Hf Hmin.
- destruct fuel; cbn [star_loop app]; [exact Hk|]. rewrite Hk. reflexivity.
- apply all_of_cons in Hg. destruct Hg as [Hx Hg].
  destruct fuel as [|fuel]; [simpl in Hf; lia|].
  cbn [star_loop].
  rewrite (Hmin [] (x :: gap) eq_refl) by discriminate.
  change ((x :: gap) ++ rest) with (x :: gap ++ rest).
  cbn [orelse]. rewrite rmatch_cls_hit by exact Hx.
  replace (List.length (gap ++ rest) <? List.length (x :: gap ++ rest))%nat
    with true by (symmetry; apply Nat.ltb_lt; simpl; lia).
  apply IH; [exact Hg | simpl in Hf; lia|].
  intros g1 g2 E Hne. apply (Hmin (x :: g1) g2); [|exact Hne].
  rewrite E. reflexivity.
Qed.

Lemma star_skip g r s c k :
(forall k', rmatch (A:=A) r s c k' = None) ->
rmatch (Star g r) s c k = k s c.
Proof.
intros H. rewrite rmatch_star.
destruct (List.length s); cbn [star_loop]; [reflexivity|].
rewrite H. destruct g; simpl; [reflexivity|]. destruct (k s c); reflexivity.
Qed.

Lemma rmatch_str_i_eval lit : forall s c k,
rmatch (Re.str_i lit) s c k =
if starts_with_ci lit s then k (skipn (List.length lit) s) c else None.
Proof.
unfold Re.str_i. induction lit as [|l lit IH]; intros s c k.
- reflexivity.
- assert (Hcat : rmatch (Re.seq (map Re.lit_i (l :: lit))) s c k =
                 rmatch (Re.lit_i l) s c
                   (fun s' c' => rmatch (Re.seq (map Re.lit_i lit)) s' c' k)).
  { destruct lit; reflexivity. }
  rewrite Hcat. destruct s as [|x s]; [reflexivity|].
  cbn [starts_with_ci skipn List.length]. unfold Re.lit_i at 1. cbn [rmatch].
  destruct (lower_char x =? lower_char l); [|reflexivity].
  rewrite IH. reflexivity.
Qed.

End Forward.

Lemma search_from_hit r i s m :
  match_at r i s = Some m -> search_from r i s = Some m.
Proof. intros H. destruct s; simpl; rewrite H; reflexivity. Qed.

Lemma search_from_skip r rest : forall pre i,
  (forall a b, pre = a ++ b -> b <> [] -> fails_at r (b ++ rest)) ->
  search_from r i (pre ++ rest) = search_from r (i + List.length pre) rest.
Proof.
  induction pre as [|x pre IH]; intros i H.
  - simpl. rewrite Nat.add_0_r. reflexivity.
  - simpl. unfold match_at.
    rewrite (H [] (x :: pre) eq_refl ltac:(discriminate)).
    rewrite IH.
    + f_equal. lia.
    + intros a b E Hne. apply (H (x :: a) b); [|exact Hne].
      rewrite E. reflexivity.
Qed.

Lemma search_from_skip1 r x s i :
  fails_at r (x :: s) -> search_from r i (x :: s) = search_from r (S i) s.
Proof. intros H. simpl. unfold match_at. rewrite H. reflexivity. Qed.

(* ===================================================================== *)
(** * The normalized form of a request                                    *)
(* ===================================================================== *)

Ltac char_solve :=
  unfold all_of, some_of, stops, is_word, lower_char, not_newline in *;
  unfold is_digit, is_space, is_lower, is_upper, newline, comma in *;
  repeat match goal with
         | H : _ && _ = true |- _ => apply andb_true_iff in H; destruct H
         | H : (_ <=? _) = true |- _ => apply N.leb_le in H
         | H : (_ =? _) = true |- _ => apply N.eqb_eq in H
         end;
  repeat match goal with
         | |- context [?a <=? ?b] => destruct (N.leb_spec a b)
         | |- context [?a =? ?b] => destruct (N.eqb_spec a b)
         end;
  cbn [andb orb negb] in *; intros;
  try reflexivity; try discriminate; try lia.

Lemma digit_not_space x : is_digit x = true -> is_space x = false.
Proof. intros H. char_solve. Qed.

Lemma digit_is_word x : is_digit x = true -> is_word x = true.
Proof. intros H. char_solve. Qed.

Lemma lower_is_word x : is_lower x = true -> is_word x = true.
Proof. intros H. char_solve. Qed.

Lemma lower_not_digit x : is_lower x = true -> is_digit x = false.
Proof. intros H. char_solve. Qed.

Lemma lower_not_space x : is_lower x = true -> is_space x = false.
Proof. intros H. char_solve. Qed.

Lemma lower_char_lower x : is_lower x = true -> lower_char x = x.
Proof. intros H. char_solve. Qed.

Lemma lower_char_digit x : is_digit x = true -> lower_char x = x.
Proof. intros H. char_solve. Qed.

Lemma chars_of_uint_digits d : all_of is_digit (chars_of_uint d).
Proof.
  unfold all_of. induction d; simpl; try rewrite IHd; reflexivity.
Qed.

Lemma str_of_int_digits n : some_of is_digit (str_of_int n).
Proof.
  split; [|apply chars_of_uint_digits].
  unfold str_of_int. destruct n as [|p]; [discriminate|].
  simpl. pose proof (DecimalPos.Unsigned.to_uint_nonnil p) as H.
  destruct (Pos.to_uint p); [congruence | discriminate ..].
Qed.

Lemma int_of_digits_revapp d : forall acc,
  fold_left (fun a c => a * 10 + digit_val c) (chars_of_uint d)
            (DecimalPos.Unsigned.of_lu acc)
  = DecimalPos.Unsigned.of_lu (Decimal.revapp d acc).
Proof.
  induction d; intros acc; cbn [chars_of_uint fold_left Decimal.revapp];
    try reflexivity;
    rewrite <- IHd; f_equal; unfold digit_val;
    cbn [DecimalPos.Unsigned.of_lu]; lia.
Qed.

(** [int(str(n)) = n] *)
Lemma int_of_str_of_int n : int_of_digits (str_of_int n) = n.
Proof.
  unfold int_of_digits, str_of_int.
  change 0 with (DecimalPos.Unsigned.of_lu Decimal.Nil).
  rewrite int_of_digits_revapp.
  change (Decimal.revapp (N.to_uint n) Decimal.Nil)
    with (Decimal.rev (N.to_uint n)).
  rewrite <- DecimalPos.Unsigned.of_uint_alt.
  apply DecimalN.Unsigned.of_to.
Qed.

Lemma remove_char_absent c s :
  forallb (fun x => negb (x =? c)) s = true -> remove_char c s = s.
Proof.
  unfold remove_char. induction s as [|x s IH]; simpl; [reflexivity|].
  intros H. apply andb_true_iff in H. destruct H as [Hx Hs].
  rewrite Hx, IH; auto.
Qed.

Lemma digits_no_comma s : all_of is_digit s -> remove_char comma s = s.
Proof.
  intros H. apply remove_char_absent. unfold all_of in H.
  rewrite forallb_forall in *. intros x Hx. specialize (H x Hx). char_solve.
Qed.

Lemma lower_of_lower s : forallb is_lower s = true -> lower s = s.
Proof.
  induction s as [|x s IH]; simpl; [reflexivity|].
  intros H. apply andb_true_iff in H. destruct H as [Hx Hs].
  rewrite lower_char_lower, IH; auto.
Qed.

Lemma split_dot_digits ip : all_of is_digit ip ->
  forall rest, F64.split_dot (ip ++ rest) =
               (ip ++ fst (F64.split_dot rest), snd (F64.split_dot rest)).
Proof.
  induction ip as [|x ip IH]; intros H rest.
  - simpl. destruct (F64.split_dot rest); reflexivity.
  - apply all_of_cons in H. destruct H as [Hx H].
    simpl. replace (x =? 46) with false by (symmetry; char_solve).
    rewrite IH by exact H. reflexivity.
Qed.

(** [float(text)] of a rendered literal is the literal's value. *)
Lemma of_str_render_lit x : F64.of_str (render_lit x) = lit_value x.
Proof.
  unfold F64.of_str, render_lit, lit_value.
  rewrite split_dot_digits by apply str_of_int_digits.
  destruct (lit_frac x) eqn:E; simpl F64.split_dot;
    rewrite ?N.eqb_refl; cbn [fst snd]; rewrite ?app_nil_r; reflexivity.
Qed.

Lemma word_not_space x : is_word x = true -> is_space x = false.
Proof. intros H. unfold is_word in H. repeat (apply orb_true_iff in H; destruct H as [H|H]); char_solve. Qed.

Lemma rmatch_opt_taken (A : Type) r s c (k : cont A) a :
  rmatch r s c k = Some a -> rmatch (Re.opt r) s c k = Some a.
Proof. intros H. rewrite rmatch_opt, H. reflexivity. Qed.

Lemma rmatch_opt_skipped (A : Type) r s c (k : cont A) :
  rmatch r s c k = None -> rmatch (Re.opt r) s c k = k s c.
Proof. intros H. rewrite rmatch_opt, H. reflexivity. Qed.

Ltac lit_hit rest' :=
  rewrite rmatch_str_i_eval;
  match goal with
  | |- (if ?b then rmatch ?r ?s ?c ?k else None) = _ =>
    change b with true; cbv iota; change s with rest'
  end.

Lemma qty_forward (A : Type) D P rest (k : cont A) c a :
  some_of is_digit D -> some_of is_word P -> stops is_word rest ->
  k rest ((2%nat, P) :: (1%nat, D) :: c) = Some a ->
  rmatch V2.qty_re (D ++ u " tons of " ++ P ++ rest) c k = Some a.
Proof.
  intros HD HP Hrest Hk.
  change (u " tons of " ++ P ++ rest)
    with ([32] ++ u "tons" ++ [32] ++ u "of" ++ [32] ++ P ++ rest).
  unfold V2.qty_re. cbn [Re.seq].
  rewrite rmatch_cat, rmatch_grp, rmatch_cat.
  unfold Re.digit. apply rmatch_plus_cls_greedy; [exact HD | reflexivity |].
  rewrite star_skip by (intros; reflexivity).
  rewrite firstn_consumed.
  rewrite rmatch_cat. unfold Re.space.
  apply rmatch_plus_cls_greedy; [split; [discriminate | reflexivity] | reflexivity |].
  rewrite rmatch_cat. lit_hit ([115] ++ [32] ++ u "of" ++ [32] ++ P ++ rest).
  rewrite rmatch_cat. apply rmatch_opt_taken.
  unfold Re.lit_i. change ([115] ++ ?x) with (115 :: x).
  rewrite rmatch_cls_hit by reflexivity.
  rewrite rmatch_cat.
  apply rmatch_plus_cls_greedy; [split; [discriminate | reflexivity] | reflexivity |].
  rewrite rmatch_cat. apply rmatch_opt_taken.
  rewrite rmatch_cat. lit_hit ([32] ++ P ++ rest).
  destruct HP as [HPne HPw].
  apply rmatch_plus_cls_greedy; [split; [discriminate | reflexivity] | |].
  { destruct P as [|x P]; [congruence|]. apply all_of_cons in HPw.
    apply word_not_space, HPw. }
  rewrite rmatch_grp. unfold Re.word.
  apply rmatch_plus_cls_greedy; [split; assumption | exact Hrest |].
  rewrite firstn_consumed. exact Hk.
Qed.

Lemma number_forward (A : Type) ip fr rest (k : cont A) c a :
  some_of is_digit ip -> fraction fr -> ends_number rest ->
  k rest c = Some a ->
  rmatch V2.number ((ip ++ fr) ++ rest) c k = Some a.
Proof.
  intros Hip Hfr Hrest Hk. unfold V2.number. rewrite rmatch_cat, <- app_assoc.
  unfold Re.digit.
  assert (Hd : stops is_digit rest).
  { destruct rest as [|x rest]; [exact I|]. unfold ends_number in Hrest.
    simpl in *. apply orb_false_iff in Hrest. tauto. }
  destruct Hfr as [-> | (fp & -> & Hfp)].
  - apply rmatch_plus_cls_greedy; [exact Hip | exact Hd |].
    cbn [app]. rewrite rmatch_opt_skipped; [exact Hk|].
    rewrite rmatch_cat. unfold Re.lit_i. apply rmatch_cls_stops.
    destruct rest as [|x rest]; [exact I|]. unfold ends_number in Hrest.
    simpl in *. apply orb_false_iff in Hrest. destruct Hrest as [_ Hx].
    revert Hx. char_solve.
  - apply rmatch_plus_cls_greedy; [exact Hip | reflexivity |].
    apply rmatch_opt_taken. rewrite rmatch_cat. unfold Re.lit_i.
    change ((46 :: fp) ++ rest) with (46 :: fp ++ rest).
    rewrite rmatch_cls_hit by reflexivity.
    apply rmatch_plus_cls_greedy; assumption.
Qed.

Lemma em_forward (A : Type) ip fr rest (k : cont A) c a :
  some_of is_digit ip -> fraction fr ->
  starts_with_ci (u "/ton") rest = false ->
  k rest ((1%nat, ip ++ fr) :: c) = Some a ->
  rmatch V2.em_re ((ip ++ fr) ++ u " tCO2e" ++ rest) c k = Some a.
Proof.
  intros Hip Hfr Hrest Hk. unfold V2.em_re. cbn [Re.seq].
  rewrite rmatch_cat, rmatch_grp.
  apply number_forward; [exact Hip | exact Hfr | reflexivity |].
  rewrite firstn_consumed. rewrite rmatch_cat.
  change (u " tCO2e" ++ rest) with ([32] ++ u "tCO2e" ++ rest).
  unfold Re.space.
  apply rmatch_star_cls_greedy; [reflexivity | reflexivity |].
  rewrite rmatch_cat. lit_hit ([101] ++ rest).
  rewrite rmatch_cat. apply rmatch_opt_taken. unfold Re.lit_i.
  change ([101] ++ rest) with (101 :: rest).
  rewrite rmatch_cls_hit by reflexivity.
  rewrite rmatch_opt_skipped; [exact Hk|].
  rewrite rmatch_str_i_eval, Hrest. reflexivity.
Qed.

Lemma orelse_some (A : Type) (x : option A) y a :
  x = Some a -> orelse x y = Some a.
Proof. intros ->. reflexivity. Qed.

Lemma origin_forward (A : Type) ip fr rest (k : cont A) c a :
  some_of is_digit ip -> fraction fr -> ends_number rest ->
  k rest ((1%nat, ip ++ fr) :: c) = Some a ->
  rmatch V2.origin_re (u "origin €" ++ (ip ++ fr) ++ rest) c k = Some a.
Proof.
  intros Hip Hfr Hrest Hk. unfold V2.origin_re. cbn [Re.seq].
  rewrite rmatch_cat, rmatch_alt. apply orelse_some.
  lit_hit ([32] ++ u "€" ++ (ip ++ fr) ++ rest).
  rewrite rmatch_cat, rmatch_star. unfold Re.dot.
  apply star_loop_cls_lazy.
  - rewrite rmatch_cat. apply rmatch_opt_taken.
    lit_hit ((ip ++ fr) ++ rest).
    rewrite rmatch_grp. apply number_forward; trivial.
    rewrite firstn_consumed. exact Hk.
  - reflexivity.
  - apply Nat.le_refl.
  - intros g1 g2 E Hne.
    destruct g1 as [|x [|? ?]]; try discriminate.
    + simpl in E. subst g2. rewrite rmatch_cat.
      rewrite rmatch_opt_skipped.
      * rewrite rmatch_grp. unfold V2.number, Re.plus. rewrite !rmatch_cat.
        apply rmatch_cls_stops. reflexivity.
      * rewrite rmatch_str_i_eval. reflexivity.
    + inversion E; subst. congruence.
Qed.

Lemma starts_with_ci_head_miss l lit x s :
  (lower_char x =? lower_char l) = false ->
  starts_with_ci (l :: lit) (x :: s) = false.
Proof. intros H. simpl. rewrite H. reflexivity. Qed.

Lemma em_fails_nondigit x s : is_digit x = false -> fails_at V2.em_re (x :: s).
Proof.
  intros H A k c. unfold V2.em_re. cbn [Re.seq].
  rewrite rmatch_cat, rmatch_grp. unfold V2.number, Re.plus.
  rewrite !rmatch_cat. apply rmatch_cls_stops. exact H.
Qed.

(** Digits that are followed by " to" are not declared emissions. *)
Lemma em_fails_digits_to D s :
  all_of is_digit D -> fails_at V2.em_re (D ++ 32 :: 116 :: 111 :: s).
Proof.
  intros HD A k c. destruct D as [|x D].
  { apply em_fails_nondigit. reflexivity. }
  apply all_of_cons in HD. destruct HD as [Hx HD].
  unfold V2.em_re. cbn [Re.seq].
  rewrite rmatch_cat, rmatch_grp. unfold V2.number, Re.plus.
  rewrite !rmatch_cat. unfold Re.digit.
  change ((x :: D) ++ 32 :: 116 :: 111 :: s)
    with (x :: D ++ 32 :: 116 :: 111 :: s) at 1.
  rewrite rmatch_cls_hit by exact Hx.
  apply rmatch_star_cls_none; [exact HD | reflexivity |].
  intros w1 w2 E.
  assert (Hw2 : all_of is_digit w2).
  { rewrite E in HD. apply all_of_app in HD. tauto. }
  rewrite rmatch_opt_skipped.
  - rewrite rmatch_cat. destruct w2 as [|y w2].
    + change ([] ++ 32 :: 116 :: 111 :: s) with ([32] ++ 116 :: 111 :: s).
      unfold Re.space.
      apply rmatch_star_cls_none; [reflexivity | reflexivity |].
      intros v1 v2 Ev. rewrite rmatch_cat, rmatch_str_i_eval.
      destruct v1 as [|? [|? ?]]; simpl in Ev; inversion Ev; subst;
        reflexivity.
    + apply all_of_cons in Hw2. destruct Hw2 as [Hy _].
      rewrite star_skip.
      * rewrite rmatch_cat, rmatch_str_i_eval.
        change (u "tCO2") with (116 :: u "CO2").
        change ((y :: w2) ++ 32 :: 116 :: 111 :: s)
          with (y :: w2 ++ 32 :: 116 :: 111 :: s).
        rewrite starts_with_ci_head_miss; [reflexivity|]. char_solve.
      * intros k'. apply rmatch_cls_stops. simpl.
        apply digit_not_space. exact Hy.
  - rewrite rmatch_cat. unfold Re.lit_i. apply rmatch_cls_stops.
    destruct w2 as [|y w2]; [reflexivity|].
    apply all_of_cons in Hw2. destruct Hw2 as [Hy _]. simpl. char_solve.
Qed.

Lemma origin_fails s :
  starts_with_ci (u "origin") s = false ->
  starts_with_ci (u "paid") s = false ->
  starts_with_ci (u "cost") s = false ->
  fails_at V2.origin_re s.
Proof.
  intros H1 H2 H3 A k c. unfold V2.origin_re. cbn [Re.seq].
  rewrite rmatch_cat, !rmatch_alt, !rmatch_str_i_eval, H1, H2, H3.
  reflexivity.
Qed.

Lemma origin_fails_head x s :
  starts_keyword x = false -> fails_at V2.origin_re (x :: s).
Proof.
  unfold starts_keyword. intros H.
  apply orb_false_iff in H. destruct H as [H Hc].
  apply orb_false_iff in H. destruct H as [Ho Hp].
  apply origin_fails.
  - change (u "origin") with (111 :: u "rigin").
    apply starts_with_ci_head_miss. exact Ho.
  - change (u "paid") with (112 :: u "aid").
    apply starts_with_ci_head_miss. exact Hp.
  - change (u "cost") with (99 :: u "ost").
    apply starts_with_ci_head_miss. exact Hc.
Qed.

Lemma origin_fails_nil : fails_at V2.origin_re [].
Proof. apply origin_fails; reflexivity. Qed.

(** A keyword cannot run across a character that is in no keyword. *)
Lemma starts_with_ci_cut x kw : forall b r,
  forallb (fun l => negb (lower_char x =? lower_char l)) kw = true ->
  kw <> [] ->
  starts_with_ci kw (b ++ x :: r) = starts_with_ci kw b.
Proof.
  induction kw as [|l kw IH]; intros b r H Hne; [congruence|].
  simpl in H. apply andb_true_iff in H. destruct H as [Hl H].
  apply negb_true_iff in Hl.
  destruct b as [|y b]; simpl.
  - rewrite Hl. reflexivity.
  - destruct (lower_char y =? lower_char l); [|reflexivity]. simpl.
    destruct kw as [|l' kw]; [reflexivity|].
    apply IH; [exact H | discriminate].
Qed.

Lemma contains_ci_suffix kw a b :
  contains_ci kw (a ++ b) = false -> starts_with_ci kw b = false.
Proof.
  unfold contains_ci. induction a as [|x a IH]; intros H.
  - destruct b; simpl in H; apply orb_false_iff in H; tauto.
  - simpl in H. apply orb_false_iff in H. destruct H as [_ H]. auto.
Qed.

Lemma finds_here r s rest gs :
  (forall (k : cont rmatch_obj) a, k rest gs = Some a -> rmatch r s [] k = Some a) ->
  finds r s gs.
Proof.
  intros H i.
  assert (Hm : exists m, match_at r i s = Some m /\ m_groups m = gs).
  { unfold match_at. eexists. split; [apply H; reflexivity | reflexivity]. }
  destruct Hm as (m & Hm & Hg). exists m. split; [|exact Hg].
  apply search_from_hit. exact Hm.
Qed.

Lemma finds_skip r pre rest gs :
  (forall a b, pre = a ++ b -> b <> [] -> fails_at r (b ++ rest)) ->
  finds r rest gs -> finds r (pre ++ rest) gs.
Proof. intros H F i. rewrite search_from_skip by exact H. apply F. Qed.

Lemma finds_skip1 r x s gs :
  fails_at r (x :: s) -> finds r s gs -> finds r (x :: s) gs.
Proof. intros H F i. rewrite search_from_skip1 by exact H. apply F. Qed.

Lemma finds_re_search r s gs :
  finds r s gs -> exists m, re_search r s = Some m /\ m_groups m = gs.
Proof. intros F. apply F. Qed.

Lemma all_of_suffix_head (p : N -> bool) (s a b : pystr) :
  all_of p s -> s = a ++ b -> b <> [] ->
  exists x b', b = x :: b' /\ p x = true.
Proof.
  intros H -> Hne. apply all_of_app in H. destruct H as [_ H].
  destruct b as [|x b']; [congruence|]. apply all_of_cons in H.
  exists x, b'. tauto.
Qed.

Lemma render_lit_parts x :
  exists ip fr,
    render_lit x = ip ++ fr /\ some_of is_digit ip /\ fraction fr /\
    all_of (fun c => is_digit c || (c =? 46)) (ip ++ fr).
Proof.
  unfold render_lit. exists (str_of_int (lit_int x)).
  pose proof (str_of_int_digits (lit_int x)) as Hip.
  assert (Hw : forall s, all_of is_digit s ->
                         all_of (fun c => is_digit c || (c =? 46)) s).
  { intros s Hs. unfold all_of in *. rewrite forallb_forall in *.
    intros y Hy. rewrite (Hs y Hy). reflexivity. }
  destruct (lit_frac x) eqn:E;
    [ exists []; repeat split; try apply Hip; [left; reflexivity|];
      rewrite app_nil_r; apply Hw, Hip | ..].
  all: eexists; split; [reflexivity|]; split; [exact Hip|]; split;
    [ right; eexists; split; [reflexivity|]; split;
      [discriminate | apply chars_of_uint_digits]
    | apply all_of_app; split; [apply Hw, Hip|]; apply all_of_cons;
      split; [reflexivity | apply Hw, chars_of_uint_digits] ].
Qed.

Section Normalized.

Variables (D P ipE frE ipO frO : pystr).
Hypothesis HD : some_of is_digit D.
Hypothesis HPne : P <> [].
Hypothesis HPl : all_of is_lower P.
Hypothesis HPo : contains_ci (u "origin") P = false.
Hypothesis HPp : contains_ci (u "paid") P = false.
Hypothesis HPc : contains_ci (u "cost") P = false.
Hypothesis HipE : some_of is_digit ipE.
Hypothesis HfrE : fraction frE.
Hypothesis HE : all_of (fun c => is_digit c || (c =? 46)) (ipE ++ frE).
Hypothesis HipO : some_of is_digit ipO.
Hypothesis HfrO : fraction frO.

Lemma normalized_qty :
  finds V2.qty_re (normalized_text D P (ipE ++ frE) (ipO ++ frO))
      [(2%nat, P); (1%nat, D)].
Proof.
unfold normalized_text. eapply finds_here. intros k a Hk.
apply qty_forward; [exact HD | | | exact Hk].
- split; [exact HPne|]. unfold all_of. rewrite forallb_forall.
  intros x Hx. apply lower_is_word.
  unfold all_of in HPl. rewrite forallb_forall in HPl. apply HPl, Hx.
- reflexivity.
Qed.

Lemma normalized_em :
  finds V2.em_re (normalized_text D P (ipE ++ frE) (ipO ++ frO))
      [(1%nat, ipE ++ frE)].
Proof.
unfold normalized_text.
change (u " tons of " ++ P ++ u ", " ++ (ipE ++ frE)
          ++ u " tCO2e, origin €" ++ ipO ++ frO)
  with (32 :: 116 :: 111 :: 110 :: 115 :: 32 :: 111 :: 102 :: 32
           :: P ++ 44 :: 32 :: (ipE ++ frE)
           ++ u " tCO2e" ++ u ", origin €" ++ ipO ++ frO).
apply finds_skip.
{ intros a b E Hne. apply em_fails_digits_to.
  destruct HD as [_ HD']. rewrite E in HD'. apply all_of_app in HD'. tauto. }
do 9 (apply finds_skip1; [apply em_fails_nondigit; reflexivity|]).
apply finds_skip.
{ intros a b E Hne.
  destruct (@all_of_suffix_head _ _ _ _ HPl E Hne) as (x & b' & -> & Hx).
  apply em_fails_nondigit. apply lower_not_digit. exact Hx. }
do 2 (apply finds_skip1; [apply em_fails_nondigit; reflexivity|]).
eapply finds_here. intros k a Hk.
apply em_forward; [exact HipE | exact HfrE | reflexivity | exact Hk].
Qed.

Lemma normalized_origin :
  finds V2.origin_re (normalized_text D P (ipE ++ frE) (ipO ++ frO))
      [(1%nat, ipO ++ frO)].
Proof.
unfold normalized_text.
change (u " tons of " ++ P ++ u ", " ++ (ipE ++ frE)
          ++ u " tCO2e, origin €" ++ ipO ++ frO)
  with (32 :: 116 :: 111 :: 110 :: 115 :: 32 :: 111 :: 102 :: 32
           :: P ++ 44 :: 32 :: (ipE ++ frE)
           ++ 32 :: 116 :: 67 :: 79 :: 50 :: 101 :: 44 :: 32
           :: u "origin €" ++ ipO ++ frO).
apply finds_skip.
{ intros a b E Hne. destruct HD as [_ HD'].
  destruct (@all_of_suffix_head _ _ _ _ HD' E Hne) as (x & b' & -> & Hx).
  apply origin_fails_head. unfold starts_keyword.
  rewrite (lower_char_digit _ Hx). char_solve. }
do 9 (apply finds_skip1; [apply origin_fails; reflexivity|]).
apply finds_skip.
{ intros a b E Hne. rewrite E in HPo, HPp, HPc.
  apply origin_fails; rewrite starts_with_ci_cut;
    try reflexivity; try discriminate;
    eapply contains_ci_suffix; eassumption. }
do 2 (apply finds_skip1; [apply origin_fails; reflexivity|]).
apply finds_skip.
{ intros a b E Hne.
  destruct (@all_of_suffix_head _ _ _ _ HE E Hne) as (x & b' & -> & Hx).
  apply origin_fails_head. unfold starts_keyword.
  apply orb_true_iff in Hx. destruct Hx as [Hx|Hx].
  - rewrite (lower_char_digit _ Hx). char_solve.
  - apply N.eqb_eq in Hx. subst x. reflexivity. }
do 8 (apply finds_skip1; [apply origin_fails; reflexivity|]).
eapply finds_here. intros k a Hk.
rewrite <- (app_nil_r (ipO ++ frO)).
apply origin_forward; [exact HipO | exact HfrO | exact I | exact Hk].
Qed.

End Normalized.




(* ===================================================================== *)
(** * The calculator on every float *)

Lemma max_zero_nonneg x : F64.leb F64.zero (F64.max F64.zero x) = true.
Proof.
  unfold F64.max, F64.ltb, F64.leb, SFltb, SFleb.
  destruct (SFcompare F64.zero x) as [[| |]|] eqn:E; try reflexivity.
  rewrite E. reflexivity.
Qed.

Lemma max_zero_nonpos x : nonpos x -> F64.max F64.zero x = F64.zero.
Proof.
  unfold F64.max, F64.ltb, SFltb.
  destruct x as [s|s| |s m e]; simpl; try reflexivity; intros ->; reflexivity.
Qed.

Lemma signed_nonpos x : signed true x -> nonpos x.
Proof. destruct x; simpl; auto. Qed.

Lemma binary_round_aux_signed sx mx ex lx :
  signed sx (binary_round_aux F64.prec F64.emax sx mx ex lx).
Proof.
  unfold binary_round_aux.
  destruct (shr_fexp F64.prec F64.emax mx ex lx) as [mrs e'].
  destruct (shr_fexp F64.prec F64.emax _ e' loc_Exact) as [mrs' e''].
  destruct (shr_m mrs'); [reflexivity | | exact I].
  destruct (Z.leb e'' _); reflexivity.
Qed.

Lemma binary_round_signed sx mx ex :
  signed sx (binary_round F64.prec F64.emax sx mx ex).
Proof.
  unfold binary_round. destruct (shl_align mx ex _) as [mz ez].
  apply binary_round_aux_signed.
Qed.

(** A non-negative factor keeps a product not greater than zero. *)
Lemma mul_nonpos x d :
  F64.leb F64.zero x = true -> nonpos d -> nonpos (F64.mul x d).
Proof.
  unfold F64.mul, F64.leb, SFleb.
  destruct x as [s|[|]| |[|] m e]; destruct d as [s'|s'| |s' m' e'];
    simpl; try discriminate; try tauto; intros _ H; subst;
    try reflexivity; try (destruct s; reflexivity).
  apply signed_nonpos. apply (binary_round_aux_signed true).
Qed.

Lemma digits2_pos_bounds m :
  (2 ^ (Z.pos (digits2_pos m) - 1) <= Z.pos m < 2 ^ Z.pos (digits2_pos m))%Z.
Proof.
  induction m as [m IH | m IH |]; cbn [digits2_pos].
  - rewrite Pos2Z.inj_succ.
    replace (Z.succ (Z.pos (digits2_pos m)) - 1)%Z
      with (Z.succ (Z.pos (digits2_pos m) - 1)) by lia.
    rewrite !Z.pow_succ_r by lia. lia.
  - rewrite Pos2Z.inj_succ.
    replace (Z.succ (Z.pos (digits2_pos m)) - 1)%Z
      with (Z.succ (Z.pos (digits2_pos m) - 1)) by lia.
    rewrite !Z.pow_succ_r by lia. lia.
  - simpl. lia.
Qed.

Lemma iter_xO_value m d :
  Z.pos (Pos.iter xO m d) = (Z.pos m * 2 ^ Z.pos d)%Z.
Proof.
  induction d as [|d IH] using Pos.peano_ind.
  - simpl. lia.
  - rewrite Pos.iter_succ, Pos2Z.inj_succ, Z.pow_succ_r by lia.
    rewrite Pos2Z.inj_xO, IH. lia.
Qed.

Lemma shl_align_value m e ez :
  (ez <= e)%Z ->
  Z.pos (fst (shl_align m e ez)) = (Z.pos m * 2 ^ (e - ez))%Z.
Proof.
  intros H. unfold shl_align.
  destruct (ez - e)%Z as [|d|d] eqn:E; cbn [fst].
  - replace (e - ez)%Z with 0%Z by lia. rewrite Z.pow_0_r. lia.
  - lia.
  - rewrite iter_xO_value. f_equal. f_equal. lia.
Qed.

Lemma canonical_digits m e :
  canonical_mantissa F64.prec F64.emax m e = true ->
  (Z.pos (digits2_pos m) <= 53)%Z /\ (-1074 <= e)%Z /\
  ((-1074 < e)%Z -> Z.pos (digits2_pos m) = 53%Z).
Proof.
  unfold canonical_mantissa, fexp, emin, F64.prec, F64.emax.
  intros H. apply Z.eqb_eq in H. lia.
Qed.

(** On valid positive numbers, [x <= y] orders the aligned mantissas. *)
Lemma compare_aligned m1 e1 m2 e2 :
  F64.valid (S754_finite false m1 e1) = true ->
  F64.valid (S754_finite false m2 e2) = true ->
  F64.leb (S754_finite false m1 e1) (S754_finite false m2 e2) = true ->
  (Z.pos (fst (shl_align m1 e1 (Z.min e1 e2)))
   <= Z.pos (fst (shl_align m2 e2 (Z.min e1 e2))))%Z.
Proof.
  unfold F64.valid, valid_binary, bounded, F64.leb, SFleb, SFcompare.
  intros V1 V2 H.
  apply andb_true_iff in V1. destruct V1 as [V1 _].
  apply andb_true_iff in V2. destruct V2 as [V2 _].
  apply canonical_digits in V1, V2.
  rewrite !shl_align_value by lia.
  pose proof (digits2_pos_bounds m1) as B1.
  pose proof (digits2_pos_bounds m2) as B2.
  destruct (Z.compare_spec e1 e2) as [E|E|E]; try discriminate.
  - subst e2. rewrite Z.min_id, Z.sub_diag, Z.pow_0_r.
    fold (Pos.compare m1 m2) in H.
    destruct (Pos.compare_spec m1 m2); try discriminate; lia.
  - rewrite Z.min_l by lia. rewrite Z.sub_diag, Z.pow_0_r.
    destruct V2 as (_ & _ & D2). rewrite D2 in B2 by lia.
    destruct V1 as (D1 & _ & _).
    assert (P1 : (2 ^ Z.pos (digits2_pos m1) <= 2 ^ 53)%Z)
      by (apply Z.pow_le_mono_r; lia).
    assert (P2 : (2 ^ 1 <= 2 ^ (e2 - e1))%Z)
      by (apply Z.pow_le_mono_r; lia).
    change (2 ^ (53 - 1))%Z with 4503599627370496%Z in B2.
    change (2 ^ 53)%Z with 9007199254740992%Z in *.
    change (2 ^ 1)%Z with 2%Z in P2.
    nia.
Qed.

Lemma binary_normalize_nonpos m e :
  (m <= 0)%Z -> nonpos (binary_normalize F64.prec F64.emax m e false).
Proof.
  destruct m as [|p|p]; simpl; intros H; [exact I | lia |].
  apply signed_nonpos, binary_round_signed.
Qed.

(** On valid non-negative floats, [x <= y] makes [x - y] not greater
    than zero. *)
Lemma sub_nonpos x y :
  F64.valid x = true -> F64.valid y = true ->
  F64.leb F64.zero x = true -> F64.leb F64.zero y = true ->
  F64.leb x y = true ->
  nonpos (F64.sub x y).
Proof.
  intros Vx Vy Px Py H.
  destruct x as [sx|[|]| |[|] mx ex]; destruct y as [sy|[|]| |[|] my ey];
    try discriminate; try exact I; try reflexivity.
  - destruct sx, sy; exact I.
  - unfold F64.sub, SFsub. cbn [cond_Zopp].
    apply binary_normalize_nonpos.
    pose proof (compare_aligned _ _ _ _ Vx Vy H). lia.
Qed.

(** With an explicit EU price the first variant computes
    [max(0, total * (eu - origin))], which is never negative and is zero
    whenever the EU price does not exceed the origin price. *)
Lemma calculate_cbam_cost_v1_explicit carbon_price total origin eu :
  F64.valid origin = true -> F64.valid eu = true ->
  F64.leb F64.zero total = true ->
  F64.leb F64.zero origin = true ->
  F64.leb F64.zero eu = true ->
  Calc1.calculate_cbam_cost carbon_price total origin (Some eu)
    = F64.max F64.zero (F64.mul total (F64.sub eu origin)) /\
  F64.leb F64.zero
    (Calc1.calculate_cbam_cost carbon_price total origin (Some eu)) = true /\
  (F64.leb eu origin = true ->
   Calc1.calculate_cbam_cost carbon_price total origin (Some eu) = F64.zero).
Proof.
  intros Vo Ve Pt Po Pe. unfold Calc1.calculate_cbam_cost.
  split; [reflexivity|]. split; [apply max_zero_nonneg|].
  intros H. apply max_zero_nonpos, mul_nonpos; [exact Pt|].
  apply sub_nonpos; assumption.
Qed.

(** The second variant agrees with the first on every explicit EU price
    other than zero. *)
Lemma calculate_cbam_cost_v2_nonzero carbon_price total origin eu :
  F64.truthy eu = true ->
  Calc2.calculate_cbam_cost carbon_price total origin (Some eu)
    = Calc1.calculate_cbam_cost carbon_price total origin (Some eu).
Proof.
  intros H. unfold Calc2.calculate_cbam_cost, Calc2.eu_price_or,
              Calc1.calculate_cbam_cost.
  rewrite H. reflexivity.
Qed.

(** The first variant of [cortex_search] has no handler: an exception of
    the search call leaves the function. *)
Lemma cortex_search_v1_propagates E query w e :
  result (search_svc E query NUM_RESULTS) = inr e ->
  fst (Retr1.cortex_search E query w) = inr e.
Proof. unfold Retr1.cortex_search. intros ->. reflexivity. Qed.

(** The first variant's classifier on the specification's example. *)
Lemma extract_cbam_request_v1_example :
  V1.extract_cbam_request (u "120 tons of steel, 2.3 tCO2e, origin €10")
  = (Some (u "steel"), Some 120, Some (f "2.3"), f "10.0").
Proof. vm_compute. reflexivity. Qed.

(* ===================================================================== *)
(** * The calculator, whatever the floats                                 *)
(* ===================================================================== *)

(** X1: both variants of the calculator return, for every triple of floats -
    infinities and NaN included - a number that is zero or greater and
    never a NaN: either the floor 0.0 or the strictly positive product
    [embedded_emissions * (price - origin_price)]. *)
Theorem calculate_cbam_cost_never_negative
        (carbon_price embedded_emissions origin_price : f64)
        (eu_price : option f64) :
  let cost2 := Calc2.calculate_cbam_cost carbon_price embedded_emissions
                                         origin_price eu_price in
  let cost1 := Calc1.calculate_cbam_cost carbon_price embedded_emissions
                                         origin_price eu_price in
  F64.leb F64.zero cost2 = true /\ F64.leb F64.zero cost1 = true /\
  (cost2 = F64.zero \/
   F64.ltb F64.zero cost2 = true /\
   cost2 = F64.mul embedded_emissions
             (F64.sub (Calc2.eu_price_or eu_price carbon_price) origin_price)) /\
  (cost1 = F64.zero \/
   F64.ltb F64.zero cost1 = true /\
   cost1 = F64.mul embedded_emissions
             (F64.sub (match eu_price with
                       | Some x => x
                       | None => carbon_price
                       end) origin_price)).
Proof.
  cbv zeta. unfold Calc2.calculate_cbam_cost, Calc1.calculate_cbam_cost.
  split; [apply max_zero_nonneg|]. split; [apply max_zero_nonneg|].
  split; unfold F64.max;
    match goal with
    | |- context [F64.ltb F64.zero ?x] => destruct (F64.ltb F64.zero x) eqn:L
    end; auto.
Qed.

(** X2: in the second variant the cost is zero whenever the price in force -
    the explicit EU price, or the session price when that is omitted or
    zero - does not exceed the price paid at origin, emissions and prices
    being non-negative floats. *)
Theorem calculate_cbam_cost_covered_at_origin
        (carbon_price embedded_emissions origin_price : f64)
        (eu_price : option f64) :
  let price := Calc2.eu_price_or eu_price carbon_price in
  F64.valid price = true -> F64.valid origin_price = true ->
  F64.leb F64.zero embedded_emissions = true ->
  F64.leb F64.zero price = true ->
  F64.leb F64.zero origin_price = true ->
  F64.leb price origin_price = true ->
  Calc2.calculate_cbam_cost carbon_price embedded_emissions origin_price
                            eu_price
  = F64.zero.
Proof.
  cbv zeta. intros Vp Vo Pt Pp Po H. unfold Calc2.calculate_cbam_cost.
  apply max_zero_nonpos, mul_nonpos; [exact Pt|].
  apply sub_nonpos; assumption.
Qed.

Lemma calculate_cbam_cost_covered_at_origin_witness :
  F64.leb (f "78.54") (f "90") = true /\
  Calc2.calculate_cbam_cost (f "78.54") (f "276.0") (f "90") None = F64.zero.
Proof.
  split; [vm_compute; reflexivity|].
  apply (@calculate_cbam_cost_covered_at_origin
           (f "78.54") (f "276.0") (f "90") None);
    vm_compute; reflexivity.
Defined.

(** X3: in the first variant the cost is zero whenever the price in force -
    the explicit EU price, zero included, or the session price when it is
    omitted - does not exceed the price paid at origin, emissions and
    prices being non-negative floats. *)
Theorem calculate_cbam_cost_v1_covered_at_origin
        (carbon_price embedded_emissions origin_price : f64)
        (eu_carbon_price : option f64) :
  let price := match eu_carbon_price with
               | Some x => x
               | None => carbon_price
               end in
  F64.valid price = true -> F64.valid origin_price = true ->
  F64.leb F64.zero embedded_emissions = true ->
  F64.leb F64.zero price = true ->
  F64.leb F64.zero origin_price = true ->
  F64.leb price origin_price = true ->
  Calc1.calculate_cbam_cost carbon_price embedded_emissions origin_price
                            eu_carbon_price
  = F64.zero.
Proof.
  cbv zeta. intros Vp Vo Pt Pp Po H. unfold Calc1.calculate_cbam_cost.
  apply max_zero_nonpos, mul_nonpos; [exact Pt|].
  apply sub_nonpos; assumption.
Qed.

Lemma calculate_cbam_cost_v1_covered_at_origin_witness :
  F64.leb (f "0.0") (f "0.0") = true /\
  Calc1.calculate_cbam_cost (f "80.0") (f "230.0") (f "0.0") (Some (f "0.0"))
  = F64.zero.
Proof.
  split; [vm_compute; reflexivity|].
  apply (@calculate_cbam_cost_v1_covered_at_origin
           (f "80.0") (f "230.0") (f "0.0") (Some (f "0.0")));
    vm_compute; reflexivity.
Defined.

(* ===================================================================== *)
(** * Invariants of the price controls                                    *)
(* ===================================================================== *)

Lemma recent_prices_cases date price :
  dict_get Cfg2.RECENT_PRICES date = Some price ->
  In price [f "78.54"; f "76.30"; f "74.80"; f "73.20"].
Proof.
  unfold Cfg2.RECENT_PRICES. cbn [dict_get].
  repeat match goal with
         | |- context [pystr_eqb ?a ?b] => destruct (pystr_eqb a b)
         end; intros H; inversion H; subst; simpl; auto 10.
Qed.

Lemma recent_prices_bounds date price :
  dict_get Cfg2.RECENT_PRICES date = Some price ->
  F64.valid price = true /\ F64.ltb F64.zero price = true /\
  F64.leb price MANUAL_PRICE_MAX = true.
Proof.
  intros H. apply recent_prices_cases in H. simpl in H.
  repeat (destruct H as [<- | H]; [vm_compute; repeat split; reflexivity|]).
  destruct H.
Qed.


(** X4: the session price of the running application is always a positive
    number, and never exceeds the maximum of the manual price input. *)
Theorem carbon_price_range :
  (forall s, reachable s -> F64.ltb F64.zero (carbon_price s) = true) /\
  (forall s, app_state s ->
     F64.valid (carbon_price s) = true /\
     F64.ltb F64.zero (carbon_price s) = true /\
     F64.leb (carbon_price s) MANUAL_PRICE_MAX = true).
Proof.
  split.
  - induction 1 as [| c w _ IH | E input w _ IH].
    + vm_compute. reflexivity.
    + destruct c as [| | date | v]; cbn [render_config_ui].
      * destruct (reset_shown (st w)); [|exact IH]. vm_compute. reflexivity.
      * exact IH.
      * destruct (dict_get Cfg2.RECENT_PRICES date) as [price|] eqn:D;
          [|exact IH].
        apply recent_prices_bounds in D. apply D.
      * destruct (manual_disabled (st w)); [exact IH|].
        destruct (F64.ltb F64.zero v) eqn:P; [|exact IH]. exact P.
    + destruct (main_same_prices E input w) as (Hp & _ & _).
      rewrite Hp. exact IH.
  - induction 1 as [| c w _ IH Hc | E input w _ IH].
    + vm_compute. repeat split; reflexivity.
    + destruct c as [| | date | v]; cbn [render_config_ui].
      * destruct (reset_shown (st w)); [|exact IH].
        vm_compute. repeat split; reflexivity.
      * exact IH.
      * destruct (dict_get Cfg2.RECENT_PRICES date) as [price|] eqn:D;
          [|exact IH].
        apply recent_prices_bounds in D. exact D.
      * destruct (manual_disabled (st w)); [exact IH|].
        destruct (F64.ltb F64.zero v) eqn:P; [|exact IH].
        cbn [click_in_range] in Hc. unfold in_widget_range in Hc.
        apply andb_true_iff in Hc. destruct Hc as [Hc H3].
        apply andb_true_iff in Hc. destruct Hc as [H1 H2].
        simpl. auto.
    + destruct (main_same_prices E input w) as (Hp & _ & _).
      rewrite Hp. exact IH.
Qed.

Lemma carbon_price_range_witness :
  let s := st (render_config_ui (ClickUpdatePrice (f "90.5")) fresh_world) in
  app_state s /\ carbon_price s = f "90.5" /\
  F64.leb (carbon_price s) MANUAL_PRICE_MAX = true.
Proof.
  cbv zeta.
  assert (R : app_state
                (st (render_config_ui (ClickUpdatePrice (f "90.5"))
                                      fresh_world))).
  { apply app_click; [exact app_init | vm_compute; reflexivity]. }
  split; [exact R|]. split; [vm_compute; reflexivity|].
  exact (proj2 (proj2 (proj2 carbon_price_range _ R))).
Defined.

(** X5: the status caption of the price controls always names the price that
    the calculations use, and its table lookup never fails. *)
Theorem status_caption_announces_price (s : session) :
  reachable s ->
  exists c, status_caption s = Some c /\ announced_price c = carbon_price s.
Proof.
  induction 1 as [| c w _ IH | E input w _ IH].
  - exists DefaultActive. split; reflexivity.
  - destruct c as [| | date | v]; cbn [render_config_ui].
    + destruct (reset_shown (st w)); [|exact IH].
      exists DefaultActive. split; reflexivity.
    + exact IH.
    + destruct (dict_get Cfg2.RECENT_PRICES date) as [price|] eqn:D;
        [|exact IH].
      exists (HistoricActive date price). unfold status_caption.
      cbn [st emit with_st set_price manual_override_price
           selected_historic_date carbon_price].
      rewrite D. split; reflexivity.
    + destruct (manual_disabled (st w)); [exact IH|].
      destruct (F64.ltb F64.zero v); [|exact IH].
      exists (ManualActive v). split; reflexivity.
  - destruct (main_same_prices E input w) as (Hp & Hm & Hh).
    destruct IH as (c & Hc & Ha). exists c.
    unfold status_caption in *. rewrite Hm, Hh, Hp. auto.
Qed.

Lemma status_caption_announces_price_witness :
  let s := st (render_config_ui (ClickHistoric (u "2025-09-15")) fresh_world) in
  reachable s /\
  status_caption s = Some (HistoricActive (u "2025-09-15") (f "74.80")) /\
  exists c, status_caption s = Some c /\ announced_price c = carbon_price s.
Proof.
  cbv zeta.
  assert (R : reachable
                (st (render_config_ui (ClickHistoric (u "2025-09-15"))
                                      fresh_world))).
  { apply reach_click. exact reach_init. }
  split; [exact R|]. split; [vm_compute; reflexivity|].
  exact (status_caption_announces_price R).
Defined.


Lemma conversation_grew_nil s : conversation_grew s s [].
Proof.
  exists (last_request_time s). rewrite app_nil_r. destruct s; reflexivity.
Qed.

Lemma marker_moved s s' :
  set_last_request_time (last_request_time s) s' = s ->
  s' = set_last_request_time (last_request_time s') s.
Proof. intros <-. destruct s'; reflexivity. Qed.

Lemma llm_complete_session E model p retries w :
  exists t,
    st (snd (llm_complete E model p retries w))
    = set_last_request_time t (st w).
Proof.
  unfold llm_complete.
  destruct (attempts E model p retries retries 0 (throttle w)) as [r w'] eqn:H.
  apply attempts_marker in H. rewrite throttle_st in H. cbn [snd].
  destruct r.
  - destruct H as [_ H]. apply marker_moved in H. eauto.
  - exists (last_request_time (st w)). rewrite H. destruct (st w); reflexivity.
Qed.

Lemma slow_path_session E q w :
  exists tail,
    conversation_grew (st w) (st (snd (slow_path E q w))) tail /\
    (tail = [] \/ exists a, tail = [ {| msg_role := assistant;
                                       msg_content := Text a |} ]).
Proof.
  unfold slow_path.
  pose proof (build_prompt_events E q w) as Hb.
  destruct (build_prompt E q w) as [[p src] wp].
  destruct Hb as (Hst & _).
  destruct (llm_complete_session E MODEL_NAME p 2 wp) as (t & Ht).
  destruct (llm_complete E MODEL_NAME p 2 wp) as [answer wl].
  cbn [snd] in Ht. rewrite Hst in Ht.
  destruct answer as [[|c a]|]; cbn [snd].
  - exists []. split; [|auto]. exists t. rewrite app_nil_r, Ht.
    destruct (st w); reflexivity.
  - exists [ {| msg_role := assistant; msg_content := Text (c :: a) |} ].
    split; [|eauto]. exists t.
    cbn [st emit append_message with_st]. rewrite Ht.
    destruct (st w); reflexivity.
  - exists []. split; [|auto]. exists t. rewrite app_nil_r, Ht.
    destruct (st w); reflexivity.
Qed.

Lemma conversation_grew_trans s1 s2 s3 t1 t2 :
  conversation_grew s1 s2 t1 -> conversation_grew s2 s3 t2 ->
  conversation_grew s1 s3 (t1 ++ t2).
Proof.
  intros (a & ->) (b & ->). exists b. destruct s1; simpl.
  rewrite <- app_assoc. reflexivity.
Qed.

Lemma append_message_grew r c w :
  conversation_grew (st w) (st (append_message r c w))
                    [ {| msg_role := r; msg_content := c |} ].
Proof.
  exists (last_request_time (st w)). cbn [st append_message with_st].
  destruct (st w); reflexivity.
Qed.

Lemma main_session E input w :
  exists tail,
    conversation_grew (st w) (st (snd (main E input w))) tail /\
    match input with
    | Some (c :: q) =>
      exists reply, tail = user_message (c :: q) :: reply /\
                    (reply = [] \/
                     exists a, reply = [ {| msg_role := assistant;
                                            msg_content := a |} ])
    | _ => tail = []
    end.
Proof.
  destruct input as [[|c q]|]; cbn [main snd];
    try (exists []; split; [apply conversation_grew_nil | reflexivity]).
  unfold main_turn.
  set (w0 := emit (StMarkdown user (Text (c :: q)))
                  (append_message user (Text (c :: q)) w)).
  assert (H0 : conversation_grew (st w) (st w0) [user_message (c :: q)])
    by apply append_message_grew.
  destruct (V2.extract_cbam_request (c :: q)) as [[[prod qty] em] origin].
  destruct (fast_path_factor prod qty em) as [[[p n] x]|].
  - destruct (float_of_int n) as [fq|]; cbn [snd].
    + eexists. split.
      * eapply conversation_grew_trans; [exact H0|].
        cbn [st emit]. apply append_message_grew.
      * eexists. split; [reflexivity|]. right. eauto.
    + exists [user_message (c :: q)]. split; [exact H0|].
      exists []. auto.
  - destruct (slow_path_session E (c :: q) w0) as (tail & Hg & Ht).
    exists (user_message (c :: q) :: tail). split.
    + exact (conversation_grew_trans H0 Hg).
    + exists tail. split; [reflexivity|].
      destruct Ht as [->|(a & ->)]; [auto | right; eauto].
Qed.

(** X6: the flag [is_manual_price] is never raised, not even while a manual
    override is in force, and [initialized] stays set. *)
Theorem is_manual_price_never_set (s : session) :
  reachable s -> is_manual_price s = false /\ initialized s = true.
Proof.
  induction 1 as [| c w _ IH | E input w _ IH].
  - split; reflexivity.
  - destruct c as [| | date | v]; cbn [render_config_ui].
    + destruct (reset_shown (st w)); exact IH.
    + exact IH.
    + destruct (dict_get Cfg2.RECENT_PRICES date); exact IH.
    + destruct (manual_disabled (st w)); [exact IH|].
      destruct (F64.ltb F64.zero v); exact IH.
  - destruct (main_session E input w) as (tail & (t & ->) & _). exact IH.
Qed.

Lemma is_manual_price_never_set_witness :
  let s := st (render_config_ui (ClickUpdatePrice (f "90.5")) fresh_world) in
  reachable s /\ manual_override_price s = Some (f "90.5") /\
  is_manual_price s = false.
Proof.
  cbv zeta.
  assert (R : reachable
                (st (render_config_ui (ClickUpdatePrice (f "90.5"))
                                      fresh_world))).
  { apply reach_click. exact reach_init. }
  split; [exact R|]. split; [vm_compute; reflexivity|].
  exact (proj1 (is_manual_price_never_set R)).
Defined.


(** X8: every change of the session price by a control goes with a call of
    [write_price_to_stage] for the new price, flagged manual exactly when
    the new price is a manual override; no control other than Clear Chat
    touches the conversation, and none touches the throttle marker. *)
Theorem render_config_ui_writes_price (c : click) (w : world) :
  let w' := render_config_ui c w in
  exists evs,
    trace w' = trace w ++ evs /\
    (carbon_price (st w') <> carbon_price (st w) ->
     exists m, evs = [PriceWritten (carbon_price (st w')) m]) /\
    (forall p m,
        In (PriceWritten p m) evs ->
        p = carbon_price (st w') /\
        (m = true <-> manual_override_price (st w') = Some p)) /\
    (c <> ClickClearChat -> messages (st w') = messages (st w)) /\
    last_request_time (st w') = last_request_time (st w).
Proof.
  cbv zeta.
  assert (Hnil : exists evs : list event,
             trace w = trace w ++ evs /\
             (carbon_price (st w) <> carbon_price (st w) ->
              exists m, evs = [PriceWritten (carbon_price (st w)) m]) /\
             (forall p m,
                 In (PriceWritten p m) evs ->
                 p = carbon_price (st w) /\
                 (m = true <-> manual_override_price (st w) = Some p)) /\
             (c <> ClickClearChat -> messages (st w) = messages (st w)) /\
             last_request_time (st w) = last_request_time (st w)).
  { exists []. rewrite app_nil_r. repeat split; try congruence;
      simpl in *; tauto. }
  destruct c as [| | date | v]; cbn [render_config_ui].
  - destruct (reset_shown (st w)); [|exact Hnil].
    eexists. split; [reflexivity|]. cbn [st emit with_st set_price carbon_price
      manual_override_price messages last_request_time].
    repeat split; eauto.
    + destruct H as [H|[]]. inversion H. reflexivity.
    + destruct H as [H|[]]. inversion H. subst. discriminate.
    + discriminate.
  - exists []. rewrite app_nil_r. cbn [st with_st set_messages carbon_price
      manual_override_price last_request_time].
    repeat split; try congruence; simpl in *; tauto.
  - destruct (dict_get Cfg2.RECENT_PRICES date) as [price|]; [|exact Hnil].
    eexists. split; [reflexivity|]. cbn [st emit with_st set_price carbon_price
      manual_override_price messages last_request_time].
    repeat split; eauto.
    + destruct H as [H|[]]. inversion H. reflexivity.
    + destruct H as [H|[]]. inversion H. subst. discriminate.
    + discriminate.
  - destruct (manual_disabled (st w)); [exact Hnil|].
    destruct (F64.ltb F64.zero v).
    + eexists. split; [reflexivity|]. cbn [st emit with_st set_price
        carbon_price manual_override_price messages last_request_time].
      repeat split; eauto.
      * destruct H as [H|[]]. inversion H. reflexivity.
      * destruct H as [H|[]]. inversion H. subst. reflexivity.
      * destruct H as [H|[]]. inversion H. reflexivity.
    + eexists. split; [reflexivity|]. cbn [st emit carbon_price
        manual_override_price messages last_request_time].
      repeat split; try congruence.
      * destruct H as [H|[]]. discriminate.
      * destruct H as [H|[]]. discriminate.
      * destruct H as [H|[]]. discriminate.
Qed.

(* ===================================================================== *)
(** * Session-state initialisation                                        *)
(* ===================================================================== *)

Lemma setdefault_kept (A : Type) (v : A) o : kept o (Startup.setdefault v o).
Proof. intros x ->. reflexivity. Qed.

(** X9: [init_session_state] sets only the keys that are missing, runs the
    first-load block (price file, re-indexing) unless [initialized] is
    already set, and leaves a state on which a second call does nothing. *)
Theorem init_session_state_idempotent (d : Startup.state_dict) :
  let '(d1, calls1) := Startup.init_session_state d in
  kept (Startup.k_messages d) (Startup.k_messages d1) /\
  kept (Startup.k_last_request_time d) (Startup.k_last_request_time d1) /\
  kept (Startup.k_carbon_price d) (Startup.k_carbon_price d1) /\
  kept (Startup.k_is_manual_price d) (Startup.k_is_manual_price d1) /\
  kept (Startup.k_selected_historic_date d)
       (Startup.k_selected_historic_date d1) /\
  kept (Startup.k_manual_override_price d)
       (Startup.k_manual_override_price d1) /\
  Startup.k_initialized d1 = Some true /\
  (calls1 = [] <-> Startup.k_initialized d = Some true) /\
  (calls1 <> [] ->
   calls1 = [Startup.WritePriceToStage Cfg2.DEFAULT_CARBON_PRICE false;
             Startup.ReindexDocuments]) /\
  Startup.init_session_state d1 = (d1, []) /\
  (d = Startup.empty -> d1 = Startup.of_session init_session_state).
Proof.
  unfold Startup.init_session_state.
  destruct d as [m l c i h o [[|]|]]; cbn;
    (repeat split; try apply setdefault_kept; try congruence;
     try (intros H; discriminate H);
     try (destruct m, l, c, i, h, o; reflexivity)).
  all: try (intros H; inversion H; reflexivity).
Qed.

(* ===================================================================== *)
(** * The prompt's history and content                                    *)
(* ===================================================================== *)

Lemma removelast_firstn_pred (A : Type) (l : list A) :
  removelast l = firstn (List.length l - 1) l.
Proof.
  rewrite Nat.sub_1_r. apply removelast_firstn_len.
Qed.

Lemma length_removelast_pred (A : Type) (l : list A) :
  List.length (removelast l) = (List.length l - 1)%nat.
Proof.
  rewrite removelast_firstn_pred, length_firstn. lia.
Qed.

Lemma get_recent_history_last_n s :
  get_recent_history s
  = last_n (HISTORY_LENGTH - 1) (removelast (messages s)).
Proof.
  unfold get_recent_history, slice_to_last, last_n, HISTORY_LENGTH.
  rewrite length_removelast_pred, removelast_firstn_pred.
  f_equal. lia.
Qed.

Lemma format_history_last_three s :
  last_n 3 (get_recent_history s) = last_n 3 (removelast (messages s)).
Proof.
  rewrite get_recent_history_last_n. unfold last_n, HISTORY_LENGTH.
  rewrite skipn_skipn, length_skipn. f_equal. lia.
Qed.

Lemma history_before_newest s older newest :
  messages s = older ++ [newest] ->
  last_n 3 (get_recent_history s) = last_n 3 older.
Proof.
  intros E. rewrite format_history_last_three, E, removelast_last.
  reflexivity.
Qed.

(** X10: the history handed to the prompt is the HISTORY_LENGTH - 1 messages
    before the newest one, of which [format_history] keeps the last
    three: the three messages before the newest, whatever the length of
    the conversation. *)
Theorem get_recent_history_window (s : session) :
  get_recent_history s
    = last_n (HISTORY_LENGTH - 1) (removelast (messages s)) /\
  last_n 3 (get_recent_history s) = last_n 3 (removelast (messages s)) /\
  (List.length (last_n 3 (get_recent_history s)) <= 3)%nat /\
  (forall older newest,
      messages s = older ++ [newest] ->
      last_n 3 (get_recent_history s) = last_n 3 older).
Proof.
  split; [apply get_recent_history_last_n|].
  split; [apply format_history_last_three|]. split.
  - unfold last_n. rewrite length_skipn. lia.
  - apply history_before_newest.
Qed.

Lemma cortex_search_trace E q w :
  fst (Retr2.cortex_search E q w)
    = (context_of (search_svc E q NUM_RESULTS),
       match result (search_svc E q NUM_RESULTS) with
       | inl results => search_source results
       | inr _ => u "Error"
       end) /\
  st (snd (Retr2.cortex_search E q w)) = st w /\
  exists evs,
    trace (snd (Retr2.cortex_search E q w)) = trace w ++ evs /\
    forall m p, Forall (carries m p) evs.
Proof.
  unfold Retr2.cortex_search, context_of.
  destruct (result (search_svc E q NUM_RESULTS)); cbn [fst snd st trace emit tick].
  - repeat split. eexists. split; [reflexivity|].
    intros. repeat constructor.
  - repeat split. eexists. split; [rewrite <- app_assoc; reflexivity|].
    intros. repeat constructor.
Qed.

Lemma throttle_trace w :
  exists evs, trace (throttle w) = trace w ++ evs /\
              forall m p, Forall (carries m p) evs.
Proof.
  unfold throttle. destruct (Qltb _ _).
  - eexists. split; [reflexivity|]. intros. repeat constructor.
  - exists []. rewrite app_nil_r. split; [reflexivity|]. constructor.
Qed.

Lemma slow_path_requests E q w :
  let p := {| p_ctx := context_of (search_svc E q NUM_RESULTS);
              p_price := carbon_price (st w);
              p_history := last_n 3 (get_recent_history (st w));
              p_question := q |} in
  exists evs,
    trace (snd (slow_path E q w)) = trace w ++ evs /\
    Forall (carries MODEL_NAME p) evs /\
    exists t, In (Requested t MODEL_NAME p) evs.
Proof.
  cbv zeta. unfold slow_path, build_prompt.
  destruct (cortex_search_trace E q w) as (Hf & Hst & evs1 & Ht1 & Hc1).
  destruct (Retr2.cortex_search E q w) as [[ctx src] wp].
  cbn [fst snd] in Hf, Hst, Ht1. inversion Hf; subst ctx. clear Hf.
  rewrite Hst.
  set (p := {| p_ctx := context_of (search_svc E q NUM_RESULTS);
               p_price := carbon_price (st w);
               p_history := last_n 3 (get_recent_history (st w));
               p_question := q |}).
  pose proof (llm_complete_two_attempts E MODEL_NAME p wp) as Hl.
  destruct (throttle_trace wp) as (evs2 & Ht2 & Hc2).
  destruct (llm_complete E MODEL_NAME p 2 wp) as [answer wl].
  destruct Hl as (t1 & [(resp & -> & Ht) | [(t2 & resp & -> & Ht)
                                           | (t2 & e & -> & Ht)]]);
    rewrite Ht2, Ht1, <- !app_assoc in Ht.
  - destruct resp as [|c a]; cbn [snd trace emit append_message with_st];
      rewrite Ht; eexists;
      (split; [rewrite <- ?app_assoc; reflexivity|]);
      (split; [repeat (apply Forall_app; split); auto;
               repeat constructor
              | exists t1; rewrite !in_app_iff; simpl; auto 10]).
  - destruct resp as [|c a]; cbn [snd trace emit append_message with_st];
      rewrite Ht; eexists;
      (split; [rewrite <- ?app_assoc; reflexivity|]);
      (split; [repeat (apply Forall_app; split); auto;
               repeat constructor
              | exists t1; rewrite !in_app_iff; simpl; auto 10]).
  - cbn [snd]. rewrite Ht. eexists.
    split; [reflexivity|].
    split; [repeat (apply Forall_app; split); auto; repeat constructor
           | exists t1; rewrite !in_app_iff; simpl; auto 10].
Qed.

(** X11: on the slow path every completion request of the turn is for
    MODEL_NAME with one and the same prompt: the search context (empty when
    the search failed), the session's carbon price, the question, and as
    history the last three messages the conversation held before the
    question; at least one such request is made. *)
Theorem slow_path_prompt (E : env) (question : pystr) (w : world) :
  question <> [] ->
  (let '(product, quantity, emissions, _) := V2.extract_cbam_request question in
   fast_path_factor product quantity emissions = None) ->
  let p := {| p_ctx := context_of (search_svc E question NUM_RESULTS);
              p_price := carbon_price (st w);
              p_history := last_n 3 (messages (st w));
              p_question := question |} in
  exists evs,
    trace (snd (main E (Some question) w)) = trace w ++ evs /\
    Forall (carries MODEL_NAME p) evs /\
    exists t, In (Requested t MODEL_NAME p) evs.
Proof.
  intros Hne Hslow. cbv zeta.
  rewrite (main_nonempty E w Hne). unfold main_turn.
  destruct (V2.extract_cbam_request question)
    as [[[product quantity] emissions] origin].
  rewrite Hslow.
  set (w0 := emit (StMarkdown user (Text question))
                  (append_message user (Text question) w)).
  destruct (slow_path_requests E question w0) as (evs & Ht & Hc & t & Hin).
  assert (Hh : last_n 3 (get_recent_history (st w0))
               = last_n 3 (messages (st w))).
  { apply (@history_before_newest (st w0) (messages (st w))
                                   (user_message question)).
    reflexivity. }
  cbv zeta in Hc, Hin. rewrite Hh in Hc, Hin.
  change (carbon_price (st w0)) with (carbon_price (st w)) in Hc, Hin.
  exists (StMarkdown user (Text question) :: evs).
  split; [rewrite Ht; subst w0; cbn [trace emit append_message with_st];
          rewrite <- app_assoc; reflexivity|].
  split; [constructor; [exact I | exact Hc] | exists t; right; exact Hin].
Qed.

Lemma slow_path_prompt_witness :
  let E := stub_env (inl (u "ok")) in
  let question := u "what is CBAM?" in
  question <> [] /\
  exists evs,
    trace (snd (main E (Some question) fresh_world))
    = trace fresh_world ++ evs /\
    exists t,
      In (Requested t MODEL_NAME
            {| p_ctx := []; p_price := Cfg2.DEFAULT_CARBON_PRICE;
               p_history := []; p_question := question |}) evs.
Proof.
  cbv zeta. split; [discriminate|].
  destruct (@slow_path_prompt (stub_env (inl (u "ok"))) (u "what is CBAM?")
              fresh_world ltac:(discriminate) ltac:(vm_compute; reflexivity))
    as (evs & Ht & _ & t & Hin).
  exists evs. split; [exact Ht|]. exists t. exact Hin.
Defined.

(* ===================================================================== *)
(** * Time spent asleep                                                   *)
(* ===================================================================== *)

Lemma sleeps_app a b : sleeps (a ++ b) = sleeps a ++ sleeps b.
Proof.
  induction a as [|e a IH]; [reflexivity|].
  destruct e; simpl; rewrite IH; reflexivity.
Qed.

Lemma time_asleep_app a b :
  (time_asleep (a ++ b) == time_asleep a + time_asleep b)%Q.
Proof.
  unfold time_asleep. rewrite sleeps_app.
  induction (sleeps a) as [|d l IH]; simpl; [lra|]. rewrite IH. lra.
Qed.

Lemma cortex_search_time E q w :
  marker_in_past w ->
  marker_in_past (snd (Retr2.cortex_search E q w)) /\
  exists evs,
    trace (snd (Retr2.cortex_search E q w)) = trace w ++ evs /\
    sleeps evs = [].
Proof.
  unfold marker_in_past, Retr2.cortex_search. intros H.
  pose proof (Q_of_duration_nonneg (took (search_svc E q NUM_RESULTS))) as Hd.
  destruct (result (search_svc E q NUM_RESULTS)); cbn [snd st clock trace emit tick].
  - split; [lra|]. eexists. split; reflexivity.
  - split; [lra|]. eexists. split; [rewrite <- app_assoc; reflexivity|].
    reflexivity.
Qed.

Lemma throttle_time w :
  marker_in_past w ->
  marker_in_past (throttle w) /\
  exists evs,
    trace (throttle w) = trace w ++ evs /\
    (0 <= time_asleep evs <= MIN_REQUEST_INTERVAL)%Q /\
    forallb (fun e => negb (calls_out e)) evs = true.
Proof.
  unfold marker_in_past, throttle. intros H.
  destruct (Qltb (clock w - last_request_time (st w)) MIN_REQUEST_INTERVAL) eqn:L.
  - unfold Qltb in L. apply negb_true_iff in L.
    assert (Hlt : (clock w - last_request_time (st w) < MIN_REQUEST_INTERVAL)%Q).
    { apply Qnot_le_lt. intros Hle. apply Qle_bool_iff in Hle. congruence. }
    cbn [st clock trace sleep emit tick]. unfold MIN_REQUEST_INTERVAL in *.
    split; [lra|]. eexists. split; [reflexivity|].
    unfold time_asleep. cbn [sleeps fold_right forallb calls_out negb andb].
    split; [lra | reflexivity].
  - split; [exact H|]. exists []. rewrite app_nil_r.
    unfold time_asleep, MIN_REQUEST_INTERVAL. simpl.
    split; [reflexivity|]. split; [lra | reflexivity].
Qed.

Lemma attempts_two_time E model p w :
  marker_in_past w ->
  marker_in_past (snd (attempts E model p 2 2 0 w)) /\
  exists evs,
    trace (snd (attempts E model p 2 2 0 w)) = trace w ++ evs /\
    (0 <= time_asleep evs <= 5)%Q.
Proof.
  unfold marker_in_past. intros H.
  rewrite attempts_step. cbv zeta.
  pose proof (Q_of_duration_nonneg (took (llm_svc E (requests w) model p))) as D1.
  destruct (result (llm_svc E (requests w) model p)) as [resp|e].
  - cbn [snd st clock trace with_st set_last_request_time last_request_time].
    split; [lra|]. eexists. split; [reflexivity|].
    unfold time_asleep. simpl. lra.
  - change (0 <? 2 - 1)%nat with true. cbv iota.
    rewrite attempts_step. cbv zeta.
    cbn [requests clock trace st sleep emit tick].
    pose proof (Q_of_duration_nonneg
                  (took (llm_svc E (S (requests w)) model p))) as D2.
    pose proof (backoff_nonneg 1) as B1.
    fold (backoff 1).
    destruct (result (llm_svc E (S (requests w)) model p)) as [resp|e2].
    + cbn [snd st clock trace with_st set_last_request_time last_request_time].
      split; [lra|]. eexists.
      split; [rewrite <- !app_assoc; reflexivity|].
      unfold time_asleep. cbn [app sleeps fold_right].
      change (backoff 1) with 5%Q. lra.
    + change (1 <? 2 - 1)%nat with false. cbv iota.
      cbn [snd st clock trace emit].
      split; [lra|].
      eexists. split; [rewrite <- !app_assoc; reflexivity|].
      unfold time_asleep. cbn [app sleeps fold_right].
      change (backoff 1) with 5%Q. lra.
Qed.

Lemma slow_path_time E q w :
  marker_in_past w ->
  marker_in_past (snd (slow_path E q w)) /\
  exists evs,
    trace (snd (slow_path E q w)) = trace w ++ evs /\
    (0 <= time_asleep evs <= 7)%Q.
Proof.
  intros H. unfold slow_path, build_prompt.
  destruct (cortex_search_time E q H) as (H1 & evs1 & Ht1 & Hs1).
  destruct (Retr2.cortex_search E q w) as [[ctx src] wp].
  cbn [snd] in H1, Ht1.
  set (p := {| p_ctx := ctx; p_price := carbon_price (st wp);
               p_history := last_n 3 (get_recent_history (st w));
               p_question := q |}).
  unfold llm_complete.
  destruct (throttle_time H1) as (H2 & evs2 & Ht2 & Hs2 & _).
  destruct (attempts_two_time E MODEL_NAME p H2) as (H3 & evs3 & Ht3 & Hs3).
  destruct (attempts E MODEL_NAME p 2 2 0 (throttle wp)) as [answer wl].
  cbn [snd] in H3, Ht3.
  assert (Hbase : exists evs,
             trace wl = trace w ++ evs /\ (0 <= time_asleep evs <= 7)%Q).
  { exists (evs1 ++ evs2 ++ evs3). rewrite Ht3, Ht2, Ht1, <- !app_assoc.
    split; [reflexivity|].
    pose proof (time_asleep_app evs1 (evs2 ++ evs3)) as A1.
    pose proof (time_asleep_app evs2 evs3) as A2.
    assert (Z1 : (time_asleep evs1 == 0)%Q)
      by (unfold time_asleep; rewrite Hs1; reflexivity).
    unfold MIN_REQUEST_INTERVAL in Hs2. lra. }
  destruct answer as [[|c a]|]; cbn [snd]; try (split; [exact H3 | exact Hbase]).
  split; [exact H3|].
  destruct Hbase as (evs & Ht & Hs).
  exists (evs ++ [StMarkdown assistant (Text (c :: a));
                  StCaption (u "Source: " ++ src)]).
  cbn [trace emit append_message with_st]. rewrite Ht, <- !app_assoc.
  split; [reflexivity|].
  pose proof (time_asleep_app evs
                [StMarkdown assistant (Text (c :: a));
                 StCaption (u "Source: " ++ src)]) as A1.
  assert (Z1 : (time_asleep [StMarkdown assistant (Text (c :: a));
                             StCaption (u "Source: " ++ src)] == 0)%Q)
    by reflexivity.
  lra.
Qed.

(** X12: a run of [main] sleeps for at most 7 seconds in all, the throttle's 2
    and one retry delay of 5, provided the throttle marker is not in the
    future; the marker is then not in the future afterwards either. *)
Theorem main_sleeps_at_most (E : env) (input : option pystr) (w : world) :
  marker_in_past w ->
  marker_in_past (snd (main E input w)) /\
  exists evs,
    trace (snd (main E input w)) = trace w ++ evs /\
    (0 <= time_asleep evs <= 7)%Q.
Proof.
  intros H.
  assert (Hnil : marker_in_past w /\
                 exists evs, trace w = trace w ++ evs /\
                             (0 <= time_asleep evs <= 7)%Q).
  { split; [exact H|]. exists []. rewrite app_nil_r. split; [reflexivity|].
    unfold time_asleep. simpl. lra. }
  destruct input as [[|c q]|]; cbn [main snd]; try exact Hnil.
  unfold main_turn.
  set (w0 := emit (StMarkdown user (Text (c :: q)))
                  (append_message user (Text (c :: q)) w)).
  assert (H0 : marker_in_past w0) by exact H.
  destruct (V2.extract_cbam_request (c :: q)) as [[[prod qty] em] origin].
  destruct (fast_path_factor prod qty em) as [[[p n] x]|].
  - destruct (float_of_int n) as [fq|]; cbn [snd].
    + split; [exact H|]. eexists.
      cbn [trace emit append_message with_st]. subst w0.
      cbn [trace emit append_message with_st]. rewrite <- app_assoc.
      split; [reflexivity|]. unfold time_asleep. simpl. lra.
    + split; [exact H|]. eexists. subst w0.
      cbn [trace emit append_message with_st].
      split; [reflexivity|]. unfold time_asleep. simpl. lra.
  - destruct (slow_path_time E (c :: q) H0) as (H1 & evs & Ht & Hs).
    split; [exact H1|].
    exists (StMarkdown user (Text (c :: q)) :: evs).
    rewrite Ht. subst w0. cbn [trace emit append_message with_st].
    rewrite <- app_assoc. split; [reflexivity|].
    unfold time_asleep in *. cbn [sleeps]. exact Hs.
Qed.

Lemma main_sleeps_at_most_witness :
  marker_in_past fresh_world /\
  exists evs,
    trace (snd (main (stub_env (inr (u "down"))) (Some (u "what is CBAM?"))
                     fresh_world))
    = trace fresh_world ++ evs /\
    (0 <= time_asleep evs <= 7)%Q.
Proof.
  assert (H : marker_in_past fresh_world).
  { unfold marker_in_past. simpl. unfold Qle. simpl. lia. }
  split; [exact H|].
  exact (proj2 (main_sleeps_at_most (stub_env (inr (u "down")))
                                    (Some (u "what is CBAM?")) H)).
Defined.

(* ===================================================================== *)
(** * Numbers the classifier returns                                      *)
(* ===================================================================== *)

Lemma shr_1_nonneg mrs : (0 <= shr_m mrs)%Z -> (0 <= shr_m (shr_1 mrs))%Z.
Proof.
  destruct mrs as [m r s]. destruct m as [|[p|p|]|p]; simpl; lia.
Qed.

Lemma iter_shr_1_nonneg n : forall mrs,
  (0 <= shr_m mrs)%Z -> (0 <= shr_m (iter_pos shr_1 n mrs))%Z.
Proof.
  induction n as [n IH | n IH |]; intros mrs H; simpl.
  - apply IH, IH, shr_1_nonneg, H.
  - apply IH, IH, H.
  - apply shr_1_nonneg, H.
Qed.

Lemma shr_fexp_nonneg m e l :
  (0 <= m)%Z ->
  (0 <= shr_m (fst (shr_fexp F64.prec F64.emax m e l)))%Z.
Proof.
  intros H. unfold shr_fexp, shr.
  assert (H0 : (0 <= shr_m (shr_record_of_loc m l))%Z)
    by (destruct l as [|[| |]]; exact H).
  destruct (fexp F64.prec F64.emax (Zdigits2 m + e) - e)%Z; cbn [fst];
    [exact H0 | apply iter_shr_1_nonneg, H0 | exact H0].
Qed.

Lemma round_nearest_even_nonneg m l :
  (0 <= m)%Z -> (0 <= round_nearest_even m l)%Z.
Proof.
  intros H. destruct l as [|[| |]]; simpl; try destruct (Z.even m); lia.
Qed.

(** Rounding a non-negative mantissa with the sign bit clear gives a
    number that is zero or greater. *)
Lemma binary_round_aux_nonneg m e l :
  (0 <= m)%Z -> nonneg (binary_round_aux F64.prec F64.emax false m e l).
Proof.
  intros H. unfold binary_round_aux.
  pose proof (shr_fexp_nonneg e l H) as H1.
  destruct (shr_fexp F64.prec F64.emax m e l) as [mrs e']. cbn [fst] in H1.
  pose proof (shr_fexp_nonneg e' loc_Exact
                (round_nearest_even_nonneg (loc_of_shr_record mrs) H1)) as H2.
  destruct (shr_fexp F64.prec F64.emax _ e' loc_Exact) as [mrs' e''].
  cbn [fst] in H2.
  destruct (shr_m mrs'); [reflexivity | | lia].
  destruct (Z.leb e'' _); reflexivity.
Qed.

Lemma of_ratio_nonneg n d : nonneg (F64.of_ratio n d).
Proof.
  unfold F64.of_ratio, SFdiv_core_binary.
  set (s := (0 - 0 - _)%Z).
  set (m' := match s with
             | Z0 => Z.pos n
             | Z.pos _ => Z.shiftl (Z.pos n) s
             | Z.neg _ => 0%Z
             end).
  assert (Hm : (0 <= m')%Z).
  { subst m'. destruct s; [lia | | lia]. apply Z.shiftl_nonneg. lia. }
  pose proof (Z.div_pos m' (Z.pos d) Hm ltac:(lia)) as Hq.
  unfold Z.div in Hq.
  destruct (Z.div_eucl m' (Z.pos d)) as [q r].
  apply binary_round_aux_nonneg. exact Hq.
Qed.

Lemma of_str_nonneg s : nonneg (F64.of_str s).
Proof.
  unfold F64.of_str. destruct (F64.split_dot s) as [ip fp].
  unfold F64.of_decimal. destruct (int_of_digits (ip ++ fp)).
  - reflexivity.
  - apply of_ratio_nonneg.
Qed.


(* ===================================================================== *)
(** * Quantities with thousands separators                                *)
(* ===================================================================== *)

Lemma thousands_app t1 t2 : thousands t1 -> thousands t2 -> thousands (t1 ++ t2).
Proof.
  induction 1 as [|a b c rest Ha Hb Hc _ IH]; intros H2; [exact H2|].
  simpl. constructor; auto.
Qed.

Lemma all_of_rev p s : all_of p (rev s) <-> all_of p s.
Proof.
  unfold all_of. rewrite !forallb_forall. split; intros H x Hx; apply H.
  - apply in_rev. rewrite rev_involutive. exact Hx.
  - apply in_rev. exact Hx.
Qed.

Lemma commas_rev_short ds : (List.length ds <= 3)%nat -> commas_rev ds = ds.
Proof.
  destruct ds as [|a [|b [|c [|x rest]]]]; simpl; try reflexivity; lia.
Qed.

Lemma remove_comma_group a b c :
  is_digit a = true -> is_digit b = true -> is_digit c = true ->
  remove_char comma [comma; c; b; a] = [c; b; a].
Proof.
  intros Ha Hb Hc.
  change [comma; c; b; a] with ([comma] ++ [c; b; a]).
  unfold remove_char at 1. rewrite filter_app.
  change (filter (fun x : N => negb (x =? comma)) [c; b; a])
    with (remove_char comma [c; b; a]).
  rewrite digits_no_comma; [reflexivity|].
  unfold all_of. simpl. rewrite Ha, Hb, Hc. reflexivity.
Qed.

Lemma remove_char_app c a b :
  remove_char c (a ++ b) = remove_char c a ++ remove_char c b.
Proof. unfold remove_char. apply filter_app. Qed.

Lemma commas_rev_long a b c x rest :
  commas_rev (a :: b :: c :: x :: rest)
  = [a; b; c; comma] ++ commas_rev (x :: rest).
Proof. reflexivity. Qed.

(** The shape of a quantity written with thousands separators. *)
Lemma commas_rev_shape : forall (n : nat) ds,
  (List.length ds <= n)%nat -> all_of is_digit ds -> ds <> [] ->
  exists d t,
    rev (commas_rev ds) = d ++ t /\ some_of is_digit d /\ thousands t /\
    remove_char comma (d ++ t) = rev ds.
Proof.
  induction n as [|n IH]; intros ds Hn Hd Hne.
  - destruct ds; [congruence | simpl in Hn; lia].
  - destruct (le_lt_dec (List.length ds) 3) as [Hs|Hl].
    + exists (rev ds), []. rewrite commas_rev_short, app_nil_r by exact Hs.
      assert (H : all_of is_digit (rev ds)) by (apply all_of_rev, Hd).
      repeat split; try constructor; try exact H.
      * intros E. apply (f_equal (@rev N)) in E.
        rewrite rev_involutive in E. exact (Hne E).
      * apply digits_no_comma, H.
    + destruct ds as [|a [|b [|c [|x rest]]]]; try (simpl in Hl; lia).
      rewrite commas_rev_long.
      apply all_of_cons in Hd. destruct Hd as [Ha Hd].
      apply all_of_cons in Hd. destruct Hd as [Hb Hd].
      apply all_of_cons in Hd. destruct Hd as [Hc Hd].
      destruct (IH (x :: rest)) as (d & t & E & Hdd & Ht & Hr);
        [simpl in *; lia | exact Hd | discriminate |].
      exists d, (t ++ [comma; c; b; a]).
      rewrite rev_app_distr, E, <- app_assoc.
      repeat split; try apply Hdd.
      * apply thousands_app; [exact Ht|]. repeat constructor; assumption.
      * rewrite app_assoc, remove_char_app, Hr, remove_comma_group
          by assumption.
        change (a :: b :: c :: x :: rest) with ([a; b; c] ++ x :: rest).
        rewrite rev_app_distr. reflexivity.
Qed.

Lemma format_thousands_shape n :
  exists d t,
    format_thousands n = d ++ t /\ some_of is_digit d /\ thousands t /\
    remove_char comma (d ++ t) = str_of_int n.
Proof.
  unfold format_thousands.
  destruct (@commas_rev_shape (List.length (rev (str_of_int n)))
                              (rev (str_of_int n))) as (d & t & E & Hd & Ht & Hr).
  - lia.
  - apply all_of_rev, str_of_int_digits.
  - intros H. apply (f_equal (@rev N)) in H. rewrite rev_involutive in H.
    revert H. apply str_of_int_digits.
  - exists d, t. rewrite rev_involutive in Hr. auto.
Qed.

Lemma rmatch_sep_group (A : Type) a b c s cs (k : cont A) :
  is_digit a = true -> is_digit b = true -> is_digit c = true ->
  rmatch sep_group (comma :: a :: b :: c :: s) cs k = k s cs.
Proof.
  intros Ha Hb Hc. unfold sep_group. cbn [Re.seq].
  unfold Re.lit_i, Re.digit.
  rewrite rmatch_cat, rmatch_cls_hit by reflexivity. cbv beta.
  rewrite rmatch_cat, rmatch_cls_hit by assumption. cbv beta.
  rewrite rmatch_cat, rmatch_cls_hit by assumption. cbv beta.
  rewrite rmatch_cls_hit by assumption. reflexivity.
Qed.

Lemma rmatch_sep_group_stops (A : Type) s cs (k : cont A) :
  stops (fun x => x =? comma) s -> rmatch sep_group s cs k = None.
Proof.
  intros H. unfold sep_group. cbn [Re.seq]. rewrite rmatch_cat.
  unfold Re.lit_i. apply rmatch_cls_stops.
  destruct s as [|x s]; [exact I|]. simpl in *.
  apply N.eqb_neq in H. apply N.eqb_neq.
  unfold lower_char. change (is_upper comma) with false. cbv iota.
  destruct (is_upper x) eqn:U; [|exact H].
  unfold is_upper, comma in *. apply andb_true_iff in U. destruct U as [U1 U2].
  apply N.leb_le in U1. lia.
Qed.

Lemma star_loop_thousands (A : Type) (k : cont A) cs a rest :
  stops (fun x => x =? comma) rest ->
  k rest cs = Some a ->
  forall T, thousands T ->
  forall fuel, (List.length (T ++ rest) <= fuel)%nat ->
  star_loop (rmatch sep_group) true fuel (T ++ rest) cs k = Some a.
Proof.
  intros Hstop Hk. induction 1 as [|x y z T Hx Hy Hz _ IH]; intros fuel Hf.
  - destruct fuel; cbn [star_loop app]; [exact Hk|].
    rewrite rmatch_sep_group_stops by exact Hstop. exact Hk.
  - destruct fuel as [|fuel]; [simpl in Hf; lia|].
    cbn [star_loop].
    change ((comma :: x :: y :: z :: T) ++ rest)
      with (comma :: x :: y :: z :: T ++ rest).
    rewrite rmatch_sep_group by assumption.
    replace (List.length (T ++ rest)
             <? List.length (comma :: x :: y :: z :: T ++ rest))%nat
      with true by (symmetry; apply Nat.ltb_lt; simpl; lia).
    rewrite IH; [reflexivity | simpl in Hf; lia].
Qed.

Lemma thousands_stops_digit T rest :
  thousands T -> stops is_digit rest -> stops is_digit (T ++ rest).
Proof. intros HT Hs. destruct HT; [exact Hs | reflexivity]. Qed.

(** What follows the integer in the quantity pattern of the second
    variant. *)
Lemma qty_tail_forward (A : Type) P rest (k : cont A) c a :
  some_of is_word P -> stops is_word rest ->
  k rest ((2%nat, P) :: c) = Some a ->
  rmatch (Re.seq [ Re.plus Re.space;
                   Re.str_i (u "ton"); Re.opt (Re.lit_i (chr "s"));
                   Re.plus Re.space;
                   Re.opt (Cat (Re.str_i (u "of")) (Re.plus Re.space));
                   Grp 2 (Re.plus Re.word) ])
         (u " tons of " ++ P ++ rest) c k = Some a.
Proof.
  intros HP Hrest Hk.
  change (u " tons of " ++ P ++ rest)
    with ([32] ++ u "tons" ++ [32] ++ u "of" ++ [32] ++ P ++ rest).
  cbn [Re.seq].
  rewrite rmatch_cat. unfold Re.space.
  apply rmatch_plus_cls_greedy; [split; [discriminate | reflexivity] | reflexivity |].
  rewrite rmatch_cat. lit_hit ([115] ++ [32] ++ u "of" ++ [32] ++ P ++ rest).
  rewrite rmatch_cat. apply rmatch_opt_taken.
  unfold Re.lit_i. change ([115] ++ ?x) with (115 :: x).
  rewrite rmatch_cls_hit by reflexivity.
  rewrite rmatch_cat.
  apply rmatch_plus_cls_greedy; [split; [discriminate | reflexivity] | reflexivity |].
  rewrite rmatch_cat. apply rmatch_opt_taken.
  rewrite rmatch_cat. lit_hit ([32] ++ P ++ rest).
  destruct HP as [HPne HPw].
  apply rmatch_plus_cls_greedy; [split; [discriminate | reflexivity] | |].
  { destruct P as [|x P]; [congruence|]. apply all_of_cons in HPw.
    apply word_not_space, HPw. }
  rewrite rmatch_grp. unfold Re.word.
  apply rmatch_plus_cls_greedy; [split; assumption | exact Hrest |].
  rewrite firstn_consumed. exact Hk.
Qed.

Lemma qty_forward_sep (A : Type) D T P rest (k : cont A) c a :
  some_of is_digit D -> thousands T ->
  some_of is_word P -> stops is_word rest ->
  k rest ((2%nat, P) :: (1%nat, D ++ T) :: c) = Some a ->
  rmatch V2.qty_re ((D ++ T) ++ u " tons of " ++ P ++ rest) c k = Some a.
Proof.
  intros HD HT HP Hrest Hk.
  unfold V2.qty_re.
  change (Re.seq (?g :: ?tl)) with (Cat g (Re.seq tl)).
  rewrite rmatch_cat, rmatch_grp, rmatch_cat.
  rewrite <- (app_assoc D T).
  unfold Re.digit. apply rmatch_plus_cls_greedy; [exact HD | |].
  { apply thousands_stops_digit; [exact HT | reflexivity]. }
  rewrite rmatch_star.
  fold sep_group.
  rewrite star_loop_thousands with (a := a);
    [reflexivity | reflexivity | | exact HT | lia].
  rewrite (app_assoc D T), firstn_consumed.
  apply qty_tail_forward; assumption.
Qed.



Lemma int_of_digits_app a b :
  int_of_digits (a ++ b)
  = int_of_digits a * 10 ^ N.of_nat (List.length b) + int_of_digits b.
Proof.
  unfold int_of_digits. rewrite fold_left_app.
  generalize (fold_left (fun acc c => acc * 10 + digit_val c) a 0).
  induction b as [|x b IH]; intros acc.
  - simpl. lia.
  - cbn [fold_left List.length]. rewrite IH, (IH (0 * 10 + digit_val x)).
    rewrite Nat2N.inj_succ, N.pow_succ_r'. lia.
Qed.

Lemma int_of_digits_bound s :
  all_of is_digit s -> int_of_digits s < 10 ^ N.of_nat (List.length s).
Proof.
  induction s as [|x s IH] using rev_ind; intros H.
  - simpl. reflexivity.
  - apply all_of_app in H. destruct H as [Hs Hx].
    apply all_of_cons in Hx. destruct Hx as [Hx _].
    rewrite int_of_digits_app, length_app. cbn [List.length].
    specialize (IH Hs).
    replace (N.of_nat (List.length s + 1)) with (N.succ (N.of_nat (List.length s)))
      by lia.
    rewrite N.pow_succ_r'.
    change (int_of_digits [x]) with (0 * 10 + digit_val x).
    change (10 ^ N.of_nat 1) with 10.
    assert (digit_val x < 10).
    { unfold digit_val, is_digit in *. apply andb_true_iff in Hx.
      destruct Hx as [H1 H2]. apply N.leb_le in H1, H2. lia. }
    lia.
Qed.

Lemma thousands_digit_or_comma t :
  thousands t -> all_of is_digit_or_comma t.
Proof.
  induction 1 as [|a b c rest Ha Hb Hc _ IH]; [reflexivity|].
  unfold all_of, is_digit_or_comma in *. simpl.
  rewrite Ha, Hb, Hc, IH. reflexivity.
Qed.

Lemma digits_digit_or_comma d : all_of is_digit d -> all_of is_digit_or_comma d.
Proof.
  unfold all_of, is_digit_or_comma. rewrite !forallb_forall.
  intros H x Hx. rewrite (H x Hx). reflexivity.
Qed.

(** A quantity of four or more digits, written with separators: what
    stands before the last comma, and the three digits after it. *)
Lemma format_thousands_last_group n :
  1000 <= n ->
  exists pre x y z,
    format_thousands n = pre ++ comma :: [x; y; z] /\
    all_of is_digit_or_comma pre /\
    all_of is_digit [x; y; z] /\
    int_of_digits [x; y; z] = n mod 1000.
Proof.
  intros Hn. unfold format_thousands.
  pose proof (str_of_int_digits n) as [_ Hd].
  pose proof (int_of_str_of_int n) as Hv.
  pose proof (int_of_digits_bound Hd) as Hb. rewrite Hv in Hb.
  rewrite <- (rev_involutive (str_of_int n)) in Hv.
  apply all_of_rev in Hd. rewrite <- length_rev in Hb.
  destruct (rev (str_of_int n)) as [|a [|b [|c [|x rest]]]];
    try (simpl in Hb; lia).
  rewrite commas_rev_long, rev_app_distr.
  apply all_of_cons in Hd. destruct Hd as [Ha Hd].
  apply all_of_cons in Hd. destruct Hd as [Hb' Hd].
  apply all_of_cons in Hd. destruct Hd as [Hc Hd].
  destruct (@commas_rev_shape (List.length (x :: rest)) (x :: rest))
    as (d & t & E & Hdd & Ht & Hr); [lia | exact Hd | discriminate |].
  exists (rev (commas_rev (x :: rest))), c, b, a.
  split; [reflexivity|]. split; [|split].
  - rewrite E. apply all_of_app. split.
    + apply digits_digit_or_comma, Hdd.
    + apply thousands_digit_or_comma, Ht.
  - unfold all_of. simpl. rewrite Ha, Hb', Hc. reflexivity.
  - change (a :: b :: c :: x :: rest) with ([a; b; c] ++ x :: rest) in Hv.
    rewrite rev_app_distr, int_of_digits_app in Hv.
    change (rev [a; b; c]) with [c; b; a] in Hv.
    change (10 ^ N.of_nat (List.length [c; b; a])) with 1000 in Hv.
    assert (Hlt : int_of_digits [c; b; a] < 1000).
    { apply (@int_of_digits_bound [c; b; a]).
      unfold all_of. simpl. rewrite Ha, Hb', Hc. reflexivity. }
    rewrite <- Hv.
    rewrite N.add_comm, N.Div0.mod_add. symmetry. apply N.mod_small, Hlt.
Qed.

(** The first variant's quantity pattern, forward. *)
Lemma qty1_forward (A : Type) D P rest (k : cont A) c a :
  some_of is_digit D -> some_of is_word P -> stops is_word rest ->
  k rest ((2%nat, P) :: (1%nat, D) :: c) = Some a ->
  rmatch V1.qty_re (D ++ u " tons of " ++ P ++ rest) c k = Some a.
Proof.
  intros HD HP Hrest Hk.
  change (u " tons of " ++ P ++ rest)
    with ([32] ++ u "tons" ++ [32] ++ u "of" ++ [32] ++ P ++ rest).
  unfold V1.qty_re. cbn [Re.seq].
  rewrite rmatch_cat, rmatch_grp.
  unfold Re.digit. apply rmatch_plus_cls_greedy; [exact HD | reflexivity |].
  rewrite firstn_consumed.
  rewrite rmatch_cat. unfold Re.space.
  apply rmatch_plus_cls_greedy; [split; [discriminate | reflexivity] | reflexivity |].
  rewrite rmatch_cat. lit_hit ([115] ++ [32] ++ u "of" ++ [32] ++ P ++ rest).
  rewrite rmatch_cat. apply rmatch_opt_taken.
  unfold Re.lit_i. change ([115] ++ ?x) with (115 :: x).
  rewrite rmatch_cls_hit by reflexivity.
  rewrite rmatch_cat.
  apply rmatch_plus_cls_greedy; [split; [discriminate | reflexivity] | reflexivity |].
  rewrite rmatch_cat. lit_hit ([32] ++ P ++ rest).
  destruct HP as [HPne HPw].
  rewrite rmatch_cat.
  apply rmatch_plus_cls_greedy; [split; [discriminate | reflexivity] | |].
  { destruct P as [|x P]; [congruence|]. apply all_of_cons in HPw.
    apply word_not_space, HPw. }
  rewrite rmatch_grp. unfold Re.word.
  apply rmatch_plus_cls_greedy; [split; assumption | exact Hrest |].
  rewrite firstn_consumed. exact Hk.
Qed.

(** Digits that run into a comma start no quantity for the first
    variant. *)
Lemma qty1_fails_digits_comma w s :
  all_of is_digit w -> fails_at V1.qty_re (w ++ comma :: s).
Proof.
  intros Hw A k c. unfold V1.qty_re. cbn [Re.seq].
  rewrite rmatch_cat, rmatch_grp. unfold Re.plus at 1. rewrite rmatch_cat.
  unfold Re.digit.
  destruct w as [|x w]; [apply rmatch_cls_stops; reflexivity|].
  apply all_of_cons in Hw. destruct Hw as [Hx Hw].
  change ((x :: w) ++ comma :: s) with (x :: w ++ comma :: s).
  rewrite rmatch_cls_hit by exact Hx.
  apply rmatch_star_cls_none; [exact Hw | reflexivity |].
  intros w1 w2 E. rewrite rmatch_cat. unfold Re.plus. rewrite rmatch_cat.
  unfold Re.space. apply rmatch_cls_stops.
  destruct w2 as [|y w2]; [reflexivity|].
  assert (Hy : is_digit y = true).
  { rewrite E in Hw. apply all_of_app in Hw. destruct Hw as [_ Hw].
    apply all_of_cons in Hw. tauto. }
  simpl. apply digit_not_space, Hy.
Qed.

Lemma split_at_comma b : all_of is_digit_or_comma b ->
  forall R, exists w s, all_of is_digit w /\ b ++ comma :: R = w ++ comma :: s.
Proof.
  induction b as [|x b IH]; intros H R.
  - exists [], R. split; reflexivity.
  - apply all_of_cons in H. destruct H as [Hx Hb].
    destruct (IH Hb R) as (w & s & Hw & E).
    unfold is_digit_or_comma in Hx. apply orb_true_iff in Hx.
    destruct Hx as [Hx|Hx].
    + exists (x :: w), s. split.
      * apply all_of_cons. split; assumption.
      * simpl. rewrite E. reflexivity.
    + apply N.eqb_eq in Hx. subst x.
      exists [], (b ++ comma :: R). split; reflexivity.
Qed.




(* ===================================================================== *)
(** * The first variant's classifier                                    *)
(* ===================================================================== *)

Lemma matchc_number1_inv g s c c' :
  matchc (V1.number g) s c c' -> numeral s.
Proof.
  unfold V1.number. intros H. apply matchc_cat_inv in H.
  destruct H as (ip & r & c1 & -> & Hi & Hr).
  apply matchc_plus_cls_inv in Hi. destruct Hi as [Hi ->].
  apply matchc_opt_inv in Hr. destruct Hr as [Hr | [-> ->]].
  - apply matchc_grp_inv in Hr. destruct Hr as (c2 & Hr & ->).
    apply matchc_cat_inv in Hr. destruct Hr as (dt & fp & c3 & -> & Hdot & Hf).
    apply matchc_cls_inv in Hdot. destruct Hdot as (x & -> & Hx & ->).
    apply N.eqb_eq in Hx. apply lower_char_symbol in Hx; try reflexivity.
    subst x.
    apply matchc_plus_cls_inv in Hf. destruct Hf as [Hf ->].
    exists ip. split; trivial. right. exists fp. split; trivial.
  - exists ip. rewrite app_nil_r. auto.
Qed.

Lemma matches_number1 g s : numeral s -> matches (V1.number g) s.
Proof.
  intros (ip & Hi & [-> | (fp & Hf & ->)]); unfold V1.number.
  - rewrite <- (app_nil_r ip). apply matches_cat.
    + apply matches_plus_cls. exact Hi.
    + apply matches_opt_none.
  - apply matches_cat; [apply matches_plus_cls; exact Hi|].
    apply matches_opt_some. apply matches_grp.
    change (46 :: fp) with ([46] ++ fp).
    apply matches_cat; [apply matches_cls; reflexivity|].
    apply matches_plus_cls. exact Hf.
Qed.

Lemma matchc_qty1_inv mid c c' :
  matchc V1.qty_re mid c c' ->
  exists g1 g2, qty1_shape g1 g2 mid /\ c' = (2%nat, g2) :: (1%nat, g1) :: c.
Proof.
  unfold V1.qty_re. cbn [Re.seq]. intros H.
  apply matchc_cat_inv in H. destruct H as (g1 & r1 & c1 & -> & Hg1 & H).
  apply matchc_cat_inv in H. destruct H as (ws1 & r2 & c2 & -> & Hw1 & H).
  apply matchc_cat_inv in H. destruct H as (tn & r3 & c3 & -> & Htn & H).
  apply matchc_cat_inv in H. destruct H as (sx & r4 & c4 & -> & Hsx & H).
  apply matchc_cat_inv in H. destruct H as (ws2 & r5 & c5 & -> & Hw2 & H).
  apply matchc_cat_inv in H. destruct H as (o & r6 & c6 & -> & Ho & H).
  apply matchc_cat_inv in H. destruct H as (ws3 & g2 & c7 & -> & Hw3 & Hg2).
  apply matchc_grp_inv in Hg1. destruct Hg1 as (d1 & Hg1 & ->).
  apply matchc_plus_cls_inv in Hg1. destruct Hg1 as [Hg1 ->].
  apply matchc_plus_cls_inv in Hw1. destruct Hw1 as [Hw1 ->].
  apply matchc_str_i_inv in Htn. destruct Htn as (Ltn & Htn & ->).
  apply matchc_plus_cls_inv in Hw2. destruct Hw2 as [Hw2 ->].
  apply matchc_str_i_inv in Ho. destruct Ho as (Lo & Ho & ->).
  apply matchc_plus_cls_inv in Hw3. destruct Hw3 as [Hw3 ->].
  apply matchc_grp_inv in Hg2. destruct Hg2 as (d2 & Hg2 & ->).
  apply matchc_plus_cls_inv in Hg2. destruct Hg2 as [Hg2 ->].
  assert (Hton : ton_word (tn ++ sx) /\ c4 = (1%nat, g1) :: c).
  { apply matchc_opt_inv in Hsx. destruct Hsx as [Hsx | [-> ->]].
    - apply matchc_lit_i_inv in Hsx. destruct Hsx as (Ls & Hs & ->).
      split; trivial. right. unfold ci_eq, lower in *.
      rewrite map_app, Htn, Hs. reflexivity.
    - split; trivial. left. rewrite app_nil_r. exact Htn. }
  destruct Hton as [Hton ->].
  exists g1, g2. split; trivial.
  exists ws1, (tn ++ sx), ws2, o, ws3. rewrite <- !app_assoc.
  repeat split; trivial;
    try apply Hg1; try apply Hw1; try apply Hw2; try apply Hw3; try apply Hg2.
Qed.

Lemma matches_qty1 g1 g2 mid : qty1_shape g1 g2 mid -> matches V1.qty_re mid.
Proof.
  intros (ws1 & t & ws2 & o & ws3 & -> & Hd & Hw1 & Ht & Hw2 & Ho & Hw3 & Hg2).
  unfold V1.qty_re. cbn [Re.seq].
  apply matches_cat; [apply matches_grp, matches_plus_cls; exact Hd|].
  apply matches_cat; [apply matches_plus_cls; exact Hw1|].
  apply matches_ton in Ht. destruct Ht as (c0 & c1 & Ht).
  apply matchc_cat_inv in Ht. destruct Ht as (t1 & t2 & c2 & -> & Ht1 & Ht2).
  rewrite <- app_assoc.
  apply matches_cat; [eexists; eexists; exact Ht1|].
  apply matches_cat; [eexists; eexists; exact Ht2|].
  apply matches_cat; [apply matches_plus_cls; exact Hw2|].
  apply matches_cat; [apply matches_str_i; [apply ci_eq_length|]; exact Ho|].
  apply matches_cat; [apply matches_plus_cls; exact Hw3|].
  apply matches_grp, matches_plus_cls. exact Hg2.
Qed.

Lemma matchc_em1_inv mid c c' :
  matchc V1.em_re mid c c' ->
  exists g1 c1, em1_shape g1 mid /\ c' = (1%nat, g1) :: c1.
Proof.
  unfold V1.em_re. cbn [Re.seq]. intros H.
  apply matchc_cat_inv in H. destruct H as (g1 & r1 & c1 & -> & Hg1 & H).
  apply matchc_cat_inv in H. destruct H as (ws & un & c2 & -> & Hws & Hun).
  apply matchc_grp_inv in Hg1. destruct Hg1 as (d1 & Hg1 & ->).
  apply matchc_number1_inv in Hg1.
  apply matchc_star_cls_inv in Hws. destruct Hws as [Hws ->].
  apply matchc_str_i_inv in Hun. destruct Hun as (Lt & Hun & ->).
  exists g1, d1. split; trivial. exists ws, un. auto.
Qed.

Lemma matches_em1 g1 mid : em1_shape g1 mid -> matches V1.em_re mid.
Proof.
  intros (ws & un & -> & Hg & Hws & Hun).
  unfold V1.em_re. cbn [Re.seq].
  apply matches_cat; [apply matches_grp, matches_number1; exact Hg|].
  apply matches_cat; [apply matches_star_cls; exact Hws|].
  apply matches_str_i; [apply ci_eq_length|]; exact Hun.
Qed.

Lemma matchc_keyword1_inv s c c' :
  matchc (Alt (Re.str_i (u "origin")) (Re.str_i (u "paid"))) s c c' ->
  keyword1 s /\ c' = c.
Proof.
  intros H. apply matchc_alt_inv in H. destruct H as [H|H];
    apply matchc_str_i_inv in H; destruct H as (_ & H & ->);
    (split; [|reflexivity]); [left | right]; exact H.
Qed.

Lemma matches_keyword1 s :
  keyword1 s ->
  matches (Alt (Re.str_i (u "origin")) (Re.str_i (u "paid"))) s.
Proof.
  intros [H|H].
  - apply matches_alt_l. apply matches_str_i; [apply ci_eq_length|]; exact H.
  - apply matches_alt_r.
    apply matches_str_i; [apply ci_eq_length|]; exact H.
Qed.

Lemma euro_opt_inv eur c c' :
  matchc (Re.opt (Re.str_i (u "€"))) eur c c' ->
  (eur = [] \/ eur = u "€") /\ c' = c.
Proof.
  intros Heur.
  apply matchc_opt_inv in Heur. destruct Heur as [He | [-> ->]]; [|auto].
  apply matchc_str_i_inv in He. destruct He as (L & He & ->).
  split; trivial. right.
  destruct eur as [|x [|? ?]]; try discriminate.
  unfold ci_eq in He. simpl in He. inv He.
  apply lower_char_symbol in H0; try reflexivity. subst x. reflexivity.
Qed.

Lemma matchc_origin1_inv mid c c' :
  matchc V1.origin_re mid c c' ->
  exists g1 c1, origin1_shape g1 mid /\ c' = (1%nat, g1) :: c1.
Proof.
  unfold V1.origin_re. cbn [Re.seq]. intros H.
  apply matchc_cat_inv in H. destruct H as (kw & r1 & c1 & -> & Hkw & H).
  apply matchc_cat_inv in H. destruct H as (gap & r2 & c2 & -> & Hgap & H).
  apply matchc_cat_inv in H. destruct H as (eur & g1 & c3 & -> & Heur & Hg1).
  apply matchc_keyword1_inv in Hkw. destruct Hkw as [Hkw ->].
  apply matchc_star_cls_inv in Hgap. destruct Hgap as [Hgap ->].
  apply matchc_grp_inv in Hg1. destruct Hg1 as (d1 & Hg1 & ->).
  apply matchc_number1_inv in Hg1.
  apply euro_opt_inv in Heur. destruct Heur as [He ->].
  exists g1, d1. split; trivial. exists kw, gap, eur. auto.
Qed.

Lemma matches_origin1 g1 mid : origin1_shape g1 mid -> matches V1.origin_re mid.
Proof.
  intros (kw & gap & eur & -> & Hkw & Hgap & Heur & Hg).
  unfold V1.origin_re. cbn [Re.seq].
  apply matches_cat; [apply matches_keyword1; exact Hkw|].
  apply matches_cat; [apply matches_star_cls; exact Hgap|].
  apply matches_cat.
  - destruct Heur as [-> | ->]; [apply matches_opt_none|].
    apply matches_opt_some. apply matches_str_i; reflexivity.
  - apply matches_grp, matches_number1. exact Hg.
Qed.

(** What [re.match] with the first variant's origin-price pattern
    returns. *)
Lemma match_at_origin1 i s m :
  match_at V1.origin_re i s = Some m ->
  exists kw gap eur g1 post,
    s = (kw ++ gap ++ eur ++ g1) ++ post /\
    keyword1 kw /\ all_of not_newline gap /\
    all_of (fun c => negb (is_digit c)) gap /\
    (eur = [] \/ eur = u "€") /\ numeral g1 /\
    mgroup 1 m = g1.
Proof.
  unfold match_at, V1.origin_re. cbn [Re.seq]. intros H.
  rewrite rmatch_cat in H.
  apply rmatch_sound in H. destruct H as (kw & s2 & c1 & -> & Hkw & H).
  apply matchc_keyword1_inv in Hkw. destruct Hkw as [Hkw ->].
  rewrite rmatch_cat, rmatch_star in H. unfold Re.dot in H.
  apply star_lazy_cls_min in H.
  destruct H as (gap & rest & -> & Hgap & Hk & Hmin).
  pose proof Hk as Hk'. rewrite rmatch_cat in Hk'.
  apply rmatch_sound in Hk'. destruct Hk' as (eur & s3 & c2 & -> & Heur & Hk').
  apply rmatch_sound in Hk'. destruct Hk' as (g1 & post & c3 & -> & Hg1 & Hk').
  apply euro_opt_inv in Heur. destruct Heur as [He ->].
  apply matchc_grp_inv in Hg1. destruct Hg1 as (d1 & Hg1 & ->).
  apply matchc_number1_inv in Hg1.
  inv Hk'. unfold mgroup. cbn [m_groups group Nat.eqb].
  exists kw, gap, eur, g1, post. rewrite <- !app_assoc.
  repeat split; trivial.
  unfold all_of. apply forallb_forall. intros x Hx.
  destruct (is_digit x) eqn:Hd; [|reflexivity]. exfalso.
  apply in_split in Hx. destruct Hx as (a & b & E).
  specialize (Hmin a (x :: b) E ltac:(discriminate)).
  revert Hmin. change ((x :: b) ++ eur ++ g1 ++ post)
    with ([x] ++ (b ++ eur ++ g1 ++ post)).
  assert (Hm : matches (Cat (Re.opt (Re.str_i (u "€"))) (Grp 1 (V1.number 2)))
                       [x]).
  { change [x] with ([] ++ [x]). apply matches_cat; [apply matches_opt_none|].
    apply matches_grp, matches_number1. exists [x]. split; [|left; reflexivity].
    split; [discriminate|]. apply all_of_cons. split; [exact Hd | reflexivity]. }
  destruct Hm as (d0 & d1' & Hm).
  eapply rmatch_complete; [exact Hm|]. intros; discriminate.
Qed.

Lemma matches_qty1_iff mid : matches V1.qty_re mid <-> qty1_like mid.
Proof.
  split.
  - intros (c & c' & H). apply matchc_qty1_inv in H.
    destruct H as (g1 & g2 & H & _). exists g1, g2. exact H.
  - intros (g1 & g2 & H). eapply matches_qty1; eassumption.
Qed.

Lemma matches_em1_iff mid : matches V1.em_re mid <-> em1_like mid.
Proof.
  split.
  - intros (c & c' & H). apply matchc_em1_inv in H.
    destruct H as (g1 & c1 & H & _). exists g1. exact H.
  - intros (g1 & H). eapply matches_em1; eassumption.
Qed.

Lemma matches_origin1_iff mid : matches V1.origin_re mid <-> origin1_like mid.
Proof.
  split.
  - intros (c & c' & H). apply matchc_origin1_inv in H.
    destruct H as (g1 & c1 & H & _). exists g1. exact H.
  - intros (g1 & H). eapply matches_origin1; eassumption.
Qed.


(* ===================================================================== *)
(** * The first variant on normalized requests                          *)
(* ===================================================================== *)

Lemma number1_forward (A : Type) g ip fr rest (k : cont A) c a :
  some_of is_digit ip -> fraction fr -> ends_number rest ->
  k rest (fraction_caps g fr ++ c) = Some a ->
  rmatch (V1.number g) ((ip ++ fr) ++ rest) c k = Some a.
Proof.
  intros Hip Hfr Hrest Hk. unfold V1.number. rewrite rmatch_cat, <- app_assoc.
  unfold Re.digit.
  assert (Hd : stops is_digit rest).
  { destruct rest as [|x rest]; [exact I|]. unfold ends_number in Hrest.
    simpl in *. apply orb_false_iff in Hrest. tauto. }
  destruct Hfr as [-> | (fp & -> & Hfp)].
  - apply rmatch_plus_cls_greedy; [exact Hip | exact Hd |].
    cbn [app]. rewrite rmatch_opt_skipped; [exact Hk|].
    rewrite rmatch_grp, rmatch_cat. unfold Re.lit_i. apply rmatch_cls_stops.
    destruct rest as [|x rest]; [exact I|]. unfold ends_number in Hrest.
    simpl in *. apply orb_false_iff in Hrest. destruct Hrest as [_ Hx].
    revert Hx. char_solve.
  - apply rmatch_plus_cls_greedy; [exact Hip | reflexivity |].
    apply rmatch_opt_taken. rewrite rmatch_grp, rmatch_cat. unfold Re.lit_i.
    change ((46 :: fp) ++ rest) with (46 :: fp ++ rest) at 1.
    rewrite rmatch_cls_hit by reflexivity.
    apply rmatch_plus_cls_greedy; [exact Hfp | exact Hd |].
    rewrite firstn_consumed. exact Hk.
Qed.

Lemma em1_forward (A : Type) ip fr rest (k : cont A) c a :
  some_of is_digit ip -> fraction fr ->
  k rest ((1%nat, ip ++ fr) :: fraction_caps 2 fr ++ c) = Some a ->
  rmatch V1.em_re ((ip ++ fr) ++ u " tCO2e" ++ rest) c k = Some a.
Proof.
  intros Hip Hfr Hk. unfold V1.em_re. cbn [Re.seq].
  rewrite rmatch_cat, rmatch_grp.
  apply number1_forward; [exact Hip | exact Hfr | reflexivity |].
  rewrite firstn_consumed. rewrite rmatch_cat.
  change (u " tCO2e" ++ rest) with ([32] ++ u "tCO2e" ++ rest).
  unfold Re.space.
  apply rmatch_star_cls_greedy; [reflexivity | reflexivity |].
  rewrite rmatch_str_i_eval.
  change (starts_with_ci (u "tCO2e") (u "tCO2e" ++ rest)) with true.
  cbv iota.
  change (skipn (List.length (u "tCO2e")) (u "tCO2e" ++ rest)) with rest.
  exact Hk.
Qed.

Lemma origin1_forward (A : Type) ip fr rest (k : cont A) c a :
  some_of is_digit ip -> fraction fr -> ends_number rest ->
  k rest ((1%nat, ip ++ fr) :: fraction_caps 2 fr ++ c) = Some a ->
  rmatch V1.origin_re (u "origin €" ++ (ip ++ fr) ++ rest) c k = Some a.
Proof.
  intros Hip Hfr Hrest Hk. unfold V1.origin_re. cbn [Re.seq].
  rewrite rmatch_cat, rmatch_alt. apply orelse_some.
  lit_hit ([32] ++ u "€" ++ (ip ++ fr) ++ rest).
  rewrite rmatch_cat, rmatch_star. unfold Re.dot.
  apply star_loop_cls_lazy.
  - rewrite rmatch_cat. apply rmatch_opt_taken.
    lit_hit ((ip ++ fr) ++ rest).
    rewrite rmatch_grp. apply number1_forward; trivial.
    rewrite firstn_consumed. exact Hk.
  - reflexivity.
  - apply Nat.le_refl.
  - intros g1 g2 E Hne.
    destruct g1 as [|x [|? ?]]; try discriminate.
    + simpl in E. subst g2. rewrite rmatch_cat.
      rewrite rmatch_opt_skipped.
      * rewrite rmatch_grp. unfold V1.number, Re.plus. rewrite !rmatch_cat.
        apply rmatch_cls_stops. reflexivity.
      * rewrite rmatch_str_i_eval. reflexivity.
    + inversion E; subst. congruence.
Qed.

Lemma em1_fails_nondigit x s : is_digit x = false -> fails_at V1.em_re (x :: s).
Proof.
  intros H A k c. unfold V1.em_re. cbn [Re.seq].
  rewrite rmatch_cat, rmatch_grp. unfold V1.number, Re.plus.
  rewrite !rmatch_cat. apply rmatch_cls_stops. exact H.
Qed.

(** Digits that are followed by " to" are not declared emissions. *)
Lemma em1_fails_digits_to D s :
  all_of is_digit D -> fails_at V1.em_re (D ++ 32 :: 116 :: 111 :: s).
Proof.
  intros HD A k c. destruct D as [|x D].
  { apply em1_fails_nondigit. reflexivity. }
  apply all_of_cons in HD. destruct HD as [Hx HD].
  unfold V1.em_re. cbn [Re.seq].
  rewrite rmatch_cat, rmatch_grp. unfold V1.number, Re.plus.
  rewrite !rmatch_cat. unfold Re.digit.
  change ((x :: D) ++ 32 :: 116 :: 111 :: s)
    with (x :: D ++ 32 :: 116 :: 111 :: s) at 1.
  rewrite rmatch_cls_hit by exact Hx.
  apply rmatch_star_cls_none; [exact HD | reflexivity |].
  intros w1 w2 E.
  assert (Hw2 : all_of is_digit w2).
  { rewrite E in HD. apply all_of_app in HD. tauto. }
  rewrite rmatch_opt_skipped.
  - rewrite rmatch_cat. destruct w2 as [|y w2].
    + change ([] ++ 32 :: 116 :: 111 :: s) with ([32] ++ 116 :: 111 :: s).
      unfold Re.space.
      apply rmatch_star_cls_none; [reflexivity | reflexivity |].
      intros v1 v2 Ev. rewrite rmatch_str_i_eval.
      destruct v1 as [|? [|? ?]]; simpl in Ev; inversion Ev; subst;
        reflexivity.
    + apply all_of_cons in Hw2. destruct Hw2 as [Hy _].
      rewrite star_skip.
      * rewrite rmatch_str_i_eval.
        change (u "tCO2e") with (116 :: u "CO2e").
        change ((y :: w2) ++ 32 :: 116 :: 111 :: s)
          with (y :: w2 ++ 32 :: 116 :: 111 :: s).
        rewrite starts_with_ci_head_miss; [reflexivity|]. char_solve.
      * intros k'. apply rmatch_cls_stops. simpl.
        apply digit_not_space. exact Hy.
  - rewrite rmatch_grp, rmatch_cat. unfold Re.lit_i. apply rmatch_cls_stops.
    destruct w2 as [|y w2]; [reflexivity|].
    apply all_of_cons in Hw2. destruct Hw2 as [Hy _]. simpl. char_solve.
Qed.

Lemma origin1_fails s :
  starts_with_ci (u "origin") s = false ->
  starts_with_ci (u "paid") s = false ->
  fails_at V1.origin_re s.
Proof.
  intros H1 H2 A k c. unfold V1.origin_re. cbn [Re.seq].
  rewrite rmatch_cat, !rmatch_alt, !rmatch_str_i_eval, H1, H2.
  reflexivity.
Qed.

Lemma origin1_fails_head x s :
  (lower_char x =? 111) || (lower_char x =? 112) = false ->
  fails_at V1.origin_re (x :: s).
Proof.
  intros H.
  apply orb_false_iff in H. destruct H as [Ho Hp].
  apply origin1_fails.
  - change (u "origin") with (111 :: u "rigin").
    apply starts_with_ci_head_miss. exact Ho.
  - change (u "paid") with (112 :: u "aid").
    apply starts_with_ci_head_miss. exact Hp.
Qed.


Section NormalizedV1.

Variables (D P ipE frE ipO frO : pystr).
Hypothesis HD : some_of is_digit D.
Hypothesis HPne : P <> [].
Hypothesis HPl : all_of is_lower P.
Hypothesis HPo : contains_ci (u "origin") P = false.
Hypothesis HPp : contains_ci (u "paid") P = false.
Hypothesis HipE : some_of is_digit ipE.
Hypothesis HfrE : fraction frE.
Hypothesis HE : all_of (fun c => is_digit c || (c =? 46)) (ipE ++ frE).
Hypothesis HipO : some_of is_digit ipO.
Hypothesis HfrO : fraction frO.

Lemma normalized_qty1 :
  finds V1.qty_re (normalized_text D P (ipE ++ frE) (ipO ++ frO))
      [(2%nat, P); (1%nat, D)].
Proof.
unfold normalized_text. eapply finds_here. intros k a Hk.
apply qty1_forward; [exact HD | | | exact Hk].
- split; [exact HPne|]. unfold all_of. rewrite forallb_forall.
  intros x Hx. apply lower_is_word.
  unfold all_of in HPl. rewrite forallb_forall in HPl. apply HPl, Hx.
- reflexivity.
Qed.

Lemma normalized_em1 :
  finds V1.em_re (normalized_text D P (ipE ++ frE) (ipO ++ frO))
      ((1%nat, ipE ++ frE) :: fraction_caps 2 frE).
Proof.
unfold normalized_text.
change (u " tons of " ++ P ++ u ", " ++ (ipE ++ frE)
          ++ u " tCO2e, origin €" ++ ipO ++ frO)
  with (32 :: 116 :: 111 :: 110 :: 115 :: 32 :: 111 :: 102 :: 32
           :: P ++ 44 :: 32 :: (ipE ++ frE)
           ++ u " tCO2e" ++ u ", origin €" ++ ipO ++ frO).
apply finds_skip.
{ intros a b E Hne. apply em1_fails_digits_to.
  destruct HD as [_ HDd]. rewrite E in HDd. apply all_of_app in HDd. tauto. }
do 9 (apply finds_skip1; [apply em1_fails_nondigit; reflexivity|]).
apply finds_skip.
{ intros a b E Hne.
  destruct (@all_of_suffix_head _ _ _ _ HPl E Hne) as (x & b2 & -> & Hx).
  apply em1_fails_nondigit. apply lower_not_digit. exact Hx. }
do 2 (apply finds_skip1; [apply em1_fails_nondigit; reflexivity|]).
eapply finds_here. intros k a Hk.
apply em1_forward; [exact HipE | exact HfrE |].
rewrite app_nil_r. exact Hk.
Qed.

Lemma normalized_origin1 :
  finds V1.origin_re (normalized_text D P (ipE ++ frE) (ipO ++ frO))
      ((1%nat, ipO ++ frO) :: fraction_caps 2 frO).
Proof.
unfold normalized_text.
change (u " tons of " ++ P ++ u ", " ++ (ipE ++ frE)
          ++ u " tCO2e, origin €" ++ ipO ++ frO)
  with (32 :: 116 :: 111 :: 110 :: 115 :: 32 :: 111 :: 102 :: 32
           :: P ++ 44 :: 32 :: (ipE ++ frE)
           ++ 32 :: 116 :: 67 :: 79 :: 50 :: 101 :: 44 :: 32
           :: u "origin €" ++ ipO ++ frO).
apply finds_skip.
{ intros a b E Hne. destruct HD as [_ HDd].
  destruct (@all_of_suffix_head _ _ _ _ HDd E Hne) as (x & b2 & -> & Hx).
  apply origin1_fails_head.
  rewrite (lower_char_digit _ Hx). char_solve. }
do 9 (apply finds_skip1; [apply origin1_fails; reflexivity|]).
apply finds_skip.
{ intros a b E Hne. rewrite E in HPo, HPp.
  apply origin1_fails; rewrite starts_with_ci_cut;
    try reflexivity; try discriminate;
    eapply contains_ci_suffix; eassumption. }
do 2 (apply finds_skip1; [apply origin1_fails; reflexivity|]).
apply finds_skip.
{ intros a b E Hne.
  destruct (@all_of_suffix_head _ _ _ _ HE E Hne) as (x & b2 & -> & Hx).
  apply origin1_fails_head.
  apply orb_true_iff in Hx. destruct Hx as [Hx|Hx].
  - rewrite (lower_char_digit _ Hx). char_solve.
  - apply N.eqb_eq in Hx. subst x. reflexivity. }
do 8 (apply finds_skip1; [apply origin1_fails; reflexivity|]).
eapply finds_here. intros k a Hk.
rewrite <- (app_nil_r (ipO ++ frO)).
apply origin1_forward; [exact HipO | exact HfrO | exact I |].
rewrite app_nil_r. exact Hk.
Qed.

End NormalizedV1.



(* ===================================================================== *)
(** * The live price of the first variant                               *)
(* ===================================================================== *)

Lemma matchc_lit_inv l s c c' :
  matchc (Re.lit l) s c c' -> s = [l] /\ c' = c.
Proof.
  intros H. apply matchc_cls_inv in H. destruct H as (x & -> & Hx & ->).
  apply N.eqb_eq in Hx. subst. auto.
Qed.

Lemma matchc_str_inv lit : forall s c c',
  matchc (Re.str lit) s c c' -> s = lit /\ c' = c.
Proof.
  unfold Re.str.
  induction lit as [|l lit IH]; intros s c c' H.
  - apply matchc_eps_inv in H. exact H.
  - destruct lit as [|l' lit].
    + apply matchc_lit_inv in H. exact H.
    + change (matchc (Cat (Re.lit l) (Re.seq (map Re.lit (l' :: lit)))) s c c')
        in H.
      apply matchc_cat_inv in H. destruct H as (s1 & s2 & c1 & -> & H1 & H2).
      apply matchc_lit_inv in H1. destruct H1 as (-> & ->).
      apply IH in H2. destruct H2 as (-> & ->). auto.
Qed.

Lemma matches_str lit : matches (Re.str lit) lit.
Proof.
  unfold Re.str. induction lit as [|l lit IH].
  - apply matches_eps.
  - assert (Hl : matches (Re.lit l) [l]) by (apply matches_cls, N.eqb_refl).
    destruct lit as [|l' lit]; [exact Hl|].
    change (matches (Cat (Re.lit l) (Re.seq (map Re.lit (l' :: lit))))
                    ([l] ++ l' :: lit)).
    apply matches_cat; [exact Hl | exact IH].
Qed.

Lemma matchc_decimal_inv s c c' :
  matchc Live.decimal s c c' ->
  exists ip fp, s = ip ++ [46] ++ fp /\ some_of is_digit ip /\
                some_of is_digit fp /\ c' = c.
Proof.
  unfold Live.decimal. cbn [Re.seq]. intros H.
  apply matchc_cat_inv in H. destruct H as (ip & r & c1 & -> & Hi & H).
  apply matchc_cat_inv in H. destruct H as (d & fp & c2 & -> & Hd & Hf).
  apply matchc_plus_cls_inv in Hi. destruct Hi as [Hi ->].
  apply matchc_lit_inv in Hd. destruct Hd as [-> ->].
  apply matchc_plus_cls_inv in Hf. destruct Hf as [Hf ->].
  exists ip, fp. auto.
Qed.

Lemma matches_decimal ip fp :
  some_of is_digit ip -> some_of is_digit fp ->
  matches Live.decimal (ip ++ [46] ++ fp).
Proof.
  intros Hi Hf. unfold Live.decimal. cbn [Re.seq].
  apply matches_cat; [apply matches_plus_cls; exact Hi|].
  apply matches_cat; [apply matches_cls, N.eqb_refl|].
  apply matches_plus_cls; exact Hf.
Qed.

Lemma matchc_price_inv cell c c' :
  matchc Live.price_re cell c c' ->
  exists ip fp, price_cell ip fp cell /\ c' = (1%nat, ip ++ [46] ++ fp) :: c.
Proof.
  unfold Live.price_re. cbn [Re.seq]. intros H.
  apply matchc_cat_inv in H. destruct H as (t1 & r1 & c1 & -> & H1 & H).
  apply matchc_cat_inv in H. destruct H as (a1 & r2 & c2 & -> & H2 & H).
  apply matchc_cat_inv in H. destruct H as (t2 & r3 & c3 & -> & H3 & H).
  apply matchc_cat_inv in H. destruct H as (ws & r4 & c4 & -> & H4 & H).
  apply matchc_cat_inv in H. destruct H as (t3 & r5 & c5 & -> & H5 & H).
  apply matchc_cat_inv in H. destruct H as (a2 & r6 & c6 & -> & H6 & H).
  apply matchc_cat_inv in H. destruct H as (gt & g1 & c7 & -> & H7 & H8).
  apply matchc_str_inv in H1. destruct H1 as [-> ->].
  apply matchc_star_cls_inv in H2. destruct H2 as [Ha1 ->].
  apply matchc_str_inv in H3. destruct H3 as [-> ->].
  apply matchc_star_cls_inv in H4. destruct H4 as [Hws ->].
  apply matchc_str_inv in H5. destruct H5 as [-> ->].
  apply matchc_star_cls_inv in H6. destruct H6 as [Ha2 ->].
  apply matchc_lit_inv in H7. destruct H7 as [-> ->].
  apply matchc_grp_inv in H8. destruct H8 as (d1 & H8 & ->).
  apply matchc_decimal_inv in H8. destruct H8 as (ip & fp & -> & Hi & Hf & ->).
  exists ip, fp. split; [|reflexivity].
  exists a1, ws, a2. repeat split; trivial; try apply Hi; try apply Hf.
Qed.

Lemma matches_price ip fp cell : price_cell ip fp cell -> matches Live.price_re cell.
Proof.
  intros (a1 & ws & a2 & -> & Ha1 & Hws & Ha2 & Hi & Hf).
  unfold Live.price_re. cbn [Re.seq].
  apply matches_cat; [apply matches_str|].
  apply matches_cat; [apply matches_star_cls; exact Ha1|].
  apply matches_cat; [apply matches_str|].
  apply matches_cat; [apply matches_star_cls; exact Hws|].
  apply matches_cat; [apply matches_str|].
  apply matches_cat; [apply matches_star_cls; exact Ha2|].
  apply matches_cat; [apply matches_cls, N.eqb_refl|].
  apply matches_grp, matches_decimal; assumption.
Qed.

Lemma matches_price_iff cell : matches Live.price_re cell <-> price_cell_like cell.
Proof.
  split.
  - intros (c & c' & H). apply matchc_price_inv in H.
    destruct H as (ip & fp & H & _). exists ip, fp. exact H.
  - intros (ip & fp & H). eapply matches_price; eassumption.
Qed.

(** A string splits into its longest prefix in a class and the rest. *)
Lemma span_class (p : N -> bool) s :
  exists w rest, s = w ++ rest /\ all_of p w /\ stops p rest.
Proof.
  induction s as [|x s IH].
  - exists [], []. repeat split.
  - destruct (p x) eqn:Hx.
    + destruct IH as (w & rest & -> & Hw & Hr).
      exists (x :: w), rest. repeat split; trivial.
      apply all_of_cons. auto.
    + exists [], (x :: s). repeat split. exact Hx.
Qed.

(** A greedy [p+] in front of a continuation that cannot fail takes every
    character of the class it can. *)
Lemma rmatch_plus_cls_total (A : Type) (p : N -> bool) s c (k : cont A) a :
  (forall s' c', k s' c' <> None) ->
  rmatch (Re.plus (Cls p)) s c k = Some a ->
  exists w rest, s = w ++ rest /\ some_of p w /\ stops p rest /\
                 k rest c = Some a.
Proof.
  intros Hk H.
  destruct (span_class p s) as (w & rest & -> & Hw & Hr).
  destruct (k rest c) as [a'|] eqn:E; [|exfalso; exact (Hk _ _ E)].
  destruct w as [|x w].
  - exfalso. unfold Re.plus in H. rewrite rmatch_cat in H. cbn [app] in H.
    rewrite rmatch_cls_stops in H by exact Hr. discriminate.
  - assert (Hs : some_of p (x :: w)) by (split; [discriminate | exact Hw]).
    rewrite (@rmatch_plus_cls_greedy A p k c a' (x :: w) rest Hs Hr E) in H.
    inv H.
    exists (x :: w), rest. auto.
Qed.

(** What [re.match] with the price pattern returns: the cell, with every
    digit of the fraction. *)
Lemma match_at_price i s m :
  match_at Live.price_re i s = Some m ->
  exists ip fp cell post,
    s = cell ++ post /\ price_cell ip fp cell /\ stops is_digit post /\
    mgroup 1 m = ip ++ [46] ++ fp.
Proof.
  unfold match_at, Live.price_re. cbn [Re.seq]. intros H.
  rewrite rmatch_cat in H.
  apply rmatch_sound in H. destruct H as (t1 & s1 & c1 & -> & H1 & H).
  rewrite rmatch_cat in H.
  apply rmatch_sound in H. destruct H as (a1 & s2 & c2 & -> & H2 & H).
  rewrite rmatch_cat in H.
  apply rmatch_sound in H. destruct H as (t2 & s3 & c3 & -> & H3 & H).
  rewrite rmatch_cat in H.
  apply rmatch_sound in H. destruct H as (ws & s4 & c4 & -> & H4 & H).
  rewrite rmatch_cat in H.
  apply rmatch_sound in H. destruct H as (t3 & s5 & c5 & -> & H5 & H).
  rewrite rmatch_cat in H.
  apply rmatch_sound in H. destruct H as (a2 & s6 & c6 & -> & H6 & H).
  rewrite rmatch_cat in H.
  apply rmatch_sound in H. destruct H as (gt & s7 & c7 & -> & H7 & H).
  apply matchc_str_inv in H1. destruct H1 as [-> ->].
  apply matchc_star_cls_inv in H2. destruct H2 as [Ha1 ->].
  apply matchc_str_inv in H3. destruct H3 as [-> ->].
  apply matchc_star_cls_inv in H4. destruct H4 as [Hws ->].
  apply matchc_str_inv in H5. destruct H5 as [-> ->].
  apply matchc_star_cls_inv in H6. destruct H6 as [Ha2 ->].
  apply matchc_lit_inv in H7. destruct H7 as [-> ->].
  rewrite rmatch_grp in H. unfold Live.decimal in H. cbn [Re.seq] in H.
  rewrite rmatch_cat in H.
  apply rmatch_sound in H. destruct H as (ip & s8 & c8 & E8 & Hi & H).
  apply matchc_plus_cls_inv in Hi. destruct Hi as [Hi ->].
  rewrite rmatch_cat in H.
  apply rmatch_sound in H. destruct H as (dt & s9 & c9 & -> & Hd & H).
  apply matchc_lit_inv in Hd. destruct Hd as [-> ->].
  unfold Re.digit in H.
  apply rmatch_plus_cls_total in H; [|intros; discriminate].
  destruct H as (fp & post & -> & Hf & Hstop & H).
  subst s7. inv H. unfold mgroup. cbn [m_groups group Nat.eqb].
  exists ip, fp.
  exists (u "<td" ++ a1 ++ u ">EU Carbon Permits</td>" ++ ws
          ++ u "<td" ++ a2 ++ [62] ++ ip ++ [46] ++ fp), post.
  split; [rewrite <- !app_assoc; reflexivity|].
  split; [exists a1, ws, a2; repeat split; trivial;
          try apply Hi; try apply Hf|].
  split; [exact Hstop|].
  change (ip ++ 46 :: fp ++ post) with (ip ++ [46] ++ fp ++ post).
  rewrite (app_assoc [46] fp post), (app_assoc ip ([46] ++ fp) post).
  apply firstn_consumed.
Qed.


(* ===================================================================== *)
(** * One turn of the first variant                                     *)
(* ===================================================================== *)

Lemma attempts1_step E model p retries todo attempt w :
  App1.attempts E model p retries (S todo) attempt w =
  let w1 := {| App1.st := App1.st w;
               App1.clock :=
                 (App1.clock w
                  + Q_of_duration
                      (took (App1.llm_svc E (App1.requests w) model p)))%Q;
               App1.requests := S (App1.requests w);
               App1.trace :=
                 App1.trace w ++ [App1.Requested (App1.clock w) model p] |} in
  match result (App1.llm_svc E (App1.requests w) model p) with
  | inl response =>
    (Some response,
     App1.with_st {| App1.messages := App1.messages (App1.st w1);
                     App1.last_request_time := App1.clock w1;
                     App1.carbon_price := App1.carbon_price (App1.st w1) |} w1)
  | inr e =>
    if (attempt <? retries - 1)%nat
    then App1.attempts E model p retries todo (S attempt)
           (App1.sleep (inject_Z (RETRY_DELAY * Z.of_nat (attempt + 1))) w1)
    else (None, App1.emit (App1.StError (u "❌ Request failed: " ++ e)) w1)
  end.
Proof.
  cbn [App1.attempts]. unfold App1.complete.
  destruct (result (App1.llm_svc E (App1.requests w) model p)); reflexivity.
Qed.

Lemma attempts1_extends E model p retries : forall todo attempt w,
  exists evs,
    App1.trace (snd (App1.attempts E model p retries todo attempt w))
    = App1.trace w ++ evs /\
    forallb (fun e => negb (App1.is_search e)) evs = true.
Proof.
  induction todo as [|todo IH]; intros attempt w.
  - exists []. simpl. rewrite app_nil_r. auto.
  - rewrite attempts1_step. cbv zeta.
    destruct (result (App1.llm_svc E (App1.requests w) model p)) as [resp|e].
    + eexists. cbn [snd App1.trace App1.with_st]. split; reflexivity.
    + destruct (attempt <? retries - 1)%nat.
      * match goal with
        | |- context [App1.attempts E model p retries todo (S attempt) ?w1] =>
          destruct (IH (S attempt) w1) as (evs & Ht & Hq)
        end.
        rewrite Ht. cbn [App1.trace App1.sleep App1.emit App1.tick].
        rewrite <- !app_assoc. eexists. split; [reflexivity|].
        cbn [app forallb App1.is_search negb andb]. exact Hq.
      * eexists. cbn [snd App1.trace App1.emit]. rewrite <- app_assoc.
        split; reflexivity.
Qed.

Lemma complete_with_retry1_events E p w :
  exists evs t,
    App1.trace (snd (App1.complete_with_retry E MODEL_NAME p 2 w))
    = App1.trace w ++ evs /\
    forallb (fun e => negb (App1.is_search e)) evs = true /\
    In (App1.Requested t MODEL_NAME p) evs.
Proof.
  unfold App1.complete_with_retry.
  assert (Ht : exists pre,
             App1.trace (App1.throttle w) = App1.trace w ++ pre /\
             forallb (fun e => negb (App1.is_search e)) pre = true).
  { unfold App1.throttle. destruct (Qltb _ _).
    - eexists. split; reflexivity.
    - exists []. rewrite app_nil_r. auto. }
  destruct Ht as (pre & Ht & Hpre).
  set (w0 := App1.throttle w) in *.
  rewrite attempts1_step. cbv zeta.
  destruct (result (App1.llm_svc E (App1.requests w0) MODEL_NAME p))
    as [resp|e].
  - exists (pre ++ [App1.Requested (App1.clock w0) MODEL_NAME p]),
           (App1.clock w0).
    cbn [snd App1.trace App1.with_st]. rewrite Ht, <- app_assoc.
    split; [reflexivity|]. rewrite forallb_app, Hpre.
    split; [reflexivity|]. apply in_or_app. right. left. reflexivity.
  - change (0 <? 2 - 1)%nat with true. cbv iota.
    match goal with
    | |- context [App1.attempts E MODEL_NAME p 2 1 1 ?w1] =>
      destruct (attempts1_extends E MODEL_NAME p 2 1 1 w1) as (evs & He & Hq)
    end.
    exists (pre ++ App1.Requested (App1.clock w0) MODEL_NAME p
                :: App1.Slept (inject_Z (RETRY_DELAY * Z.of_nat (0 + 1)))
                :: evs),
           (App1.clock w0).
    rewrite He. cbn [App1.trace App1.sleep App1.emit App1.tick].
    rewrite Ht, <- !app_assoc. split; [reflexivity|].
    rewrite forallb_app, Hpre. cbn [forallb App1.is_search negb andb].
    split; [exact Hq|]. apply in_or_app. right. left. reflexivity.
Qed.

Lemma estimate_factor_some prod qty em p n x :
  App1.estimate_factor prod qty em = Some (p, n, x) <->
  prod = Some p /\ p <> [] /\ qty = Some n /\ n <> 0 /\
  (em = Some x \/ (em = None /\ dict_get Cfg1.DEFAULT_EMISSIONS p = Some x)).
Proof.
  unfold App1.estimate_factor. split.
  - destruct prod as [[|c p0]|]; try discriminate;
      destruct qty as [[|q]|]; try discriminate;
      cbn [truthy_str truthy_int andb].
    destruct em as [e|].
    + intros H; inv H. repeat split; try discriminate. auto.
    + destruct (dict_get Cfg1.DEFAULT_EMISSIONS (c :: p0)) eqn:D; [|discriminate].
      intros H; inv H. repeat split; try discriminate. auto.
  - intros (-> & Hp & -> & Hn & H).
    destruct p as [|c p]; [congruence|]. destruct n as [|q]; [congruence|].
    cbn [truthy_str truthy_int andb].
    destruct H as [-> | [-> ->]]; reflexivity.
Qed.

(** A product that the first variant's classifier returns is never the
    empty string. *)
Lemma extract_product_nonempty_v1 text p :
  fst (fst (fst (V1.extract_cbam_request text))) = Some p -> p <> [].
Proof.
  unfold V1.extract_cbam_request.
  pose proof (re_search_spec V1.qty_re text) as H.
  destruct (re_search V1.qty_re text) as [m|]; cbn [fst]; [|discriminate].
  destruct H as (pre & mid & post & (E & Hm & Hl) & _).
  apply matchc_qty1_inv in Hm. destruct Hm as (g1 & g2 & Hs & Hg).
  intros Hp. inv Hp. apply lower_nonempty.
  unfold mgroup. rewrite Hg. cbn [group Nat.eqb].
  destruct Hs as (ws1 & t & ws2 & o & ws3 & _ & _ & _ & _ & _ & _ & _ & Hw).
  apply Hw.
Qed.



(* ===================================================================== *)
(** * The documents taken for indexing                                  *)
(* ===================================================================== *)

Lemma before_slash_spec s :
  ~ In slash (before_slash s) /\
  exists rest, s = before_slash s ++ rest /\
               (rest = [] \/ exists r, rest = slash :: r).
Proof.
  induction s as [|c s (Hn & rest & E & Hr)]; simpl.
  - split; [tauto|]. exists []. auto.
  - destruct (N.eqb_spec c slash) as [->|Hc].
    + split; [simpl; tauto|]. exists (slash :: s). split; [reflexivity|].
      right. eauto.
    + split.
      * simpl. intros [H|H]; [congruence | tauto].
      * exists rest. split; [simpl; congruence | exact Hr].
Qed.

Lemma starts_with_before_slash lit : forall s,
  ~ In slash lit -> starts_with lit s = true ->
  starts_with lit (before_slash s) = true.
Proof.
  induction lit as [|l lit IH]; intros s Hn H; [reflexivity|].
  destruct s as [|x s]; [discriminate|]. simpl in H.
  apply andb_true_iff in H. destruct H as [Hx H].
  apply N.eqb_eq in Hx. subst x. simpl.
  destruct (N.eqb_spec l slash) as [->|Hl]; [exfalso; apply Hn; left; reflexivity|].
  simpl. rewrite N.eqb_refl. apply IH; [|exact H].
  intros Hin. apply Hn. right. exact Hin.
Qed.

(** X20: every name [reindex_documents] goes on to process is the last path
    component of a listed file - it holds no "/" - and still ends in one
    of ".pdf", ".png", ".jpg", ".jpeg", written in lower case; the names
    keep the order of the listing, and a file of another type gives no
    name. *)
Theorem document_names_supported (files : list pystr) :
  (List.length (document_names files) <= List.length files)%nat /\
  (forall name,
      In name (document_names files) ->
      ~ In slash name /\
      (exists ext, In ext DOCUMENT_SUFFIXES /\ ends_with ext name = true) /\
      exists file dir,
        In file files /\ file = dir ++ name /\
        (dir = [] \/ exists d, dir = d ++ [slash])) /\
  (forall file,
      existsb (fun x => ends_with x file) DOCUMENT_SUFFIXES = false ->
      document_names (file :: files) = document_names files) /\
  (forall file,
      existsb (fun x => ends_with x file) DOCUMENT_SUFFIXES = true ->
      document_names (file :: files)
      = last_component file :: document_names files).
Proof.
  split; [|split; [|split]].
  - unfold document_names. rewrite length_map. apply filter_length_le.
  - intros name H. unfold document_names in H.
    apply in_map_iff in H. destruct H as (file & <- & H).
    apply filter_In in H. destruct H as [Hin Hext].
    unfold last_component.
    destruct (before_slash_spec (rev file)) as (Hn & rest & E & Hr).
    split; [intros H; apply Hn, in_rev; exact H|]. split.
    + apply existsb_exists in Hext. destruct Hext as (ext & He & Hw).
      exists ext. split; [exact He|].
      unfold ends_with in *. rewrite rev_involutive.
      apply starts_with_before_slash; [|exact Hw].
      intros Hs. apply in_rev in Hs.
      simpl in He.
      repeat (destruct He as [<- | He];
              [vm_compute in Hs; intuition discriminate|]).
      destruct He.
    + exists file, (rev rest). split; [exact Hin|]. split.
      * apply (f_equal (@rev N)) in E. rewrite rev_involutive in E.
        rewrite <- rev_app_distr. exact E.
      * destruct Hr as [->|(r & ->)]; [left; reflexivity|].
        right. exists (rev r). reflexivity.
  - intros file H. unfold document_names. cbn [filter]. rewrite H. reflexivity.
  - intros file H. unfold document_names. cbn [filter]. rewrite H. reflexivity.
Qed.

(* ===================================================================== *)
(** * The first variant's completion client                             *)
(* ===================================================================== *)

Lemma attempts1_events E model p retries : forall todo attempt w r w',
  (todo + attempt = retries)%nat ->
  App1.attempts E model p retries todo attempt w = (r, w') ->
  exists evs,
    App1.trace w' = App1.trace w ++ evs /\
    (requests_in1 evs <= todo)%nat /\
    (todo <> 0%nat -> (1 <= requests_in1 evs)%nat) /\
    sleeps1 evs = map backoff (seq (S attempt) (requests_in1 evs - 1)) /\
    match r with
    | None =>
      App1.st w' = App1.st w /\
      (todo <> 0%nat ->
       requests_in1 evs = todo /\
       exists e, errors1 evs = [u "❌ Request failed: " ++ e])
    | Some _ =>
      errors1 evs = [] /\
      App1.last_request_time (App1.st w') = App1.clock w' /\
      App1.messages (App1.st w') = App1.messages (App1.st w) /\
      App1.carbon_price (App1.st w') = App1.carbon_price (App1.st w)
    end.
Proof.
  induction todo as [|todo IH]; intros attempt w r w' Hinv H.
  - simpl in H. inv H. exists []. rewrite app_nil_r.
    repeat split; trivial; try lia.
  - rewrite attempts1_step in H. cbv zeta in H.
    destruct (result (App1.llm_svc E (App1.requests w) model p)) as [resp|e].
    + inv H. exists [App1.Requested (App1.clock w) model p]. simpl.
      repeat split; trivial; unfold requests_in1; simpl; lia.
    + destruct (attempt <? retries - 1)%nat eqn:Hlt.
      * apply Nat.ltb_lt in Hlt.
        apply IH in H; [|lia].
        destruct H as (evs & Ht & Hle & Hge & Hs & Hr).
        exists (App1.Requested (App1.clock w) model p
                :: App1.Slept (backoff (S attempt)) :: evs).
        simpl in Ht. rewrite <- !app_assoc in Ht. simpl in Ht.
        assert (Hpos : (1 <= requests_in1 evs)%nat) by (apply Hge; lia).
        unfold requests_in1 in *. simpl.
        replace (attempt + 1)%nat with (S attempt) in Ht by lia.
        repeat split; trivial; try lia.
        -- rewrite Hs. rewrite Nat.sub_0_r.
           destruct (List.length (filter App1.is_request evs)) as [|n]; [lia|].
           simpl. rewrite Nat.sub_0_r. reflexivity.
        -- destruct r as [resp|]; [exact Hr|].
           destruct Hr as [Hst Hr]. split; [exact Hst|].
           intros _. destruct Hr as [Hn He]; [lia|]. split; [lia | exact He].
      * apply Nat.ltb_ge in Hlt. inv H.
        exists [App1.Requested (App1.clock w) model p;
                App1.StError (u "❌ Request failed: " ++ e)].
        simpl. rewrite <- app_assoc. unfold requests_in1. simpl.
        repeat split; trivial; try lia. eauto.
Qed.

